(** * The MQTT packet-identifier pool ([mqtt_packet_id_dispatcher.go])

    A shallow embedding of the Go package [packetids] and the proofs of
    its specification.

    The pool hands out 16-bit packet identifiers.  All of its state sits
    behind one [sync.Mutex]; a [Reserve] call that finds the identifier
    space exhausted parks on a [sync.Cond] until a [Release] hands it a
    value.

    How the Go code is modelled:

    - [uint16] and [int64] values are [Z], with the wrap-around of [++]
      and [--] written out ([wrap16], [wrap64]);
    - a [[2]byte] is a pair of [Byte.byte];
    - the free stack, a chain of [packetIDNode]s that are never written
      after their allocation, is a [list Z] (head of the list = node
      [p.stack] points to, [[]] = [nil]);
    - the waiter queue is kept as the pointer structure it is: a heap of
      [waiterNode] records addressed by [nat], pointers are
      [option addr] with [None] for [nil];
    - the methods are written in a state monad over that heap whose
      primitive reads and writes record whether the mutex was held;
    - a method body between [Lock] (or the return of [cond.Wait]) and
      [Unlock] (or the next [cond.Wait]) runs with the mutex held, so it
      is one atomic step.  An interleaving of concurrent calls is a
      sequence of such steps: [Reserve] up to its return or its first
      [Wait], the resumption of a parked [Reserve], and [Release].

    Two further packages of the repository follow, each in a module of
    its own: the response broadcaster ([session]) and the subscription
    trie ([trie]). *)

From Stdlib Require Import ZArith Lia.
From Stdlib Require Import Strings.Byte.
From stdpp Require Import base list strings gmap.

Local Open Scope Z_scope.

(** ** Bytes and machine integers *)

Definition byte_to_Z (b : byte) : Z := Z.of_N (Byte.to_N b).

(** Go's [byte(x)] conversion keeps the low eight bits. *)
Definition byte_of_Z (z : Z) : byte :=
  default x00 (Byte.of_N (Z.to_N (z mod 256))).

Definition wrap16 (z : Z) : Z := z mod 65536.

Definition wrap64 (z : Z) : Z :=
  (z + 9223372036854775808) mod 18446744073709551616 - 9223372036854775808.

(** ** The wire codec *)

Module bytes.

(** Modelled from the spec: [helpers/bytes.Split16BitWord] is imported
    from [../modules/helpers/bytes], which is not part of the sources
    at hand.  The spec has it "encode a 16-bit value into 2 bytes,
    most-significant byte first". *)
Definition Split16BitWord (v : Z) : byte * byte :=
  (byte_of_Z (Z.shiftr v 8), byte_of_Z (Z.land v 255)).

(** Modelled from the spec: [helpers/bytes.CombineTwoBytes], from the
    same missing package, is to "decode 2 bytes (in that order) back
    into the 16-bit value". *)
Definition CombineTwoBytes (b : byte * byte) : Z :=
  Z.lor (Z.shiftl (byte_to_Z (fst b)) 8) (byte_to_Z (snd b)).

End bytes.

Record PacketID := { Value : Z }.

Definition GetBytes (o : PacketID) : byte * byte :=
  bytes.Split16BitWord (Value o).

Definition GetBytesSlice (o : PacketID) : list byte :=
  let b := GetBytes o in [fst b; snd b].

Definition NewPacketIDFromBytes (packetIDBytes : byte * byte) : PacketID :=
  {| Value := bytes.CombineTwoBytes packetIDBytes |}.

Definition NewPacketID (value : Z) : PacketID := {| Value := value |}.

(** ** The pool's data *)

(** [var MaxSimultaneousRequest uint16 = math.MaxUint16].  Nothing in the
    package assigns it, so it stands for its initial value. *)
Definition MaxSimultaneousRequest : Z := 65535.

(** Addresses of waiter nodes; the n-th node allocated has address n. *)
Abbreviation addr := nat.

Record waiterNode := {
  value : Z;
  done : bool;
  next : option addr;
  previous : option addr
}.

(** [mu] is [true] while the mutex is held.  [cond] lists the goroutines
    suspended in [cond.Wait]; a goroutine parked inside [Reserve] is
    named by the address of its waiter node. *)
Record PacketIDs := {
  mu : bool;
  cond : list addr;
  maxIDReached : Z;
  stack : list Z;
  stackSize : Z;
  waitList : option addr;
  waitListSize : Z
}.

(** What a run of the package acts on: the pool, the heap of waiter
    nodes, the goroutines that a [Broadcast] has woken and that have yet
    to get the mutex back, and the number of accesses to guarded state
    that were made without the mutex. *)
Record world := {
  pool : PacketIDs;
  heap : list waiterNode;
  runnable : list addr;
  unguarded : nat
}.

Definition set_value (v : Z) (n : waiterNode) : waiterNode :=
  {| value := v; done := done n; next := next n; previous := previous n |}.
Definition set_done (d : bool) (n : waiterNode) : waiterNode :=
  {| value := value n; done := d; next := next n; previous := previous n |}.
Definition set_next (a : option addr) (n : waiterNode) : waiterNode :=
  {| value := value n; done := done n; next := a; previous := previous n |}.
Definition set_previous (a : option addr) (n : waiterNode) : waiterNode :=
  {| value := value n; done := done n; next := next n; previous := a |}.

Definition set_mu (b : bool) (p : PacketIDs) : PacketIDs :=
  {| mu := b; cond := cond p; maxIDReached := maxIDReached p;
     stack := stack p; stackSize := stackSize p;
     waitList := waitList p; waitListSize := waitListSize p |}.
Definition set_cond (c : list addr) (p : PacketIDs) : PacketIDs :=
  {| mu := mu p; cond := c; maxIDReached := maxIDReached p;
     stack := stack p; stackSize := stackSize p;
     waitList := waitList p; waitListSize := waitListSize p |}.
Definition set_maxIDReached (m : Z) (p : PacketIDs) : PacketIDs :=
  {| mu := mu p; cond := cond p; maxIDReached := m;
     stack := stack p; stackSize := stackSize p;
     waitList := waitList p; waitListSize := waitListSize p |}.
Definition set_stack (s : list Z) (p : PacketIDs) : PacketIDs :=
  {| mu := mu p; cond := cond p; maxIDReached := maxIDReached p;
     stack := s; stackSize := stackSize p;
     waitList := waitList p; waitListSize := waitListSize p |}.
Definition set_stackSize (n : Z) (p : PacketIDs) : PacketIDs :=
  {| mu := mu p; cond := cond p; maxIDReached := maxIDReached p;
     stack := stack p; stackSize := n;
     waitList := waitList p; waitListSize := waitListSize p |}.
Definition set_waitList (w : option addr) (p : PacketIDs) : PacketIDs :=
  {| mu := mu p; cond := cond p; maxIDReached := maxIDReached p;
     stack := stack p; stackSize := stackSize p;
     waitList := w; waitListSize := waitListSize p |}.
Definition set_waitListSize (n : Z) (p : PacketIDs) : PacketIDs :=
  {| mu := mu p; cond := cond p; maxIDReached := maxIDReached p;
     stack := stack p; stackSize := stackSize p;
     waitList := waitList p; waitListSize := n |}.

Definition on_pool (f : PacketIDs -> PacketIDs) (σ : world) : world :=
  {| pool := f (pool σ); heap := heap σ;
     runnable := runnable σ; unguarded := unguarded σ |}.
Definition on_heap (f : list waiterNode -> list waiterNode) (σ : world) : world :=
  {| pool := pool σ; heap := f (heap σ);
     runnable := runnable σ; unguarded := unguarded σ |}.
Definition on_runnable (f : list addr -> list addr) (σ : world) : world :=
  {| pool := pool σ; heap := heap σ;
     runnable := f (runnable σ); unguarded := unguarded σ |}.
Definition on_unguarded (f : nat -> nat) (σ : world) : world :=
  {| pool := pool σ; heap := heap σ;
     runnable := runnable σ; unguarded := f (unguarded σ) |}.

(** ** The monad of method bodies *)

(** A body cannot go on when it dereferences [nil] (Go panics), when it
    calls [Lock] on the held mutex (it would wait), when it unlocks a
    mutex that is not locked (a fatal error of the Go runtime), or when
    the goroutine to resume has not been woken. *)
Inductive stuck := NilDereference | MutexHeld | UnlockOfUnlockedMutex | NotRunnable.

Inductive result (A : Type) :=
  | Ok (a : A) (σ : world)
  | Stuck (e : stuck).
Arguments Ok {A} a σ.
Arguments Stuck {A} e.

Definition M (A : Type) : Type := world -> result A.

Definition ret {A} (a : A) : M A := λ σ, Ok a σ.

Definition bind {A B} (m : M A) (k : A -> M B) : M B :=
  λ σ, match m σ with
       | Ok a σ' => k a σ'
       | Stuck e => Stuck e
       end.

Declare Scope go_scope.
Delimit Scope go_scope with go.
Notation "x <- m ;; k" := (bind m (λ x, k))
  (at level 100, m at next level, k at level 200, right associativity) : go_scope.
Notation "m ;; k" := (bind m (λ _, k))
  (at level 100, k at level 200, right associativity) : go_scope.
Local Open Scope go_scope.

(** *** Guarded state *)

(** Every read or write of a pool field or of a waiter node goes through
    [access], which counts it when the mutex is not held. *)
Definition access : M unit :=
  λ σ, Ok () (if mu (pool σ) then σ else on_unguarded S σ).

Definition load {A} (field : PacketIDs -> A) : M A :=
  access ;; λ σ, Ok (field (pool σ)) σ.

Definition store (upd : PacketIDs -> PacketIDs) : M unit :=
  access ;; λ σ, Ok () (on_pool upd σ).

(** [w.field] for a pointer [w]: a [nil] or dangling [w] cannot be read. *)
Definition deref (w : addr) : M waiterNode :=
  access ;;
  λ σ, match heap σ !! w with
       | Some n => Ok n σ
       | None => Stuck NilDereference
       end.

(** [w.field = x]. *)
Definition assign (w : addr) (upd : waiterNode -> waiterNode) : M unit :=
  n <- deref w ;;
  λ σ, Ok () (on_heap (λ h, <[w := upd n]> h) σ).

(** [&waiterNode{...}]: the new node gets the next unused address. *)
Definition new_waiterNode (n : waiterNode) : M addr :=
  λ σ, Ok (length (heap σ)) (on_heap (λ h, h ++ [n]) σ).

(** *** The mutex and the condition variable *)

Definition Lock : M unit :=
  λ σ, if mu (pool σ) then Stuck MutexHeld
       else Ok () (on_pool (set_mu true) σ).

Definition Unlock : M unit :=
  λ σ, if mu (pool σ) then Ok () (on_pool (set_mu false) σ)
       else Stuck UnlockOfUnlockedMutex.

(** [p.cond.Wait()] up to the suspension: the goroutine joins the
    condition's wait list and gives the mutex up. *)
Definition cond_Wait (w : addr) : M unit :=
  (λ σ, Ok () (on_pool (λ p, set_cond (cond p ++ [w]) p) σ)) ;;
  Unlock.

(** [p.cond.Broadcast()]: every goroutine on the wait list becomes
    runnable. *)
Definition cond_Broadcast : M unit :=
  λ σ, Ok () (on_runnable (λ r, r ++ cond (pool σ))
                (on_pool (set_cond []) σ)).

(** The rest of [p.cond.Wait()]: a woken goroutine takes the mutex
    again. *)
Definition cond_Wake (w : addr) : M unit :=
  (λ σ, if decide (w ∈ runnable σ)
        then Ok () (on_runnable (filter (λ a, a ≠ w)) σ)
        else Stuck NotRunnable) ;;
  Lock.

(** ** The methods *)

Definition New : world :=
  {| pool := {| mu := false; cond := []; maxIDReached := 0; stack := [];
                stackSize := 0; waitList := None; waitListSize := 0 |};
     heap := []; runnable := []; unguarded := 0 |}.

(** How a run of [Reserve] ends: it returns an identifier, or it is
    suspended in [cond.Wait] on its waiter [w]. *)
Inductive outcome :=
  | Issued (id : PacketID)
  | Suspended (w : addr).

(** Lines 117-128: the waiter takes itself out of the queue and returns
    the value it was given. *)
Definition leave_queue (w : addr) : M PacketID :=
  n <- deref w ;;
  match previous n with
  | Some pv => n' <- deref w ;; assign pv (set_next (next n'))
  | None => ret ()
  end ;;
  n <- deref w ;;
  match next n with
  | Some nx => n' <- deref w ;; assign nx (set_previous (previous n'))
  | None => ret ()
  end ;;
  sz <- load waitListSize ;;
  store (set_waitListSize (wrap64 (sz - 1))) ;;
  n <- deref w ;;
  ret {| Value := value n |}.

(** Lines 112-128: one turn of [for !w.done { p.cond.Wait() }] and what
    follows the loop.  It runs with the mutex held; the deferred
    [Unlock] runs after the return value was computed. *)
Definition await (w : addr) : M outcome :=
  n <- deref w ;;
  if done n then
    id <- leave_queue w ;;
    Unlock ;;
    ret (Issued id)
  else
    cond_Wait w ;;
    ret (Suspended w).

(** [Reserve], from its call to its return or to its first [Wait]. *)
Definition Reserve : M outcome :=
  Lock ;;
  stk <- load stack ;;
  match stk with
  | id :: rest =>
      store (set_stack rest) ;;
      sz <- load stackSize ;;
      store (set_stackSize (wrap64 (sz - 1))) ;;
      Unlock ;;
      ret (Issued {| Value := id |})
  | [] =>
      m <- load maxIDReached ;;
      if m <? MaxSimultaneousRequest then
        store (set_maxIDReached (wrap16 (m + 1))) ;;
        m' <- load maxIDReached ;;
        Unlock ;;
        ret (Issued {| Value := m' |})
      else
        hd <- load waitList ;;
        w <- match hd with
             | None =>
                 w <- new_waiterNode {| value := 0; done := false;
                                        next := None; previous := None |} ;;
                 store (set_waitList (Some w)) ;;
                 sz <- load waitListSize ;;
                 store (set_waitListSize (wrap64 (sz + 1))) ;;
                 ret w
             | Some _ =>
                 nx <- load waitList ;;
                 w <- new_waiterNode {| value := 0; done := false;
                                        next := nx; previous := None |} ;;
                 hd' <- load waitList ;;
                 match hd' with
                 | Some h => assign h (set_previous (Some w))
                 | None => λ _, Stuck NilDereference
                 end ;;
                 store (set_waitList (Some w)) ;;
                 sz <- load waitListSize ;;
                 store (set_waitListSize (wrap64 (sz + 1))) ;;
                 ret w
             end ;;
        await w
  end.

(** A parked [Reserve] whose [Wait] returns: it has the mutex again and
    goes round the loop once more. *)
Definition Resume (w : addr) : M outcome :=
  cond_Wake w ;;
  await w.

Definition Release (packetIDBytes : byte * byte) : M unit :=
  let id := bytes.CombineTwoBytes packetIDBytes in
  Lock ;;
  hd <- load waitList ;;
  match hd with
  | Some w =>
      n <- deref w ;;
      store (set_waitList (next n)) ;;
      assign w (set_value id) ;;
      assign w (set_done true) ;;
      cond_Broadcast
  | None =>
      stk <- load stack ;;
      store (set_stack (id :: stk)) ;;
      sz <- load stackSize ;;
      store (set_stackSize (wrap64 (sz + 1)))
  end ;;
  Unlock.

Definition GetStackSize : M Z := load stackSize.

Definition GetWaitListSize : M Z := load waitListSize.

(** ** Interleavings *)

Inductive call :=
  | Call_Reserve
  | Call_Resume (w : addr)
  | Call_Release (packetIDBytes : byte * byte).

Inductive event :=
  | Ev_Reserve (o : outcome)
  | Ev_Resume (w : addr) (o : outcome)
  | Ev_Release (packetIDBytes : byte * byte).

Definition exec (c : call) : M event :=
  match c with
  | Call_Reserve => o <- Reserve ;; ret (Ev_Reserve o)
  | Call_Resume w => o <- Resume w ;; ret (Ev_Resume w o)
  | Call_Release b => Release b ;; ret (Ev_Release b)
  end.

Fixpoint run (cs : list call) : M (list event) :=
  match cs with
  | [] => ret []
  | c :: cs' => e <- exec c ;; es <- run cs' ;; ret (e :: es)
  end.

(** The pool states that calls of [Reserve] and [Release], in any
    interleaving, lead to. *)
Inductive reachable : world -> Prop :=
  | reachable_New : reachable New
  | reachable_step σ c e σ' :
      reachable σ -> exec c σ = Ok e σ' -> reachable σ'.

(** ** The caller's contract *)

(** The identifier an event hands to a caller, if any. *)
Definition issued (e : event) : option Z :=
  match e with
  | Ev_Reserve (Issued id) | Ev_Resume _ (Issued id) => Some (Value id)
  | _ => None
  end.

(** [hands e held held']: the identifiers outstanding before and after
    the event [e], for callers that release only what they hold.  An
    identifier is outstanding from the return of the [Reserve] that
    issued it to the [Release] that gives it back; that [Release] takes
    one occurrence from the outstanding ones. *)
Definition hands (e : event) (held held' : list Z) : Prop :=
  match e with
  | Ev_Release b =>
      ∃ h1 h2, held = h1 ++ bytes.CombineTwoBytes b :: h2 ∧ held' = h1 ++ h2
  | _ =>
      held' = match issued e with Some id => id :: held | None => held end
  end.

(** The states, and the identifiers outstanding in them, that callers
    who keep to the contract lead to. *)
Inductive wellbehaved : world -> list Z -> Prop :=
  | wellbehaved_New : wellbehaved New []
  | wellbehaved_step σ held c e σ' held' :
      wellbehaved σ held -> exec c σ = Ok e σ' -> hands e held held' ->
      wellbehaved σ' held'.

(** ** Predicates used by the proofs *)

(** Total and partial correctness of a body from a given state. *)
Definition wp {A} (m : M A) (Q : A -> world -> Prop) (σ : world) : Prop :=
  match m σ with
  | Ok a σ' => Q a σ'
  | Stuck _ => False
  end.

Definition wlp {A} (m : M A) (Q : A -> world -> Prop) (σ : world) : Prop :=
  match m σ with
  | Ok a σ' => Q a σ'
  | Stuck _ => True
  end.

(** [lock_triple b b' m]: started with the mutex in state [b], the body
    [m] ends with it in state [b'] and has made no access to guarded
    state without holding it. *)
Definition lock_triple {A} (b b' : bool) (m : M A) : Prop :=
  ∀ σ, mu (pool σ) = b ->
       wlp m (λ _ σ', mu (pool σ') = b' ∧ unguarded σ' = unguarded σ) σ.

(** A pointer is [nil] or the address of an allocated node, as every
    pointer of a Go program is. *)
Definition valid (h : list waiterNode) (p : option addr) : Prop :=
  ∀ a, p = Some a -> (a < length h)%nat.

Definition heap_closed (h : list waiterNode) : Prop :=
  ∀ a n, h !! a = Some n -> valid h (next n) ∧ valid h (previous n).

(** The goroutines suspended inside [Reserve]. *)
Definition parked (σ : world) : list addr := cond (pool σ) ++ runnable σ.

Definition closed (σ : world) : Prop :=
  valid (heap σ) (waitList (pool σ)) ∧
  heap_closed (heap σ) ∧
  ∀ a, a ∈ parked σ -> (a < length (heap σ))%nat.

(** What [Release] writes into a waiter and [Reserve] reads back. *)
Definition payload (h : list waiterNode) : list (Z * bool) :=
  (λ n, (value n, done n)) <$> h.

(** The identifier a parked goroutine has been given and not yet
    returned. *)
Definition granted (h : list waiterNode) (a : addr) : list Z :=
  match h !! a with
  | Some n => if done n then [value n] else []
  | None => []
  end.

Definition pending (σ : world) : list Z :=
  parked σ ≫= granted (heap σ).

(** The heap after a new waiter was put in front of the queue [hd]
    (lines 97-106). *)
Definition enqueue (hd : option addr) (h : list waiterNode) : list waiterNode :=
  let w := {| value := 0; done := false; next := hd; previous := None |} in
  match hd with
  | None => h ++ [w]
  | Some a => alter (set_previous (Some (length h))) a (h ++ [w])
  end.

Definition Reserve_parked (σ : world) : world :=
  let w := length (heap σ) in
  on_pool (λ p, set_mu false (set_cond (cond p ++ [w])
                  (set_waitListSize (wrap64 (waitListSize p + 1))
                     (set_waitList (Some w) p))))
    (on_heap (enqueue (waitList (pool σ))) σ).

(** The heap after the waiter [w] has taken itself out of the queue
    (lines 118-123): first [w.previous.next = w.next], then
    [w.next.previous = w.previous], each guarded by its [nil] test. *)
Definition unlink_previous (w : addr) (h : list waiterNode) : list waiterNode :=
  match h !! w with
  | Some n =>
      match previous n with
      | Some pv => alter (set_next (next n)) pv h
      | None => h
      end
  | None => h
  end.

Definition unlink_next (w : addr) (h : list waiterNode) : list waiterNode :=
  match h !! w with
  | Some n =>
      match next n with
      | Some nx => alter (set_previous (previous n)) nx h
      | None => h
      end
  | None => h
  end.

Definition unlink (w : addr) (h : list waiterNode) : list waiterNode :=
  unlink_next w (unlink_previous w h).

Definition Resume_returned (w : addr) (σ : world) : world :=
  on_pool (λ p, set_waitListSize (wrap64 (waitListSize p - 1)) p)
    (on_runnable (filter (λ a, a ≠ w)) (on_heap (unlink w) σ)).

Definition Release_handed (id : Z) (w : addr) (σ : world) : world :=
  on_runnable (λ r, r ++ cond (pool σ))
    (on_pool (λ p, set_mu false (set_cond []
                     (set_waitList (heap σ !! w ≫= next) p)))
       (on_heap (alter (λ n, set_done true (set_value id n)) w) σ)).

(** [relinked σ σ']: from [σ] to [σ'] only [next] and [previous]
    pointers of waiter nodes were rewritten. *)
Definition relinked (σ σ' : world) : Prop :=
  pool σ' = pool σ ∧
  payload (heap σ') = payload (heap σ) ∧
  heap_closed (heap σ') ∧
  runnable σ' = runnable σ ∧
  unguarded σ' = unguarded σ.

(** The paths through the methods, one constructor for each: what a
    step does to a state whose mutex is free. *)
Inductive path : world -> event -> world -> Prop :=
  | path_pop σ id rest :
      stack (pool σ) = id :: rest ->
      path σ (Ev_Reserve (Issued {| Value := id |}))
        (on_pool (λ p, set_stackSize (wrap64 (stackSize p - 1))
                         (set_stack rest p)) σ)
  | path_mint σ :
      stack (pool σ) = [] ->
      maxIDReached (pool σ) < MaxSimultaneousRequest ->
      path σ (Ev_Reserve (Issued {| Value := wrap16 (maxIDReached (pool σ) + 1) |}))
        (on_pool (λ p, set_maxIDReached (wrap16 (maxIDReached p + 1)) p) σ)
  | path_park σ :
      stack (pool σ) = [] ->
      MaxSimultaneousRequest <= maxIDReached (pool σ) ->
      path σ (Ev_Reserve (Suspended (length (heap σ)))) (Reserve_parked σ)
  | path_repark σ w n :
      w ∈ runnable σ -> heap σ !! w = Some n -> done n = false ->
      path σ (Ev_Resume w (Suspended w))
        (on_pool (λ p, set_cond (cond p ++ [w]) p)
           (on_runnable (filter (λ a, a ≠ w)) σ))
  | path_granted σ w n :
      w ∈ runnable σ -> heap σ !! w = Some n -> done n = true ->
      path σ (Ev_Resume w (Issued {| Value := value n |})) (Resume_returned w σ)
  | path_push σ b :
      waitList (pool σ) = None ->
      path σ (Ev_Release b)
        (on_pool (λ p, set_stackSize (wrap64 (stackSize p + 1))
                         (set_stack (bytes.CombineTwoBytes b :: stack p) p)) σ)
  | path_hand σ b w :
      waitList (pool σ) = Some w ->
      path σ (Ev_Release b) (Release_handed (bytes.CombineTwoBytes b) w σ).

(** What holds of the pool between any two steps. *)
Definition settled (σ : world) : Prop :=
  mu (pool σ) = false ∧
  closed σ ∧
  NoDup (parked σ) ∧
  0 <= maxIDReached (pool σ) <= MaxSimultaneousRequest.

(** Every identifier in circulation: held by a caller, on the free
    stack, or given to a waiter that has yet to return it. *)
Definition circulating (σ : world) (held : list Z) : list Z :=
  held ++ stack (pool σ) ++ pending σ.

Definition accounted (σ : world) (held : list Z) : Prop :=
  NoDup (circulating σ held) ∧
  ∀ x, x ∈ circulating σ held -> 1 <= x <= maxIDReached (pool σ).

(** The free stack and the waiter queue are not both in use. *)
Definition exclusive (σ : world) : Prop :=
  stack (pool σ) = [] ∨ waitList (pool σ) = None.

(** The fresh pool after [n] identifiers were minted and none released. *)
Definition minted (n : Z) : world := on_pool (set_maxIDReached n) New.

(** Nothing to hand out and nothing handed over: the free stack is
    empty, every identifier was minted, no waiter has been served. *)
Definition starved (σ : world) : Prop :=
  stack (pool σ) = [] ∧
  MaxSimultaneousRequest <= maxIDReached (pool σ) ∧
  Forall (λ n, done n = false) (heap σ).

(** ** The shape of the waiter queue *)

(** [chain h p q]: following [next] from the pointer [p] one meets the
    nodes [q], in this order, and then [nil]. *)
Fixpoint chain (h : list waiterNode) (p : option addr) (q : list addr) : Prop :=
  match q with
  | [] => p = None
  | a :: q' => p = Some a ∧ ∃ n, h !! a = Some n ∧ chain h (next n) q'
  end.

(** Addresses in strictly decreasing order. *)
Fixpoint descending (q : list addr) : Prop :=
  match q with
  | [] => True
  | a :: q' => Forall (λ b, (b < a)%nat) q' ∧ descending q'
  end.

(** A goroutine that is suspended in [Reserve] and has not been served. *)
Definition waiting (σ : world) (a : addr) : Prop :=
  a ∈ parked σ ∧ ∃ n, heap σ !! a = Some n ∧ done n = false.

(** [linked σ q]: the queue that starts at [p.waitList] consists of the
    nodes [q], which are the waiting goroutines, the latest arrival
    first (a later waiter has a larger address).  [next] pointers lead to
    older nodes and [previous] pointers to newer ones, and the [previous]
    of a served node does not point into the queue. *)
Definition linked (σ : world) (q : list addr) : Prop :=
  chain (heap σ) (waitList (pool σ)) q ∧
  descending q ∧
  (∀ a, a ∈ q ↔ waiting σ a) ∧
  (∀ a n b, heap σ !! a = Some n -> next n = Some b -> (b < a)%nat) ∧
  (∀ a n b, heap σ !! a = Some n -> previous n = Some b -> (a < b)%nat) ∧
  (∀ a n b, heap σ !! a = Some n -> done n = true ->
            previous n = Some b -> b ∉ q).

(** ** Counters, wake-ups and exhaustion *)

(** The size counters agree with what they count: the entries of the
    free stack, and the [Reserve] calls that are suspended. *)
Definition counted (σ : world) : Prop :=
  stackSize (pool σ) = wrap64 (Z.of_nat (length (stack (pool σ)))) ∧
  waitListSize (pool σ) = wrap64 (Z.of_nat (length (parked σ))).

(** No goroutine sleeps on the condition with its waiter already
    served. *)
Definition awake (σ : world) : Prop :=
  ∀ a n, a ∈ cond (pool σ) -> heap σ !! a = Some n -> done n = false.

(** Waiters queue up only once every identifier has been minted. *)
Definition exhausted_when_queued (σ : world) : Prop :=
  waitList (pool σ) ≠ None -> MaxSimultaneousRequest <= maxIDReached (pool σ).

(** A call that does not hand the pool the value 0. *)
Definition releases_nonzero (c : call) : Prop :=
  match c with
  | Call_Release b => Value (NewPacketIDFromBytes b) ≠ 0
  | _ => True
  end.

(** Every value the pool can still hand out, from the free stack or
    through a served waiter, is an identifier. *)
Definition genuine (σ : world) : Prop :=
  Forall (λ id, 1 <= id <= 65535) (stack (pool σ)) ∧
  Forall (λ vd : Z * bool, vd.2 = true -> 1 <= vd.1 <= 65535)
    (payload (heap σ)).

(** * The response broadcaster ([pub_sub_implementation.go])

    Package [session] keeps one listener per packet identifier.  A
    [chan uint16] is [nil] or a reference to a channel; all that the
    package does with a channel is to close it, so the model keeps the
    set of closed channels.  [*ListenerNode] pointers are addresses into
    a heap of nodes, the map is a [gmap].  A method that calls [Lock] on
    a held mutex cannot go on ([Blocked]); [close] of a [nil] or of a
    closed channel panics, as in Go. *)

Module session.

Abbreviation chan := (option nat).

Record ListenerNode := {
  node_locked : bool;
  ch : chan;
  closed : bool
}.

Record ResponseBroadcaster := {
  locked : bool;
  listeners : gmap Z nat
}.

Record state := {
  r : ResponseBroadcaster;
  nodes : list ListenerNode;
  closed_chans : list nat
}.

Inductive error := AlreadyHasListener (id : Z).

Inductive panic :=
  CloseOfNilChannel | CloseOfClosedChannel | NilPointer | UnlockOfUnlocked.

Inductive result (A : Type) :=
  | Ok (a : A) (s : state)
  | Panic (p : panic)
  | Blocked.
Arguments Ok {A} a s.
Arguments Panic {A} p.
Arguments Blocked {A}.

Definition M (A : Type) : Type := state -> result A.

Definition ret {A} (a : A) : M A := λ s, Ok a s.

Definition bind {A B} (m : M A) (k : A -> M B) : M B :=
  λ s, match m s with
       | Ok a s' => k a s'
       | Panic p => Panic p
       | Blocked => Blocked
       end.

Declare Scope session_scope.
Notation "x <- m ;; k" := (bind m (λ x, k))
  (at level 100, m at next level, k at level 200, right associativity)
  : session_scope.
Notation "m ;; k" := (bind m (λ _, k))
  (at level 100, k at level 200, right associativity) : session_scope.
Local Open Scope session_scope.

Definition set_locked (b : bool) (s : state) : state :=
  {| r := {| locked := b; listeners := listeners (r s) |};
     nodes := nodes s; closed_chans := closed_chans s |}.

Definition set_listeners (l : gmap Z nat) (s : state) : state :=
  {| r := {| locked := locked (r s); listeners := l |};
     nodes := nodes s; closed_chans := closed_chans s |}.

Definition set_nodes (ns : list ListenerNode) (s : state) : state :=
  {| r := r s; nodes := ns; closed_chans := closed_chans s |}.

Definition set_closed_chans (cs : list nat) (s : state) : state :=
  {| r := r s; nodes := nodes s; closed_chans := cs |}.

Definition r_Lock : M unit :=
  λ s, if locked (r s) then Blocked else Ok () (set_locked true s).

Definition r_Unlock : M unit :=
  λ s, if locked (r s) then Ok () (set_locked false s)
       else Panic UnlockOfUnlocked.

Definition get_listeners : M (gmap Z nat) := λ s, Ok (listeners (r s)) s.

Definition put_listeners (l : gmap Z nat) : M unit :=
  λ s, Ok () (set_listeners l s).

(** [&ListenerNode{...}] *)
Definition new_node (n : ListenerNode) : M nat :=
  λ s, Ok (length (nodes s)) (set_nodes (nodes s ++ [n]) s).

Definition node_Lock (a : nat) : M unit :=
  λ s, match nodes s !! a with
       | Some n =>
           if node_locked n then Blocked
           else Ok () (set_nodes
                         (<[a := {| node_locked := true; ch := ch n;
                                    closed := closed n |}]> (nodes s)) s)
       | None => Panic NilPointer
       end.

Definition node_Unlock (a : nat) : M unit :=
  λ s, match nodes s !! a with
       | Some n =>
           if node_locked n
           then Ok () (set_nodes
                         (<[a := {| node_locked := false; ch := ch n;
                                    closed := closed n |}]> (nodes s)) s)
           else Panic UnlockOfUnlocked
       | None => Panic NilPointer
       end.

(** [node.closed = b] *)
Definition node_set_closed (a : nat) (b : bool) : M unit :=
  λ s, match nodes s !! a with
       | Some n =>
           Ok () (set_nodes
                    (<[a := {| node_locked := node_locked n; ch := ch n;
                               closed := b |}]> (nodes s)) s)
       | None => Panic NilPointer
       end.

(** [close(ch)] *)
Definition close (c : chan) : M unit :=
  λ s, match c with
       | None => Panic CloseOfNilChannel
       | Some k =>
           if decide (k ∈ closed_chans s) then Panic CloseOfClosedChannel
           else Ok () (set_closed_chans (k :: closed_chans s) s)
       end.

Definition NewResponseBroadcaster : state :=
  {| r := {| locked := false; listeners := ∅ |};
     nodes := []; closed_chans := [] |}.

(** Lines 25-34.  The early return of line 28 comes before the [Unlock]
    of line 32. *)
Definition AddListener (id : Z) (c : chan) : M (option error) :=
  r_Lock ;;
  l <- get_listeners ;;
  match l !! id with
  | Some _ => ret (Some (AlreadyHasListener id))
  | None =>
      n <- new_node {| node_locked := false; ch := c; closed := false |} ;;
      l' <- get_listeners ;;
      put_listeners (<[id := n]> l') ;;
      r_Unlock ;;
      ret None
  end.

(** Lines 36-41: the node, [nil] when there is none, and the flag [ok]. *)
Definition GetListener (id : Z) : M (option nat * bool) :=
  r_Lock ;;
  l <- get_listeners ;;
  r_Unlock ;;
  ret (l !! id, bool_decide (is_Some (l !! id))).

(** Lines 43-57. *)
Definition RemoveAndCloseListener (id : Z) (c : chan) : M unit :=
  r_Lock ;;
  l <- get_listeners ;;
  put_listeners (delete id l) ;;
  r_Unlock ;;
  match l !! id with
  | None => close c
  | Some node =>
      node_Lock node ;;
      node_set_closed node true ;;
      close c ;;
      node_Unlock node
  end.

(** The calls of the package. *)
Inductive call :=
  | Call_Add (id : Z) (c : chan)
  | Call_Get (id : Z)
  | Call_Remove (id : Z) (c : chan).

(** A call that returns, and the state it leaves. *)
Definition returns (c : call) (s s' : state) : Prop :=
  match c with
  | Call_Add id c => ∃ e, AddListener id c s = Ok e s'
  | Call_Get id => ∃ v, GetListener id s = Ok v s'
  | Call_Remove id c => RemoveAndCloseListener id c s = Ok () s'
  end.

Inductive reachable : state -> Prop :=
  | reachable_New : reachable NewResponseBroadcaster
  | reachable_call s c s' : reachable s -> returns c s s' -> reachable s'.

(** Every registered pointer leads to a node, and no node is left
    locked. *)
Definition wf (s : state) : Prop :=
  (∀ id a, listeners (r s) !! id = Some a -> (a < length (nodes s))%nat) ∧
  Forall (λ n, node_locked n = false) (nodes s).

End session.

(** * The subscription trie ([trie] package)

    The trie maps a topic name, letter by letter, to the users
    subscribed to it.  Its nodes are Go heap objects that point to their
    children and back to their parent, so the model keeps them in a heap
    addressed by [nat].

    - a [rune] is a [Z];
    - a topic name is given to the methods as the sequence of runes
      that [range name] yields ([range] below computes it from the
      bytes of the Go string); it is empty exactly when the string is
      [""];
    - a [*T] is [option nat], [None] for [nil];
    - a [map] field is a [gmap]; [Children], which the code leaves and
      resets to [nil], is an [option] of one, and [UserIDs], which both
      allocation sites [make], is never [nil];
    - the values of [Children] are the non-[nil] pointers the code stores;
    - [Get] returns the map of the topic's node; the model returns its
      contents at that moment;
    - [cleanTopicPath], which recurses along [Previous], takes the
      number of calls it may make. *)

Module trie.

Abbreviation rune := Z.
Abbreviation ptr := nat.
Abbreviation data := (option nat).

Record node := {
  UserIDs : gmap string data;
  Letter : rune;
  Previous : option ptr;
  Children : option (gmap rune ptr)
}.

Record Trie := {
  root : ptr;
  heap : list node
}.

Inductive panic := NilPointer | Dangling.

Inductive result (A : Type) :=
  | Ok (a : A) (s : Trie)
  | Panic (p : panic)
  | OutOfFuel.
Arguments Ok {A} a s.
Arguments Panic {A} p.
Arguments OutOfFuel {A}.

Definition M (A : Type) : Type := Trie -> result A.

Definition ret {A} (a : A) : M A := λ s, Ok a s.

Definition bind {A B} (m : M A) (k : A -> M B) : M B :=
  λ s, match m s with
       | Ok a s' => k a s'
       | Panic p => Panic p
       | OutOfFuel => OutOfFuel
       end.

Declare Scope trie_scope.
Notation "x <- m ;; k" := (bind m (λ x, k))
  (at level 100, m at next level, k at level 200, right associativity)
  : trie_scope.
Notation "m ;; k" := (bind m (λ _, k))
  (at level 100, k at level 200, right associativity) : trie_scope.
Local Open Scope trie_scope.

Definition set_UserIDs (u : gmap string data) (n : node) : node :=
  {| UserIDs := u; Letter := Letter n; Previous := Previous n;
     Children := Children n |}.

Definition set_Previous (p : option ptr) (n : node) : node :=
  {| UserIDs := UserIDs n; Letter := Letter n; Previous := p;
     Children := Children n |}.

Definition set_Children (c : option (gmap rune ptr)) (n : node) : node :=
  {| UserIDs := UserIDs n; Letter := Letter n; Previous := Previous n;
     Children := c |}.

(** *** The heap *)

Definition panic_M {A} (p : panic) : M A := λ _, Panic p.

Definition out_of_fuel {A} : M A := λ _, OutOfFuel.

Definition get_root : M ptr := λ s, Ok (root s) s.

Definition load (a : ptr) : M node :=
  λ s, match heap s !! a with
       | Some n => Ok n s
       | None => Panic Dangling
       end.

Definition store (a : ptr) (f : node -> node) : M unit :=
  λ s, match heap s !! a with
       | Some n => Ok () {| root := root s; heap := <[a := f n]> (heap s) |}
       | None => Panic Dangling
       end.

Definition alloc (n : node) : M ptr :=
  λ s, Ok (length (heap s)) {| root := root s; heap := heap s ++ [n] |}.

(** [m[k]] and [len(m)] on a map that may be [nil]. *)
Definition index (m : option (gmap rune ptr)) (letter : rune) : option ptr :=
  m ≫= λ c, c !! letter.

Definition len (m : option (gmap rune ptr)) : nat :=
  match m with
  | Some c => size c
  | None => 0
  end.

(** *** The package *)

Definition New : Trie :=
  {| root := 0%nat;
     heap := [{| UserIDs := ∅; Letter := 0; Previous := None;
                 Children := Some ∅ |}] |}.

Definition findLetterInNode (letter : rune)
    (children : option (gmap rune ptr)) : option ptr :=
  match index children letter with
  | Some foundNode => Some foundNode
  | None => None
  end.

Definition createLetterNode (letter : rune) (n : option ptr) : M ptr :=
  match n with
  | None => panic_M NilPointer
  | Some n =>
      nd <- load n ;;
      match index (Children nd) letter with
      | Some foundNode => ret foundNode
      | None => alloc {| UserIDs := ∅; Letter := letter; Previous := None;
                         Children := None |}
      end
  end.

Definition addLetterToNodeChildren (newLetterNode n : option ptr)
    : M (option ptr) :=
  match n, newLetterNode with
  | Some n, Some newLetterNode =>
      nd <- load n ;;
      match Children nd with
      | None =>
          nl <- load newLetterNode ;;
          store n (set_Children (Some {[Letter nl := newLetterNode]})) ;;
          ret (Some newLetterNode)
      | Some c =>
          nl <- load newLetterNode ;;
          match findLetterInNode (Letter nl) (Some c) with
          | Some letterNode => ret (Some letterNode)
          | None =>
              store n (set_Children (Some (<[Letter nl := newLetterNode]> c))) ;;
              ret (Some newLetterNode)
          end
      end
  | _, _ => ret None
  end.

(** The loop of [Add] over the letters of the name. *)
Fixpoint Add_loop (name : list rune) (current : option ptr)
    : M (option ptr) :=
  match name with
  | [] => ret current
  | letter :: name' =>
      newLetterNode <- createLetterNode letter current ;;
      store newLetterNode (set_Previous current) ;;
      current' <- addLetterToNodeChildren (Some newLetterNode) current ;;
      Add_loop name' current'
  end.

Definition Add (name : list rune) (userID : string) (d : data) : M unit :=
  match name with
  | [] => ret ()
  | _ =>
      r <- get_root ;;
      current <- Add_loop name (Some r) ;;
      match current with
      | None => panic_M NilPointer
      | Some c => store c (λ n, set_UserIDs (<[userID := d]> (UserIDs n)) n)
      end
  end.

(** The loop of [getTopicNode]. *)
Fixpoint getTopicNode_loop (name : list rune) (current : ptr)
    : M (option ptr) :=
  match name with
  | [] => ret (Some current)
  | letter :: name' =>
      nd <- load current ;;
      match findLetterInNode letter (Children nd) with
      | None => ret None
      | Some c => getTopicNode_loop name' c
      end
  end.

Definition getTopicNode (name : list rune) : M (option ptr) :=
  r <- get_root ;; getTopicNode_loop name r.

Definition Get (name : list rune) : M (option (gmap string data)) :=
  topicNode <- getTopicNode name ;;
  match topicNode with
  | None => ret None
  | Some a => nd <- load a ;; ret (Some (UserIDs nd))
  end.

Definition nodeStillUsed (n : option ptr) : M bool :=
  match n with
  | None => ret false
  | Some a =>
      nd <- load a ;;
      ret (negb (len (Children nd) =? 0)%nat || negb (size (UserIDs nd) =? 0)%nat)
  end.

Fixpoint cleanTopicPath (fuel : nat) (n : ptr) : M unit :=
  match fuel with
  | O => out_of_fuel
  | S fuel' =>
      used <- nodeStillUsed (Some n) ;;
      if used then ret () else
      nd <- load n ;;
      match Previous nd with
      | None => ret ()
      | Some current =>
          cur <- load current ;;
          match index (Children cur) (Letter nd) with
          | Some _ =>
              let c := delete (Letter nd) <$> Children cur in
              store current
                (set_Children (if (len c =? 0)%nat then None else c))
          | None => ret ()
          end ;;
          cleanTopicPath fuel' current
      end
  end.

Definition Remove (fuel : nat) (name : list rune) (userID : string) : M data :=
  match name with
  | [] => ret None
  | _ =>
      current <- getTopicNode name ;;
      match current with
      | None => ret None
      | Some c =>
          nd <- load c ;;
          let subscription := default None (UserIDs nd !! userID) in
          store c (λ n, set_UserIDs (delete userID (UserIDs n)) n) ;;
          cleanTopicPath fuel c ;;
          ret subscription
      end
  end.

(** *** Names

    A Go string is a sequence of bytes, here a [string].  The loops of
    [Add] and [getTopicNode] see a name through [for _, letter = range
    name] only, which yields runes: a byte below [0x80] is its own rune;
    at any other position the runtime decodes a UTF-8 sequence of two to
    four bytes and yields its code point when the sequence is well
    formed, not over-long, not a surrogate and at most [U+10FFFF];
    otherwise it yields [U+FFFD] and moves on by one byte.  Two strings
    with the same runes are the same name to the trie. *)

Definition RuneError : rune := 65533.

Definition byte_at (c : Ascii.ascii) : Z := Z.of_N (Ascii.N_of_ascii c).

(** [locb <= b && b <= hicb] *)
Definition continuation (b : Z) : bool := (128 <=? b) && (b <=? 191).

(** [rune(s[0]&mask2)<<6 | rune(s[1]&maskx)] and its longer forms. *)
Definition rune2 (b0 b1 : Z) : rune :=
  Z.lor (Z.shiftl (Z.land b0 31) 6) (Z.land b1 63).

Definition rune3 (b0 b1 b2 : Z) : rune :=
  Z.lor (Z.lor (Z.shiftl (Z.land b0 15) 12) (Z.shiftl (Z.land b1 63) 6))
    (Z.land b2 63).

Definition rune4 (b0 b1 b2 b3 : Z) : rune :=
  Z.lor
    (Z.lor (Z.lor (Z.shiftl (Z.land b0 7) 18) (Z.shiftl (Z.land b1 63) 12))
       (Z.shiftl (Z.land b2 63) 6))
    (Z.land b3 63).

(** The runes that [range] yields for a string. *)
Fixpoint range (s : string) : list rune :=
  match s with
  | EmptyString => []
  | String c0 s1 =>
      let b0 := byte_at c0 in
      if b0 <? 128 then b0 :: range s1 else
      match s1 with
      | EmptyString => [RuneError]
      | String c1 s2 =>
          let b1 := byte_at c1 in
          if (192 <=? b0) && (b0 <? 224) then
            if continuation b1 && (127 <? rune2 b0 b1)
            then rune2 b0 b1 :: range s2
            else RuneError :: range s1
          else
          match s2 with
          | EmptyString => RuneError :: range s1
          | String c2 s3 =>
              let b2 := byte_at c2 in
              if (224 <=? b0) && (b0 <? 240) then
                if continuation b1 && continuation b2
                   && (2047 <? rune3 b0 b1 b2)
                   && negb ((55296 <=? rune3 b0 b1 b2)
                            && (rune3 b0 b1 b2 <=? 57343))
                then rune3 b0 b1 b2 :: range s3
                else RuneError :: range s1
              else
              match s3 with
              | EmptyString => RuneError :: range s1
              | String c3 s4 =>
                  let b3 := byte_at c3 in
                  if (240 <=? b0) && (b0 <? 248)
                     && continuation b1 && continuation b2 && continuation b3
                     && (65535 <? rune4 b0 b1 b2 b3)
                     && (rune4 b0 b1 b2 b3 <=? 1114111)
                  then rune4 b0 b1 b2 b3 :: range s4
                  else RuneError :: range s1
              end
          end
      end
  end.

(** *** Paths, subscribers and the shape of the trie *)

(** The node that the letters of [name] lead to from [a]. *)
Fixpoint walk (h : list node) (a : ptr) (name : list rune) : option ptr :=
  match name with
  | [] => Some a
  | letter :: name' =>
      n ← h !! a; b ← index (Children n) letter; walk h b name'
  end.

Definition node_at (s : Trie) (name : list rune) : option node :=
  walk (heap s) (root s) name ≫= λ a, heap s !! a.

(** What [Get] shows of a topic: [None] for the [nil] map. *)
Definition subscribers (s : Trie) (name : list rune)
    : option (gmap string data) :=
  UserIDs <$> node_at s name.

Definition subscription (s : Trie) (name : list rune) (userID : string)
    : option data :=
  subscribers s name ≫= λ u, u !! userID.

Definition used (n : node) : Prop :=
  len (Children n) ≠ 0%nat ∨ UserIDs n ≠ ∅.

(** The nodes that can be reached from the root form a tree: every
    child is allocated, points back to its parent and carries the
    letter it is filed under.  The root has no parent and no user. *)
Definition wf (s : Trie) : Prop :=
  (∃ n, heap s !! root s = Some n ∧ Previous n = None ∧ UserIDs n = ∅) ∧
  ∀ name a n letter b,
    walk (heap s) (root s) name = Some a -> heap s !! a = Some n ->
    index (Children n) letter = Some b ->
    ∃ nb, heap s !! b = Some nb ∧ Previous nb = Some a ∧ Letter nb = letter.

(** No dead branch but, possibly, the node at [p]. *)
Definition pruned_except (p : list rune) (s : Trie) : Prop :=
  ∀ name n, name ≠ [] -> name ≠ p -> node_at s name = Some n -> used n.

Definition pruned (s : Trie) : Prop :=
  ∀ name n, name ≠ [] -> node_at s name = Some n -> used n.

(** The state after one round of the loop of [Add] that had to allocate
    the node for [c] under the node [n] at [a]. *)
Definition leaf (a : ptr) (c : rune) : node :=
  {| UserIDs := ∅; Letter := c; Previous := Some a; Children := None |}.

Definition adopt (c : rune) (l : ptr) (n : node) : node :=
  set_Children (Some (<[c := l]> (default ∅ (Children n)))) n.

Definition grow (a : ptr) (n : node) (c : rune) (s : Trie) : Trie :=
  {| root := root s;
     heap := <[a := adopt c (length (heap s)) n]> (heap s ++ [leaf a c]) |}.

(** The node and the state the loop of [Add] ends in. *)
Fixpoint extend (q : list rune) (a : ptr) (s : Trie) : ptr * Trie :=
  match q with
  | [] => (a, s)
  | c :: q' =>
      match heap s !! a with
      | None => (a, s)
      | Some n =>
          match index (Children n) c with
          | Some b => extend q' b s
          | None => extend q' (length (heap s)) (grow a n c s)
          end
      end
  end.

Definition with_users (a : ptr) (n : node) (u : gmap string data) (s : Trie)
    : Trie :=
  {| root := root s; heap := <[a := set_UserIDs u n]> (heap s) |}.

(** The state after one round of [cleanTopicPath] that took the child
    filed under [c] out of the node [n] at [a]. *)
Definition disown (c : rune) (n : node) : node :=
  set_Children (if (len (delete c <$> Children n) =? 0)%nat then None
                else delete c <$> Children n) n.

Definition cut (a : ptr) (n : node) (c : rune) (s : Trie) : Trie :=
  {| root := root s; heap := <[a := disown c n]> (heap s) |}.

(** [s'] is [s] with, possibly, nodes without users added along [path]. *)
Definition grown (path : list rune) (s s' : Trie) : Prop :=
  ∀ x, subscribers s' x = subscribers s x ∨
       (x `prefix_of` path ∧ subscribers s x = None ∧
        subscribers s' x = Some ∅).

(** *** Runs *)

Inductive call :=
  | Call_Add (name : list rune) (userID : string) (d : data)
  | Call_Remove (name : list rune) (userID : string).

Definition returns (c : call) (s s' : Trie) : Prop :=
  match c with
  | Call_Add name userID d => Add name userID d s = Ok () s'
  | Call_Remove name userID =>
      ∃ v, Remove (S (length name)) name userID s = Ok v s'
  end.

Inductive reachable : Trie -> Prop :=
  | reachable_New : reachable New
  | reachable_call s c s' : reachable s -> returns c s s' -> reachable s'.

End trie.

(** * Proofs *)

(** ** The codec *)

Lemma byte_to_Z_range (b : byte) : 0 <= byte_to_Z b < 256.
Proof.
    unfold byte_to_Z. pose proof (Byte.to_N_bounded b). lia.
Qed.

Lemma byte_of_to_Z (b : byte) : byte_of_Z (byte_to_Z b) = b.
Proof.
    unfold byte_of_Z. pose proof (byte_to_Z_range b) as Hb.
    rewrite Z.mod_small by lia. unfold byte_to_Z.
    rewrite N2Z.id, Byte.of_to_N. reflexivity.
Qed.

Lemma byte_to_of_Z (z : Z) : byte_to_Z (byte_of_Z z) = z mod 256.
Proof.
    unfold byte_of_Z, byte_to_Z.
    pose proof (Z.mod_pos_bound z 256 ltac:(lia)) as Hz.
    destruct (Byte.of_N (Z.to_N (z mod 256))) as [b|] eqn:E.
    - apply Byte.to_of_N in E. simpl. rewrite E. lia.
    - apply Byte.of_N_None_iff in E. lia.
Qed.

  (** The two bytes do not overlap, so the [|] of the source is a sum. *)
Lemma CombineTwoBytes_sum (b : byte * byte) :
    bytes.CombineTwoBytes b = 256 * byte_to_Z (fst b) + byte_to_Z (snd b).
Proof.
    unfold bytes.CombineTwoBytes.
    pose proof (byte_to_Z_range (fst b)) as Hh.
    pose proof (byte_to_Z_range (snd b)) as Hl.
    set (h := byte_to_Z (fst b)) in *. set (l := byte_to_Z (snd b)) in *.
    rewrite <- Z.lxor_lor, <- Z.add_nocarry_lxor.
    - rewrite Z.shiftl_mul_pow2 by lia. change (2 ^ 8) with 256. lia.
    - apply Z.bits_inj'. intros n Hn.
      rewrite Z.land_spec, Z.bits_0.
      destruct (Z.lt_ge_cases n 8) as [Hlt|Hge].
      + rewrite Z.shiftl_spec_low by lia. reflexivity.
      + assert (Z.testbit l n = false) as ->; [|apply andb_false_r].
        destruct (Z.eq_dec l 0) as [->|Hnz]; [apply Z.bits_0|].
        apply Z.bits_above_log2; [lia|].
        assert (Z.log2 l < 8); [|lia].
        apply Z.log2_lt_pow2; lia.
    - apply Z.bits_inj'. intros n Hn.
      rewrite Z.land_spec, Z.bits_0.
      destruct (Z.lt_ge_cases n 8) as [Hlt|Hge].
      + rewrite Z.shiftl_spec_low by lia. reflexivity.
      + assert (Z.testbit l n = false) as ->; [|apply andb_false_r].
        destruct (Z.eq_dec l 0) as [->|Hnz]; [apply Z.bits_0|].
        apply Z.bits_above_log2; [lia|].
        assert (Z.log2 l < 8); [|lia].
        apply Z.log2_lt_pow2; lia.
Qed.

Lemma CombineTwoBytes_range (b : byte * byte) :
    0 <= bytes.CombineTwoBytes b <= 65535.
Proof.
    rewrite CombineTwoBytes_sum.
    pose proof (byte_to_Z_range (fst b)). pose proof (byte_to_Z_range (snd b)).
    lia.
Qed.

Lemma Split16BitWord_high (v : Z) :
    byte_to_Z (fst (bytes.Split16BitWord v)) = (v / 256) mod 256.
Proof.
    unfold bytes.Split16BitWord. simpl fst.
    rewrite byte_to_of_Z, Z.shiftr_div_pow2 by lia. reflexivity.
Qed.

Lemma Split16BitWord_low (v : Z) :
    byte_to_Z (snd (bytes.Split16BitWord v)) = v mod 256.
Proof.
    unfold bytes.Split16BitWord. simpl snd.
    rewrite byte_to_of_Z. change 255 with (Z.ones 8).
    rewrite Z.land_ones by lia. change (2 ^ 8) with 256.
    apply Z.mod_mod. lia.
Qed.

Lemma Combine_Split (v : Z) :
    0 <= v <= 65535 -> bytes.CombineTwoBytes (bytes.Split16BitWord v) = v.
Proof.
    intros Hv. rewrite CombineTwoBytes_sum, Split16BitWord_high, Split16BitWord_low.
    rewrite (Z.mod_small (v / 256)).
    - pose proof (Z.div_mod v 256 ltac:(lia)). lia.
    - split; [apply Z.div_pos; lia|]. apply Z.div_lt_upper_bound; lia.
Qed.

Lemma Split_Combine (b : byte * byte) :
    bytes.Split16BitWord (bytes.CombineTwoBytes b) = b.
Proof.
    pose proof (byte_to_Z_range (fst b)) as Hh.
    pose proof (byte_to_Z_range (snd b)) as Hl.
    destruct b as [h l]. simpl in Hh, Hl.
    assert (byte_to_Z (fst (bytes.Split16BitWord (bytes.CombineTwoBytes (h, l))))
            = byte_to_Z h) as E1.
    { rewrite Split16BitWord_high, CombineTwoBytes_sum. simpl.
      replace ((256 * byte_to_Z h + byte_to_Z l) / 256) with (byte_to_Z h).
      - apply Z.mod_small; lia.
      - apply Z.div_unique with (r := byte_to_Z l); lia. }
    assert (byte_to_Z (snd (bytes.Split16BitWord (bytes.CombineTwoBytes (h, l))))
            = byte_to_Z l) as E2.
    { rewrite Split16BitWord_low, CombineTwoBytes_sum. simpl.
      symmetry. apply Z.mod_unique with (q := byte_to_Z h); lia. }
    destruct (bytes.Split16BitWord _) as [h' l']. simpl in E1, E2.
    rewrite <- (byte_of_to_Z h), <- (byte_of_to_Z l).
    rewrite <- (byte_of_to_Z h'), <- (byte_of_to_Z l'). congruence.
Qed.

(** ** Rules of the monad *)

Lemma wp_Ok {A} (m : M A) Q σ :
  wp m Q σ ↔ ∃ a σ', m σ = Ok a σ' ∧ Q a σ'.
Proof.
  unfold wp. destruct (m σ) as [a σ'|e]; split.
  - intros HQ. exists a, σ'. auto.
  - intros (a' & σ'' & Heq & HQ). congruence.
  - intros [].
  - intros (a' & σ'' & Heq & _). discriminate.
Qed.

Lemma wp_ret {A} (a : A) (Q : A -> world -> Prop) σ : Q a σ -> wp (ret a) Q σ.
Proof. intros HQ. exact HQ. Qed.

Lemma wp_bind {A B} (m : M A) (k : A -> M B) Q σ :
  wp m (λ a σ', wp (k a) Q σ') σ -> wp (bind m k) Q σ.
Proof. unfold wp, bind. destruct (m σ); auto. Qed.

Lemma wp_mono {A} (m : M A) (Q Q' : A -> world -> Prop) σ :
  (∀ a σ', Q a σ' -> Q' a σ') -> wp m Q σ -> wp m Q' σ.
Proof. unfold wp. destruct (m σ); auto. Qed.

Lemma wlp_bind {A B} (m : M A) (k : A -> M B) Q σ :
  wlp m (λ a σ', wlp (k a) Q σ') σ -> wlp (bind m k) Q σ.
Proof. unfold wlp, bind. destruct (m σ); auto. Qed.

Lemma wlp_Ok {A} (m : M A) (Q : A -> world -> Prop) σ a σ' :
  wlp m Q σ -> m σ = Ok a σ' -> Q a σ'.
Proof. unfold wlp. intros HQ Heq. rewrite Heq in HQ. exact HQ. Qed.

(** ** Lock discipline of the primitives *)

Section lock_rules.

Context {A B : Type}.

Lemma lock_ret b (a : A) : lock_triple b b (ret a).
Proof. intros σ Hmu. unfold wlp. simpl. auto. Qed.

Lemma lock_stuck b b' e : lock_triple b b' (λ _, @Stuck A e).
Proof. intros σ Hmu. exact I. Qed.

Lemma lock_bind b1 b2 b3 (m : M A) (k : A -> M B) :
  lock_triple b1 b2 m -> (∀ a, lock_triple b2 b3 (k a)) ->
  lock_triple b1 b3 (bind m k).
Proof.
  intros Hm Hk σ Hmu. apply wlp_bind. specialize (Hm σ Hmu).
  unfold wlp in *. destruct (m σ) as [a σ1|]; [|exact I].
  cbv beta in *. destruct Hm as [Hmu1 Hu1]. specialize (Hk a σ1 Hmu1).
  unfold wlp in Hk. destruct (k a σ1) as [c σ2|]; [|exact I].
  cbv beta in *. destruct Hk as [Hmu2 Hu2]. split; congruence.
Qed.

End lock_rules.

Lemma lock_access : lock_triple true true access.
Proof. intros σ Hmu. unfold wlp, access. rewrite Hmu. auto. Qed.

Lemma lock_load {A} (field : PacketIDs -> A) : lock_triple true true (load field).
Proof.
  apply lock_bind with (b2 := true); [apply lock_access|].
  intros _ σ Hmu. unfold wlp. simpl. auto.
Qed.

Lemma lock_store upd :
  (∀ p, mu (upd p) = mu p) -> lock_triple true true (store upd).
Proof.
  intros Hupd. apply lock_bind with (b2 := true); [apply lock_access|].
  intros _ σ Hmu. unfold wlp. simpl. rewrite Hupd. auto.
Qed.

Lemma lock_deref w : lock_triple true true (deref w).
Proof.
  apply lock_bind with (b2 := true); [apply lock_access|].
  intros _ σ Hmu. unfold wlp. destruct (heap σ !! w); auto.
Qed.

Lemma lock_assign w upd : lock_triple true true (assign w upd).
Proof.
  apply lock_bind with (b2 := true); [apply lock_deref|].
  intros n σ Hmu. unfold wlp. simpl. auto.
Qed.

Lemma lock_new_waiterNode b n : lock_triple b b (new_waiterNode n).
Proof. intros σ Hmu. unfold wlp. simpl. auto. Qed.

Lemma lock_Lock : lock_triple false true Lock.
Proof. intros σ Hmu. unfold wlp, Lock. rewrite Hmu. simpl. auto. Qed.

Lemma lock_Unlock : lock_triple true false Unlock.
Proof. intros σ Hmu. unfold wlp, Unlock. rewrite Hmu. simpl. auto. Qed.

Lemma lock_cond_Wait w : lock_triple true false (cond_Wait w).
Proof.
  apply lock_bind with (b2 := true); [|intros _; apply lock_Unlock].
  intros σ Hmu. unfold wlp. simpl. auto.
Qed.

Lemma lock_cond_Broadcast b : lock_triple b b cond_Broadcast.
Proof. intros σ Hmu. unfold wlp. simpl. auto. Qed.

Lemma lock_cond_Wake w : lock_triple false true (cond_Wake w).
Proof.
  apply lock_bind with (b2 := false); [|intros _; apply lock_Lock].
  intros σ Hmu. unfold wlp. destruct (decide (w ∈ runnable σ)); simpl; auto.
Qed.

Create HintDb lockdb.
#[local] Hint Resolve lock_ret lock_stuck lock_access lock_load lock_deref
  lock_assign lock_new_waiterNode lock_Lock lock_Unlock lock_cond_Wait
  lock_cond_Broadcast lock_cond_Wake : lockdb.

(** Walks down a method body: a primitive is closed by its rule, a
    sequence is split, a branch of the source is followed both ways. *)
Ltac lock_walk :=
  repeat first
    [ solve [eauto with lockdb]
    | apply lock_store; reflexivity
    | eapply lock_bind; [|intros ?]
    | match goal with
      | |- lock_triple _ _ (match ?x with _ => _ end) => destruct x
      end ].

Lemma lock_leave_queue w : lock_triple true true (leave_queue w).
Proof. unfold leave_queue. lock_walk. Qed.

Lemma lock_await w : lock_triple true false (await w).
Proof. unfold await. pose proof (lock_leave_queue w). lock_walk. Qed.

Lemma lock_Reserve : lock_triple false false Reserve.
Proof. unfold Reserve. pose proof lock_await. lock_walk. Qed.

Lemma lock_Resume w : lock_triple false false (Resume w).
Proof. unfold Resume. pose proof lock_await. lock_walk. Qed.

Lemma lock_Release b : lock_triple false false (Release b).
Proof. unfold Release. cbv zeta. lock_walk. Qed.

(** ** Running the primitives with the mutex held *)

Lemma wp_eq {A} (m : M A) σ a0 σ0 :
  wp m (λ a σ', a = a0 ∧ σ' = σ0) σ -> m σ = Ok a0 σ0.
Proof.
  unfold wp. destruct (m σ) as [a σ'|e]; [|intros []].
  intros [-> ->]. reflexivity.
Qed.

Lemma wp_access (Q : unit -> world -> Prop) σ :
  mu (pool σ) = true -> Q () σ -> wp access Q σ.
Proof. intros Hmu HQ. unfold wp, access. rewrite Hmu. exact HQ. Qed.

Lemma wp_load {A} (field : PacketIDs -> A) (Q : A -> world -> Prop) σ :
  mu (pool σ) = true -> Q (field (pool σ)) σ -> wp (load field) Q σ.
Proof. intros Hmu HQ. apply wp_bind, wp_access; assumption. Qed.

Lemma wp_store upd (Q : unit -> world -> Prop) σ :
  mu (pool σ) = true -> Q () (on_pool upd σ) -> wp (store upd) Q σ.
Proof. intros Hmu HQ. apply wp_bind, wp_access; assumption. Qed.

Lemma wp_deref w n (Q : waiterNode -> world -> Prop) σ :
  mu (pool σ) = true -> heap σ !! w = Some n -> Q n σ -> wp (deref w) Q σ.
Proof.
  intros Hmu Hw HQ. apply wp_bind, wp_access; [assumption|].
  unfold wp. rewrite Hw. exact HQ.
Qed.

Lemma insert_as_alter {X} (f : X -> X) (l : list X) i x :
  l !! i = Some x -> <[i := f x]> l = alter f i l.
Proof.
  revert i. induction l as [|y l IH]; intros [|i] Hi; simpl in *;
    try discriminate.
  - congruence.
  - f_equal. apply IH, Hi.
Qed.

Lemma wp_assign w n upd (Q : unit -> world -> Prop) σ :
  mu (pool σ) = true -> heap σ !! w = Some n ->
  Q () (on_heap (alter upd w) σ) -> wp (assign w upd) Q σ.
Proof.
  intros Hmu Hw HQ. apply wp_bind. apply (wp_deref w n); [assumption..|].
  unfold wp, on_heap in *. cbv beta.
  rewrite (insert_as_alter upd _ _ _ Hw). exact HQ.
Qed.

Lemma wp_new_waiterNode n (Q : addr -> world -> Prop) σ :
  Q (length (heap σ)) (on_heap (λ h, h ++ [n]) σ) -> wp (new_waiterNode n) Q σ.
Proof. intros HQ. exact HQ. Qed.

Lemma wp_Lock (Q : unit -> world -> Prop) σ :
  mu (pool σ) = false -> Q () (on_pool (set_mu true) σ) -> wp Lock Q σ.
Proof. intros Hmu HQ. unfold wp, Lock. rewrite Hmu. exact HQ. Qed.

Lemma wp_Unlock (Q : unit -> world -> Prop) σ :
  mu (pool σ) = true -> Q () (on_pool (set_mu false) σ) -> wp Unlock Q σ.
Proof. intros Hmu HQ. unfold wp, Unlock. rewrite Hmu. exact HQ. Qed.

Lemma wp_cond_Wait w (Q : unit -> world -> Prop) σ :
  mu (pool σ) = true ->
  Q () (on_pool (λ p, set_mu false (set_cond (cond p ++ [w]) p)) σ) ->
  wp (cond_Wait w) Q σ.
Proof.
  intros Hmu HQ. apply wp_bind. unfold wp at 1. apply wp_Unlock; [exact Hmu|].
  exact HQ.
Qed.

Lemma wp_cond_Broadcast (Q : unit -> world -> Prop) σ :
  Q () (on_runnable (λ r, r ++ cond (pool σ)) (on_pool (set_cond []) σ)) ->
  wp cond_Broadcast Q σ.
Proof. intros HQ. exact HQ. Qed.

Lemma wp_cond_Wake w (Q : unit -> world -> Prop) σ :
  w ∈ runnable σ -> mu (pool σ) = false ->
  Q () (on_pool (set_mu true) (on_runnable (filter (λ a, a ≠ w)) σ)) ->
  wp (cond_Wake w) Q σ.
Proof.
  intros Hw Hmu HQ. apply wp_bind. unfold wp at 1.
  destruct (decide (w ∈ runnable σ)) as [_|Hn]; [|contradiction].
  apply wp_Lock; [exact Hmu|]. exact HQ.
Qed.

(** Runs a body as far as the rules above go without being told what a
    pointer points to. *)
Arguments wp : simpl never.
Arguments bind : simpl never.

Ltac wp_run :=
  repeat (simpl;
    match goal with
    | |- wp (ret _) _ _ => apply wp_ret
    | |- wp (bind _ _) _ _ => apply wp_bind
    | |- wp (load _) _ _ => apply wp_load; [reflexivity|]
    | |- wp (store _) _ _ => apply wp_store; [reflexivity|]
    | |- wp (new_waiterNode _) _ _ => apply wp_new_waiterNode
    | |- wp Lock _ _ => apply wp_Lock; [assumption || reflexivity|]
    | |- wp Unlock _ _ => apply wp_Unlock; [reflexivity|]
    | |- wp (cond_Wait _) _ _ => apply wp_cond_Wait; [reflexivity|]
    | |- wp cond_Broadcast _ _ => apply wp_cond_Broadcast
    end); simpl.

(** ** What each path of the methods computes *)

Arguments wrap16 : simpl never.
Arguments wrap64 : simpl never.
Arguments Z.ltb : simpl never.
Arguments bytes.CombineTwoBytes : simpl never.

Ltac open_world σ :=
  let p := fresh "p" in
  destruct σ as [p ? ? ?]; destruct p; simpl in *; subst.

Lemma Reserve_pop σ id rest :
  mu (pool σ) = false -> stack (pool σ) = id :: rest ->
  Reserve σ
  = Ok (Issued {| Value := id |})
       (on_pool (λ p, set_stackSize (wrap64 (stackSize p - 1)) (set_stack rest p)) σ).
Proof. intros Hmu Hstk. open_world σ. reflexivity. Qed.

Lemma Reserve_mint σ :
  mu (pool σ) = false -> stack (pool σ) = [] ->
  maxIDReached (pool σ) < MaxSimultaneousRequest ->
  Reserve σ
  = Ok (Issued {| Value := wrap16 (maxIDReached (pool σ) + 1) |})
       (on_pool (λ p, set_maxIDReached (wrap16 (maxIDReached p + 1)) p) σ).
Proof.
  intros Hmu Hstk Hlt. apply Z.ltb_lt in Hlt. open_world σ.
  unfold Reserve, bind. simpl. rewrite Hlt. reflexivity.
Qed.

Lemma enqueue_lookup_new hd h :
  valid h hd ->
  enqueue hd h !! length h
  = Some {| value := 0; done := false; next := hd; previous := None |}.
Proof.
  intros Hv. unfold enqueue. destruct hd as [a|].
  - specialize (Hv a eq_refl).
    rewrite list_lookup_alter_ne by lia. apply list_lookup_middle. reflexivity.
  - apply list_lookup_middle. reflexivity.
Qed.

Lemma Reserve_park σ :
  mu (pool σ) = false -> stack (pool σ) = [] ->
  MaxSimultaneousRequest <= maxIDReached (pool σ) ->
  valid (heap σ) (waitList (pool σ)) ->
  Reserve σ = Ok (Suspended (length (heap σ))) (Reserve_parked σ).
Proof.
  intros Hmu Hstk Hge Hv. apply Z.ltb_ge in Hge. apply wp_eq.
  unfold Reserve. wp_run. rewrite Hstk. wp_run. rewrite Hge.
  wp_run. pose proof (enqueue_lookup_new _ _ Hv) as Hnew.
  destruct (waitList (pool σ)) as [hd|] eqn:Ehd.
  - specialize (Hv hd eq_refl).
    destruct (lookup_lt_is_Some_2 (heap σ) hd Hv) as [n Hn].
    wp_run. rewrite Ehd. wp_run.
    eapply wp_assign; [reflexivity| |].
    { simpl. rewrite lookup_app_l by exact Hv. exact Hn. }
    wp_run. unfold await. wp_run.
    eapply wp_deref; [reflexivity|exact Hnew|].
    wp_run. split; [reflexivity|].
    unfold Reserve_parked. rewrite Ehd. open_world σ. reflexivity.
  - wp_run. unfold await. wp_run.
    eapply wp_deref; [reflexivity|exact Hnew|].
    wp_run. split; [reflexivity|].
    unfold Reserve_parked. rewrite Ehd. open_world σ. reflexivity.
Qed.

Lemma Release_push σ b :
  mu (pool σ) = false -> waitList (pool σ) = None ->
  Release b σ
  = Ok () (on_pool (λ p, set_stackSize (wrap64 (stackSize p + 1))
                           (set_stack (bytes.CombineTwoBytes b :: stack p) p)) σ).
Proof. intros Hmu Hwl. open_world σ. reflexivity. Qed.

Lemma Release_hand σ b w :
  mu (pool σ) = false -> waitList (pool σ) = Some w ->
  (w < length (heap σ))%nat ->
  Release b σ = Ok () (Release_handed (bytes.CombineTwoBytes b) w σ).
Proof.
  intros Hmu Hwl Hw. destruct (lookup_lt_is_Some_2 _ _ Hw) as [n Hn].
  apply wp_eq. unfold Release. wp_run. rewrite Hwl.
  wp_run. eapply wp_deref; [reflexivity|exact Hn|].
  wp_run. eapply wp_assign; [reflexivity|exact Hn|].
  wp_run. eapply wp_assign; [reflexivity| |].
  { simpl. rewrite list_lookup_alter_eq, Hn. reflexivity. }
  wp_run. split; [reflexivity|].
  unfold Release_handed. rewrite Hn. open_world σ.
  unfold on_pool, on_heap, on_runnable; simpl.
  rewrite list_alter_alter_eq. reflexivity.
Qed.

Lemma Resume_repark σ w n :
  mu (pool σ) = false -> w ∈ runnable σ ->
  heap σ !! w = Some n -> done n = false ->
  Resume w σ
  = Ok (Suspended w)
       (on_pool (λ p, set_cond (cond p ++ [w]) p)
          (on_runnable (filter (λ a, a ≠ w)) σ)).
Proof.
  intros Hmu Hr Hn Hd. apply wp_eq. unfold Resume. wp_run.
  apply wp_cond_Wake; [assumption..|]. unfold await. wp_run.
  eapply wp_deref; [reflexivity|exact Hn|]. rewrite Hd.
  wp_run. split; [reflexivity|]. open_world σ. reflexivity.
Qed.

(** ** Leaving the queue *)

Lemma wp_seq {A B} (m : M A) (k : A -> M B) (Q1 : A -> world -> Prop) Q σ :
  wp m Q1 σ -> (∀ a σ1, Q1 a σ1 -> wp (k a) Q σ1) -> wp (bind m k) Q σ.
Proof.
  intros Hm Hk. apply wp_bind. revert Hm. apply wp_mono. exact Hk.
Qed.

Lemma payload_length h h' : payload h = payload h' -> length h = length h'.
Proof.
  intros Heq. apply (f_equal length) in Heq.
  unfold payload in Heq. rewrite !length_fmap in Heq. exact Heq.
Qed.

Lemma payload_lookup h h' a n :
  payload h' = payload h -> h !! a = Some n ->
  ∃ n', h' !! a = Some n' ∧ value n' = value n ∧ done n' = done n.
Proof.
  intros Heq Hn. apply (f_equal (λ l, l !! a)) in Heq.
  unfold payload in Heq. rewrite !list_lookup_fmap, Hn in Heq.
  destruct (h' !! a) as [n'|]; [|discriminate].
  exists n'. simpl in Heq. split; [reflexivity|]. split; congruence.
Qed.

Lemma payload_alter f a h :
  (∀ n, value (f n) = value n ∧ done (f n) = done n) ->
  payload (alter f a h) = payload h.
Proof.
  intros Hf. unfold payload.
  rewrite (list_fmap_alter _ f id).
  - apply list_alter_id. reflexivity.
  - apply Forall_forall. intros n _. destruct (Hf n) as [-> ->]. reflexivity.
Qed.

Lemma valid_length h h' p : length h' = length h -> valid h p -> valid h' p.
Proof. intros Hl Hv a Ha. rewrite Hl. apply Hv, Ha. Qed.

Lemma heap_closed_alter f a h :
  heap_closed h ->
  (∀ n, h !! a = Some n -> valid h (next (f n)) ∧ valid h (previous (f n))) ->
  heap_closed (alter f a h).
Proof.
  intros Hc Hf b n. rewrite list_lookup_alter. intros Hb.
  assert (valid h (next n) ∧ valid h (previous n)) as [Hx Hp].
  { destruct (decide (a = b)) as [->|Hne].
    - destruct (h !! b) as [m|] eqn:Em; [|discriminate].
      simpl in Hb. injection Hb as <-. apply Hf. reflexivity.
    - apply (Hc b), Hb. }
  split; eapply valid_length; try apply length_alter; assumption.
Qed.

Lemma relinked_refl σ : heap_closed (heap σ) -> relinked σ σ.
Proof. intros Hc. unfold relinked. split_and!; auto. Qed.

Lemma relinked_trans σ1 σ2 σ3 : relinked σ1 σ2 -> relinked σ2 σ3 -> relinked σ1 σ3.
Proof.
  intros (Hp & Hl & Hc & Hr & Hu) (Hp' & Hl' & Hc' & Hr' & Hu').
  unfold relinked. split_and!; try congruence. exact Hc'.
Qed.

Lemma relinked_next σ a x :
  heap_closed (heap σ) -> valid (heap σ) x ->
  relinked σ (on_heap (alter (set_next x) a) σ).
Proof.
  intros Hc Hx. unfold relinked. split_and!; simpl; try reflexivity.
  - apply payload_alter. intros n. split; reflexivity.
  - apply heap_closed_alter; [exact Hc|]. intros n Hn. simpl.
    split; [exact Hx|]. apply (Hc a n Hn).
Qed.

Lemma relinked_previous σ a x :
  heap_closed (heap σ) -> valid (heap σ) x ->
  relinked σ (on_heap (alter (set_previous x) a) σ).
Proof.
  intros Hc Hx. unfold relinked. split_and!; simpl; try reflexivity.
  - apply payload_alter. intros n. split; reflexivity.
  - apply heap_closed_alter; [exact Hc|]. intros n Hn. simpl.
    split; [|exact Hx]. apply (Hc a n Hn).
Qed.

Lemma on_heap_ext f g σ : f (heap σ) = g (heap σ) -> on_heap f σ = on_heap g σ.
Proof. unfold on_heap. intros ->. reflexivity. Qed.

Lemma on_heap_id f σ : f (heap σ) = heap σ -> on_heap f σ = σ.
Proof. unfold on_heap. intros ->. destruct σ. reflexivity. Qed.

(** The two conditional pointer updates of lines 118-123. *)
Lemma wp_unlink_previous σ w n :
  mu (pool σ) = true -> heap_closed (heap σ) -> heap σ !! w = Some n ->
  wp (match previous n with
      | Some pv => n' <- deref w ;; assign pv (set_next (next n'))
      | None => ret ()
      end)
     (λ _ σ', σ' = on_heap (unlink_previous w) σ) σ.
Proof.
  intros Hmu Hc Hn. destruct (Hc w n Hn) as [_ Hp].
  destruct (previous n) as [pv|] eqn:Epv.
  - specialize (Hp pv eq_refl).
    destruct (lookup_lt_is_Some_2 _ _ Hp) as [m Hm].
    apply wp_bind. eapply wp_deref; [assumption|exact Hn|].
    eapply wp_assign; [assumption|exact Hm|].
    apply on_heap_ext. unfold unlink_previous. rewrite Hn, Epv. reflexivity.
  - apply wp_ret. symmetry. apply on_heap_id.
    unfold unlink_previous. rewrite Hn, Epv. reflexivity.
Qed.

Lemma wp_unlink_next σ w n :
  mu (pool σ) = true -> heap_closed (heap σ) -> heap σ !! w = Some n ->
  wp (match next n with
      | Some nx => n' <- deref w ;; assign nx (set_previous (previous n'))
      | None => ret ()
      end)
     (λ _ σ', σ' = on_heap (unlink_next w) σ) σ.
Proof.
  intros Hmu Hc Hn. destruct (Hc w n Hn) as [Hx _].
  destruct (next n) as [nx|] eqn:Enx.
  - specialize (Hx nx eq_refl).
    destruct (lookup_lt_is_Some_2 _ _ Hx) as [m Hm].
    apply wp_bind. eapply wp_deref; [assumption|exact Hn|].
    eapply wp_assign; [assumption|exact Hm|].
    apply on_heap_ext. unfold unlink_next. rewrite Hn, Enx. reflexivity.
  - apply wp_ret. symmetry. apply on_heap_id.
    unfold unlink_next. rewrite Hn, Enx. reflexivity.
Qed.

Lemma relinked_unlink_previous σ w :
  heap_closed (heap σ) -> relinked σ (on_heap (unlink_previous w) σ).
Proof.
  intros Hc. destruct (heap σ !! w) as [n|] eqn:Hn.
  - destruct (previous n) as [pv|] eqn:Epv.
    + rewrite (on_heap_ext _ (alter (set_next (next n)) pv)).
      * apply relinked_next; [exact Hc|]. apply (Hc w n Hn).
      * unfold unlink_previous. rewrite Hn, Epv. reflexivity.
    + rewrite on_heap_id; [apply relinked_refl, Hc|].
      unfold unlink_previous. rewrite Hn, Epv. reflexivity.
  - rewrite on_heap_id; [apply relinked_refl, Hc|].
    unfold unlink_previous. rewrite Hn. reflexivity.
Qed.

Lemma relinked_unlink_next σ w :
  heap_closed (heap σ) -> relinked σ (on_heap (unlink_next w) σ).
Proof.
  intros Hc. destruct (heap σ !! w) as [n|] eqn:Hn.
  - destruct (next n) as [nx|] eqn:Enx.
    + rewrite (on_heap_ext _ (alter (set_previous (previous n)) nx)).
      * apply relinked_previous; [exact Hc|]. apply (Hc w n Hn).
      * unfold unlink_next. rewrite Hn, Enx. reflexivity.
    + rewrite on_heap_id; [apply relinked_refl, Hc|].
      unfold unlink_next. rewrite Hn, Enx. reflexivity.
  - rewrite on_heap_id; [apply relinked_refl, Hc|].
    unfold unlink_next. rewrite Hn. reflexivity.
Qed.

Lemma relinked_unlink σ w :
  heap_closed (heap σ) -> relinked σ (on_heap (unlink w) σ).
Proof.
  intros Hc. pose proof (relinked_unlink_previous σ w Hc) as H1.
  apply (relinked_trans _ _ _ H1).
  apply (relinked_unlink_next (on_heap (unlink_previous w) σ) w), H1.
Qed.

Lemma wp_leave_queue σ w n :
  mu (pool σ) = true -> heap_closed (heap σ) -> heap σ !! w = Some n ->
  wp (leave_queue w)
     (λ id σ', id = {| Value := value n |} ∧
               σ' = on_pool (set_waitListSize (wrap64 (waitListSize (pool σ) - 1)))
                      (on_heap (unlink w) σ))
     σ.
Proof.
  intros Hmu Hc Hn. unfold leave_queue.
  apply wp_bind. eapply wp_deref; [assumption|exact Hn|].
  eapply wp_seq; [apply (wp_unlink_previous σ w n); assumption|].
  intros _ σ1 ->. cbv beta.
  pose proof (relinked_unlink_previous σ w Hc) as H1.
  destruct (payload_lookup _ _ _ _ (proj1 (proj2 H1)) Hn) as (n1 & Hn1 & Hv1 & _).
  apply wp_bind. eapply wp_deref; [assumption|exact Hn1|].
  eapply wp_seq;
    [apply (wp_unlink_next _ w n1); [assumption|apply H1|assumption]|].
  intros _ σ2 ->. cbv beta.
  pose proof (relinked_unlink σ w Hc) as H2.
  destruct (payload_lookup _ _ _ _ (proj1 (proj2 H2)) Hn) as (n2 & Hn2 & Hv2 & _).
  apply wp_bind, wp_load; [assumption|].
  apply wp_bind, wp_store; [assumption|].
  apply wp_bind. eapply wp_deref; [assumption|exact Hn2|].
  apply wp_ret. split; [congruence|]. reflexivity.
Qed.

Lemma Resume_granted σ w n :
  mu (pool σ) = false -> heap_closed (heap σ) -> w ∈ runnable σ ->
  heap σ !! w = Some n -> done n = true ->
  Resume w σ = Ok (Issued {| Value := value n |}) (Resume_returned w σ).
Proof.
  intros Hmu Hc Hr Hn Hd. apply wp_eq.
  unfold Resume. apply wp_bind. apply wp_cond_Wake; [assumption..|].
  unfold await. apply wp_bind. eapply wp_deref; [reflexivity|exact Hn|].
  rewrite Hd.
  eapply wp_seq; [apply (wp_leave_queue _ w n); [reflexivity|exact Hc|exact Hn]|].
  intros id σ1 [-> ->]. cbv beta.
  apply wp_bind, wp_Unlock; [reflexivity|]. apply wp_ret.
  split; [reflexivity|]. unfold Resume_returned. open_world σ. reflexivity.
Qed.

Lemma relinked_returned σ w :
  heap_closed (heap σ) ->
  relinked (on_pool (set_waitListSize (wrap64 (waitListSize (pool σ) - 1)))
              (on_runnable (filter (λ a, a ≠ w)) σ))
           (Resume_returned w σ).
Proof.
  intros Hc. destruct (relinked_unlink σ w Hc) as (_ & Hpay & Hc' & _).
  unfold relinked. split_and!; try reflexivity; assumption.
Qed.

(** ** Every step follows one of the paths *)

Lemma Resume_not_runnable σ w : w ∉ runnable σ -> Resume w σ = Stuck NotRunnable.
Proof.
  intros Hn. unfold Resume, cond_Wake, bind.
  destruct (decide (w ∈ runnable σ)); [contradiction|reflexivity].
Qed.

Lemma closed_parked σ a : closed σ -> a ∈ parked σ -> is_Some (heap σ !! a).
Proof. intros (_ & _ & Hp) Ha. apply lookup_lt_is_Some_2, Hp, Ha. Qed.

Lemma exec_path σ c e σ' :
  mu (pool σ) = false -> closed σ -> exec c σ = Ok e σ' -> path σ e σ'.
Proof.
  intros Hmu Hcl Hex. destruct c as [|w|b]; unfold exec, bind in Hex.
  - destruct (stack (pool σ)) as [|id rest] eqn:Hstk.
    + destruct (Z.lt_ge_cases (maxIDReached (pool σ)) MaxSimultaneousRequest)
        as [Hlt|Hge].
      * rewrite (Reserve_mint σ Hmu Hstk Hlt) in Hex.
        injection Hex as <- <-. apply path_mint; assumption.
      * rewrite (Reserve_park σ Hmu Hstk Hge (proj1 Hcl)) in Hex.
        injection Hex as <- <-. apply path_park; assumption.
    + rewrite (Reserve_pop σ id rest Hmu Hstk) in Hex.
      injection Hex as <- <-. apply path_pop; assumption.
  - destruct (decide (w ∈ runnable σ)) as [Hr|Hn].
    + destruct (closed_parked σ w Hcl) as [n Hw].
      { apply elem_of_app. right. exact Hr. }
      destruct (done n) eqn:Hd.
      * rewrite (Resume_granted σ w n Hmu (proj1 (proj2 Hcl)) Hr Hw Hd) in Hex.
        injection Hex as <- <-. apply path_granted; assumption.
      * rewrite (Resume_repark σ w n Hmu Hr Hw Hd) in Hex.
        injection Hex as <- <-. eapply path_repark; eassumption.
    + rewrite (Resume_not_runnable σ w Hn) in Hex. discriminate.
  - destruct (waitList (pool σ)) as [w|] eqn:Hwl.
    + rewrite (Release_hand σ b w Hmu Hwl) in Hex.
      * injection Hex as <- <-. apply path_hand; assumption.
      * apply (proj1 Hcl). exact Hwl.
    + rewrite (Release_push σ b Hmu Hwl) in Hex.
      injection Hex as <- <-. apply path_push; assumption.
Qed.

(** No call panics or deadlocks: from a settled state [Reserve] and
    [Release] always take their step, and so does a woken waiter. *)
Lemma exec_total σ c :
  mu (pool σ) = false -> closed σ ->
  (∀ w, c = Call_Resume w -> w ∈ runnable σ) ->
  ∃ e σ', exec c σ = Ok e σ'.
Proof.
  intros Hmu Hcl Hrun. destruct c as [|w|b]; unfold exec, bind.
  - destruct (stack (pool σ)) as [|id rest] eqn:Hstk.
    + destruct (Z.lt_ge_cases (maxIDReached (pool σ)) MaxSimultaneousRequest)
        as [Hlt|Hge].
      * rewrite (Reserve_mint σ Hmu Hstk Hlt). eauto.
      * rewrite (Reserve_park σ Hmu Hstk Hge (proj1 Hcl)). eauto.
    + rewrite (Reserve_pop σ id rest Hmu Hstk). eauto.
  - specialize (Hrun w eq_refl).
    destruct (closed_parked σ w Hcl) as [n Hw].
    { apply elem_of_app. right. exact Hrun. }
    destruct (done n) eqn:Hd.
    + rewrite (Resume_granted σ w n Hmu (proj1 (proj2 Hcl)) Hrun Hw Hd). eauto.
    + rewrite (Resume_repark σ w n Hmu Hrun Hw Hd). eauto.
  - destruct (waitList (pool σ)) as [w|] eqn:Hwl.
    + rewrite (Release_hand σ b w Hmu Hwl).
      * eauto.
      * apply (proj1 Hcl). exact Hwl.
    + rewrite (Release_push σ b Hmu Hwl). eauto.
Qed.

(** ** The settled states *)

Lemma wrap16_small z : 0 <= z <= 65535 -> wrap16 z = z.
Proof. intros Hz. unfold wrap16. apply Z.mod_small. lia. Qed.

Lemma valid_app h k p : valid h p -> valid (h ++ k) p.
Proof. intros Hv a Ha. rewrite length_app. specialize (Hv a Ha). lia. Qed.

Lemma enqueue_length hd h : length (enqueue hd h) = S (length h).
Proof.
  unfold enqueue. destruct hd; rewrite ?length_alter, length_app; simpl; lia.
Qed.

Lemma heap_closed_enqueue hd h :
  heap_closed h -> valid h hd -> heap_closed (enqueue hd h).
Proof.
  intros Hc Hv.
  set (w := {| value := 0; done := false; next := hd; previous := None |}).
  assert (heap_closed (h ++ [w])) as Hc'.
  { intros a n Ha. apply lookup_app_Some in Ha as [Ha|[_ Ha]].
    - destruct (Hc a n Ha). split; apply valid_app; assumption.
    - apply list_lookup_singleton_Some in Ha as [_ <-]. simpl.
      split; [apply valid_app, Hv|]. intros ? [=]. }
  unfold enqueue. fold w. destruct hd as [a|]; [|exact Hc'].
  apply heap_closed_alter; [exact Hc'|].
  intros n Hn. simpl. split; [apply (Hc' a n Hn)|].
  intros ? [= <-]. rewrite length_app. simpl. lia.
Qed.

Lemma payload_enqueue hd h : payload (enqueue hd h) = payload h ++ [(0, false)].
Proof.
  unfold enqueue. destruct hd as [a|].
  - rewrite payload_alter by (intros n; split; reflexivity).
    unfold payload. rewrite fmap_app. reflexivity.
  - unfold payload. rewrite fmap_app. reflexivity.
Qed.

Lemma filter_ne_perm (l : list nat) w :
  NoDup l -> w ∈ l -> l ≡ₚ w :: filter (λ a, a ≠ w) l.
Proof.
  intros Hnd Hw. apply NoDup_Permutation.
  - exact Hnd.
  - apply NoDup_cons. split; [|apply NoDup_filter, Hnd].
    rewrite list_elem_of_filter. intros [Hne _]. apply Hne. reflexivity.
  - intros x. rewrite elem_of_cons, list_elem_of_filter.
    destruct (decide (x = w)) as [->|Hne]; tauto.
Qed.

Lemma parked_repark σ w :
  NoDup (parked σ) -> w ∈ runnable σ ->
  (cond (pool σ) ++ [w]) ++ filter (λ a, a ≠ w) (runnable σ) ≡ₚ parked σ.
Proof.
  intros Hnd Hw. unfold parked in *. apply NoDup_app in Hnd as (_ & _ & Hr).
  rewrite (filter_ne_perm (runnable σ) w Hr Hw) at 2.
  rewrite <- app_assoc. simpl. reflexivity.
Qed.

Lemma parked_granted σ w :
  NoDup (parked σ) -> w ∈ runnable σ ->
  parked σ ≡ₚ w :: cond (pool σ) ++ filter (λ a, a ≠ w) (runnable σ).
Proof.
  intros Hnd Hw. unfold parked in *. apply NoDup_app in Hnd as (_ & _ & Hr).
  rewrite (filter_ne_perm (runnable σ) w Hr Hw) at 1.
  symmetry. apply Permutation_middle.
Qed.

Lemma settled_New : settled New.
Proof.
  unfold settled, closed, New; simpl. split_and!; try done.
  - intros a Ha. apply elem_of_nil in Ha as [].
  - apply NoDup_nil_2.
Qed.

Lemma settled_path σ e σ' : settled σ -> path σ e σ' -> settled σ'.
Proof.
  intros (Hmu & (Hwl & Hc & Hp) & Hnd & Hmax) Hpath.
  unfold MaxSimultaneousRequest in *.
  destruct Hpath as [σ id rest Hstk|σ Hstk Hlt|σ Hstk Hge|σ w n Hr Hw Hd
                    |σ w n Hr Hw Hd|σ b Hnil|σ b w Hhd].
  - unfold settled, closed, parked, MaxSimultaneousRequest in *; simpl. split_and!; try assumption; lia.
  - unfold settled, closed, parked, MaxSimultaneousRequest in *; simpl.
    rewrite wrap16_small by lia. split_and!; try assumption; lia.
  - unfold settled, closed, parked, MaxSimultaneousRequest in *; simpl.
    split_and!; try assumption; try lia.
    + intros a [= <-]. rewrite enqueue_length. lia.
    + apply heap_closed_enqueue; assumption.
    + intros a Ha. rewrite enqueue_length. rewrite <- app_assoc in Ha.
      apply elem_of_app in Ha as [Ha|Ha].
      * assert (a < length (heap σ))%nat; [apply Hp, elem_of_app; auto|lia].
      * apply elem_of_cons in Ha as [->|Ha]; [lia|].
        assert (a < length (heap σ))%nat; [apply Hp, elem_of_app; auto|lia].
    + rewrite <- app_assoc. simpl.
      apply NoDup_app in Hnd as (Hc1 & Hc2 & Hc3).
      apply NoDup_app. split_and!; [exact Hc1| |].
      * intros x Hx Hx'. apply elem_of_cons in Hx' as [->|Hx'].
        -- assert (length (heap σ) < length (heap σ))%nat; [|lia].
           apply Hp, elem_of_app. auto.
        -- apply (Hc2 x); assumption.
      * apply NoDup_cons. split; [|exact Hc3]. intros Hx.
        assert (length (heap σ) < length (heap σ))%nat; [|lia].
        apply Hp, elem_of_app. auto.
  - pose proof (parked_repark σ w Hnd Hr) as Hperm.
    unfold settled, closed, MaxSimultaneousRequest; simpl. split_and!; try assumption; try lia.
    + intros a Ha. apply Hp. unfold parked in Ha; simpl in Ha.
      rewrite Hperm in Ha. exact Ha.
    + unfold parked; simpl. rewrite Hperm. exact Hnd.
  - pose proof (relinked_returned σ w Hc) as Hrel. revert Hrel.
    generalize (Resume_returned w σ). intros σ' Hrel.
    destruct Hrel as (Hpool & Hpay & Hc' & Hrun & _). simpl in *.
    pose proof (payload_length _ _ Hpay) as Hlen.
    pose proof (parked_granted σ w Hnd Hr) as Hperm.
    assert (parked σ' = cond (pool σ) ++ filter (λ a, a ≠ w) (runnable σ)) as Hpk.
    { unfold parked. rewrite Hpool, Hrun. reflexivity. }
    unfold settled, closed, MaxSimultaneousRequest. rewrite Hpool, Hpk. simpl.
    split_and!; try assumption; try lia.
    + eapply valid_length; [exact Hlen|exact Hwl].
    + intros a Ha. rewrite Hlen. apply Hp. rewrite Hperm. apply elem_of_cons. auto.
    + rewrite Hperm in Hnd. apply NoDup_cons in Hnd as [_ Hnd]. exact Hnd.
  - unfold settled, closed, parked, MaxSimultaneousRequest in *; simpl. split_and!; try assumption; lia.
  - unfold settled, closed, parked, Release_handed, MaxSimultaneousRequest in *; simpl.
    split_and!; try assumption; try lia.
    + intros a Ha. rewrite length_alter.
      destruct (heap σ !! w) as [n|] eqn:Hw; [|discriminate].
      simpl in Ha. apply (proj1 (Hc w n Hw)). exact Ha.
    + apply heap_closed_alter; [exact Hc|]. intros n Hn. simpl. apply (Hc w n Hn).
    + intros a Ha. rewrite length_alter. apply Hp. rewrite elem_of_app in *. tauto.
    + rewrite (comm (++)). exact Hnd.
Qed.

Lemma reachable_settled σ : reachable σ -> settled σ.
Proof.
  induction 1 as [|σ c e σ' _ IH Hex]; [apply settled_New|].
  apply (settled_path σ e); [exact IH|].
  apply (exec_path σ c); [apply IH..|exact Hex].
Qed.

(** ** Identifiers in circulation *)

Lemma submseteq_NoDup {X} (l k : list X) : l ⊆+ k -> NoDup k -> NoDup l.
Proof.
  intros Hsub Hnd. apply submseteq_Permutation in Hsub as [k' Hk].
  rewrite Hk in Hnd. apply NoDup_app in Hnd. apply Hnd.
Qed.

Lemma bind_ext_in {X Y} (f g : X -> list Y) (l : list X) :
  (∀ x, x ∈ l -> f x = g x) -> (l ≫= f) = (l ≫= g).
Proof.
  induction l as [|x l IH]; intros Hfg; [reflexivity|].
  rewrite !bind_cons, Hfg, IH; [reflexivity| |apply elem_of_cons; auto].
  intros y Hy. apply Hfg, elem_of_cons. auto.
Qed.

Lemma granted_payload h a :
  granted h a = match payload h !! a with
                | Some (v, true) => [v]
                | _ => []
                end.
Proof.
  unfold granted, payload. rewrite list_lookup_fmap.
  destruct (h !! a) as [n|]; [|reflexivity]. simpl.
  destruct (done n); reflexivity.
Qed.

Lemma granted_same_payload h h' a :
  payload h' = payload h -> granted h' a = granted h a.
Proof. intros Heq. rewrite !granted_payload, Heq. reflexivity. Qed.

Lemma pending_relinked σ σ' : relinked σ σ' -> pending σ' = pending σ.
Proof.
  intros (Hp & Hpay & _ & Hr & _). unfold pending, parked. rewrite Hp, Hr.
  apply bind_ext_in. intros a _. apply granted_same_payload, Hpay.
Qed.

Lemma granted_enqueue_old hd h a :
  (a < length h)%nat -> granted (enqueue hd h) a = granted h a.
Proof.
  intros Ha. rewrite !granted_payload, payload_enqueue.
  rewrite lookup_app_l; [reflexivity|].
  unfold payload. rewrite length_fmap. exact Ha.
Qed.

Lemma granted_enqueue_new hd h : granted (enqueue hd h) (length h) = [].
Proof.
  rewrite granted_payload, payload_enqueue.
  rewrite list_lookup_middle; [reflexivity|].
  unfold payload. rewrite length_fmap. reflexivity.
Qed.

Lemma pending_park σ : closed σ -> pending (Reserve_parked σ) = pending σ.
Proof.
  intros (_ & _ & Hp). unfold pending, parked. simpl.
  rewrite !bind_app, bind_cons, granted_enqueue_new. simpl.
  assert (∀ l, (∀ a, a ∈ l -> a ∈ parked σ) ->
               (l ≫= granted (enqueue (waitList (pool σ)) (heap σ)))
               = (l ≫= granted (heap σ))) as Hext.
  { intros l Hl. apply bind_ext_in. intros a Ha.
    apply granted_enqueue_old, Hp, Hl, Ha. }
  rewrite !Hext; [rewrite app_nil_r; reflexivity|..];
    intros a Ha; apply elem_of_app; auto.
Qed.

(** A hand-over writes one waiter: it adds the released identifier to
    the pending ones, and nothing else. *)
Lemma granted_hand id w h a :
  a ≠ w -> granted (alter (λ n, set_done true (set_value id n)) w h) a = granted h a.
Proof. intros Hne. unfold granted. rewrite list_lookup_alter_ne by auto. reflexivity. Qed.

Lemma bind_granted_hand id w h (l : list nat) :
  NoDup l ->
  (l ≫= granted (alter (λ n, set_done true (set_value id n)) w h))
    ⊆+ id :: (l ≫= granted h).
Proof.
  induction l as [|a l IH]; intros Hnd.
  - simpl. apply submseteq_nil_l.
  - apply NoDup_cons in Hnd as [Ha Hnd]. rewrite !bind_cons.
    destruct (decide (a = w)) as [->|Hne].
    + rewrite (bind_ext_in _ (granted h) l).
      * assert (granted (alter (λ n, set_done true (set_value id n)) w h) w
                  ⊆+ [id]) as Hw.
        { unfold granted. rewrite list_lookup_alter_eq.
          destruct (h !! w); simpl; [reflexivity|apply submseteq_nil_l]. }
        change (id :: granted h w ++ (l ≫= granted h))
          with ([id] ++ granted h w ++ (l ≫= granted h)).
        apply submseteq_app; [exact Hw|]. apply submseteq_inserts_l. reflexivity.
      * intros x Hx. apply granted_hand. intros ->. contradiction.
    + rewrite granted_hand by exact Hne.
      rewrite (Permutation_middle (granted h a) (l ≫= granted h) id).
      apply submseteq_skips_l, IH, Hnd.
Qed.

Lemma pending_hand id w σ :
  NoDup (parked σ) -> pending (Release_handed id w σ) ⊆+ id :: pending σ.
Proof.
  intros Hnd. unfold pending, parked. simpl.
  assert (runnable σ ++ cond (pool σ) ≡ₚ parked σ) as Hperm.
  { unfold parked. apply Permutation_app_comm. }
  rewrite Hperm. apply bind_granted_hand, Hnd.
Qed.

Lemma accounted_path σ e σ' held held' :
  settled σ -> accounted σ held -> path σ e σ' -> hands e held held' ->
  accounted σ' held'.
Proof.
  intros Hset [Hnd Hbd] Hpath Hh.
  assert (∀ k,
            k ⊆+ circulating σ held ->
            maxIDReached (pool σ') = maxIDReached (pool σ) ->
            NoDup k ∧ ∀ x, x ∈ k -> 1 <= x <= maxIDReached (pool σ')) as Hsub.
  { intros k Hk Hm. split.
    - eapply submseteq_NoDup; eassumption.
    - intros x Hx. rewrite Hm. apply Hbd. eapply elem_of_submseteq; eassumption. }
  destruct Hset as (Hmu & Hcl & Hpk & Hmax).
  unfold accounted, circulating in *.
  destruct Hpath as [σ id rest Hstk|σ Hstk Hlt|σ Hstk Hge|σ w n Hr Hw Hd
                    |σ w n Hr Hw Hd|σ b Hnil|σ b w Hhd];
    simpl in Hh.
  - subst held'. apply Hsub; [|reflexivity].
    rewrite Hstk. simpl. rewrite <- Permutation_middle. reflexivity.
  - subst held'. unfold MaxSimultaneousRequest in *. simpl.
    rewrite wrap16_small by lia. split.
    + apply NoDup_cons. split; [|exact Hnd].
      intros Hin. specialize (Hbd _ Hin). lia.
    + intros x Hx. apply elem_of_cons in Hx as [->|Hx]; [lia|].
      specialize (Hbd _ Hx). lia.
  - subst held'. apply Hsub; [|reflexivity].
    rewrite (pending_park σ Hcl). reflexivity.
  - subst held'. apply Hsub; [|reflexivity].
    unfold pending at 1, parked at 1. simpl.
    rewrite (parked_repark σ w Hpk Hr). reflexivity.
  - subst held'.
    pose proof (relinked_returned σ w (proj1 (proj2 Hcl))) as Hrel.
    revert Hsub Hrel. generalize (Resume_returned w σ). intros σ' Hsub Hrel.
    pose proof (pending_relinked _ _ Hrel) as Hpe.
    destruct Hrel as (Hpool & _). simpl in Hpool.
    apply Hsub; [|rewrite Hpool; reflexivity].
    rewrite Hpe, Hpool. simpl.
    unfold pending at 2. rewrite (parked_granted σ w Hpk Hr), bind_cons.
    assert (granted (heap σ) w = [value n]) as ->.
    { unfold granted. rewrite Hw, Hd. reflexivity. }
    unfold pending, parked. simpl.
    rewrite <- !Permutation_middle. reflexivity.
  - destruct Hh as (h1 & h2 & -> & ->). apply Hsub; [|reflexivity].
    simpl. rewrite <- !app_assoc. simpl.
    rewrite <- !Permutation_middle. reflexivity.
  - destruct Hh as (h1 & h2 & -> & ->). apply Hsub; [|reflexivity].
    simpl. transitivity ((h1 ++ h2) ++ stack (pool σ)
                           ++ bytes.CombineTwoBytes b :: pending σ).
    + do 2 apply submseteq_skips_l. apply pending_hand, Hpk.
    + rewrite <- !app_assoc. simpl.
      rewrite <- !Permutation_middle. reflexivity.
Qed.

Lemma wellbehaved_settled σ held : wellbehaved σ held -> settled σ.
Proof.
  induction 1 as [|σ held c e σ' held' _ IH Hex _]; [apply settled_New|].
  apply (settled_path σ e); [exact IH|].
  apply (exec_path σ c); [apply IH..|exact Hex].
Qed.

Lemma wellbehaved_accounted σ held : wellbehaved σ held -> accounted σ held.
Proof.
  induction 1 as [|σ held c e σ' held' Hwb IH Hex Hh].
  - split; [apply NoDup_nil_2|]. intros x Hx. apply elem_of_nil in Hx as [].
  - pose proof (wellbehaved_settled _ _ Hwb) as Hset.
    apply (accounted_path σ e σ' held held'); try assumption.
    apply (exec_path σ c); [apply Hset..|exact Hex].
Qed.

(** ** Structure exclusion *)

Lemma exclusive_path σ e σ' : exclusive σ -> path σ e σ' -> exclusive σ'.
Proof.
  intros Hex Hpath. unfold exclusive in *.
  destruct Hpath as [σ id rest Hstk|σ Hstk Hlt|σ Hstk Hge|σ w n Hr Hw Hd
                    |σ w n Hr Hw Hd|σ b Hnil|σ b w Hhd]; simpl.
  - right. destruct Hex as [Hex|Hex]; congruence.
  - exact Hex.
  - left. exact Hstk.
  - exact Hex.
  - exact Hex.
  - right. exact Hnil.
  - left. destruct Hex as [Hex|Hex]; congruence.
Qed.

Lemma reachable_exclusive σ : reachable σ -> exclusive σ.
Proof.
  induction 1 as [|σ c e σ' Hre IH Hex]; [left; reflexivity|].
  apply (exclusive_path σ e); [exact IH|].
  pose proof (reachable_settled σ Hre) as Hset.
  apply (exec_path σ c); [apply Hset..|exact Hex].
Qed.

(** ** Runs *)

Lemma run_cons c cs σ e σ1 es σ2 :
  exec c σ = Ok e σ1 -> run cs σ1 = Ok es σ2 ->
  run (c :: cs) σ = Ok (e :: es) σ2.
Proof. intros H1 H2. simpl. unfold bind. rewrite H1, H2. reflexivity. Qed.

Lemma run_cons_inv c cs σ es σ2 :
  run (c :: cs) σ = Ok es σ2 ->
  ∃ e σ1 es', exec c σ = Ok e σ1 ∧ run cs σ1 = Ok es' σ2 ∧ es = e :: es'.
Proof.
  simpl. unfold bind at 1. destruct (exec c σ) as [e σ1|]; [|discriminate].
  unfold bind at 1. destruct (run cs σ1) as [es' σ2'|] eqn:Hrun; [|discriminate].
  unfold ret. intros [= <- <-]. exists e, σ1, es'. auto.
Qed.

Lemma exec_Reserve σ o σ' :
  Reserve σ = Ok o σ' -> exec Call_Reserve σ = Ok (Ev_Reserve o) σ'.
Proof. intros H. unfold exec, bind. rewrite H. reflexivity. Qed.

Lemma exec_Resume σ w o σ' :
  Resume w σ = Ok o σ' -> exec (Call_Resume w) σ = Ok (Ev_Resume w o) σ'.
Proof. intros H. unfold exec, bind. rewrite H. reflexivity. Qed.

Lemma exec_Release σ b σ' :
  Release b σ = Ok () σ' -> exec (Call_Release b) σ = Ok (Ev_Release b) σ'.
Proof. intros H. unfold exec, bind. rewrite H. reflexivity. Qed.

(** ** Minting *)

Lemma Reserve_mint_next σ :
  mu (pool σ) = false -> stack (pool σ) = [] ->
  0 <= maxIDReached (pool σ) < MaxSimultaneousRequest ->
  Reserve σ
  = Ok (Issued {| Value := maxIDReached (pool σ) + 1 |})
       (on_pool (set_maxIDReached (maxIDReached (pool σ) + 1)) σ).
Proof.
  intros Hmu Hstk Hm. rewrite (Reserve_mint σ Hmu Hstk (proj2 Hm)).
  unfold MaxSimultaneousRequest in Hm. unfold on_pool. cbv beta.
  rewrite wrap16_small by lia. reflexivity.
Qed.

Lemma run_mint (n : nat) σ :
  mu (pool σ) = false -> stack (pool σ) = [] ->
  0 <= maxIDReached (pool σ) ->
  maxIDReached (pool σ) + Z.of_nat n <= MaxSimultaneousRequest ->
  run (replicate n Call_Reserve) σ
  = Ok ((λ i, Ev_Reserve (Issued {| Value := i |}))
          <$> seqZ (maxIDReached (pool σ) + 1) (Z.of_nat n))
       (on_pool (set_maxIDReached (maxIDReached (pool σ) + Z.of_nat n)) σ).
Proof.
  revert σ. unfold MaxSimultaneousRequest.
  induction n as [|n IH]; intros σ Hmu Hstk H0 Hn.
  - simpl. rewrite Z.add_0_r. open_world σ. reflexivity.
  - rewrite seqZ_cons by lia. rewrite fmap_cons.
    simpl replicate. eapply run_cons.
    + apply exec_Reserve, Reserve_mint_next; [assumption..|].
      unfold MaxSimultaneousRequest. lia.
    + rewrite IH; simpl; try assumption; try lia.
      replace (Z.pred (Z.of_nat (S n))) with (Z.of_nat n) by lia.
      replace (Z.succ (maxIDReached (pool σ) + 1))
        with (maxIDReached (pool σ) + 1 + 1) by lia.
      replace (maxIDReached (pool σ) + 1 + Z.of_nat n)
        with (maxIDReached (pool σ) + Z.of_nat (S n)) by lia.
      open_world σ. reflexivity.
Qed.

(** ** Exhaustion without releases *)

Lemma starved_path σ e σ' :
  starved σ -> path σ e σ' -> (∀ b, e ≠ Ev_Release b) ->
  starved σ' ∧ issued e = None.
Proof.
  intros (Hstk & Hmax & Hdone) Hpath Hrel. unfold starved.
  destruct Hpath as [σ id rest Hstk'|σ Hstk' Hlt|σ Hstk' Hge|σ w n Hr Hw Hd
                    |σ w n Hr Hw Hd|σ b Hnil|σ b w Hhd]; simpl.
  - congruence.
  - lia.
  - split_and!; try done.
    unfold enqueue.
    assert (Forall (λ n, done n = false)
              (heap σ ++ [{| value := 0; done := false;
                             next := waitList (pool σ); previous := None |}]))
      as Happ.
    { apply Forall_app. split; [exact Hdone|]. apply Forall_singleton. reflexivity. }
    destruct (waitList (pool σ)) as [a|]; [|exact Happ].
    apply Forall_alter; [exact Happ|]. intros n _ Hn. exact Hn.
  - split_and!; done.
  - rewrite Forall_lookup in Hdone. specialize (Hdone w n Hw). simpl in Hdone.
    congruence.
  - destruct (Hrel b). reflexivity.
  - destruct (Hrel b). reflexivity.
Qed.

Lemma starved_run cs : ∀ σ es σ',
  settled σ -> starved σ -> (∀ b, Call_Release b ∉ cs) ->
  run cs σ = Ok es σ' -> Forall (λ e, issued e = None) es.
Proof.
  induction cs as [|c cs IH]; intros σ es σ' Hset Hst Hrel Hrun.
  - injection Hrun as <- <-. apply Forall_nil_2.
  - apply run_cons_inv in Hrun as (e & σ1 & es' & Hex & Hrun & ->).
    pose proof (exec_path σ c e σ1 (proj1 Hset) (proj1 (proj2 Hset)) Hex) as Hp.
    destruct (starved_path σ e σ1 Hst Hp) as [Hst1 He].
    { intros b ->. apply (Hrel b). destruct c; simpl in Hex; unfold bind in Hex.
      - destruct (Reserve σ); discriminate.
      - destruct (Resume w σ); discriminate.
      - destruct (Release packetIDBytes σ); [|discriminate].
        injection Hex as <- _. apply elem_of_cons. auto. }
    apply Forall_cons. split; [exact He|].
    apply (IH σ1 es' σ'); try assumption.
    + apply (settled_path σ e); assumption.
    + intros b Hb. apply (Hrel b), elem_of_cons. auto.
Qed.

Lemma settled_minted n : 0 <= n <= MaxSimultaneousRequest -> settled (minted n).
Proof.
  intros Hn. destruct settled_New as (Hmu & Hcl & Hnd & _).
  unfold settled. split_and!; try assumption; simpl; lia.
Qed.

(** ** The waiter queue *)

Lemma chain_ext h h' p q :
  (∀ a n, a ∈ q -> h !! a = Some n ->
          ∃ n', h' !! a = Some n' ∧ next n' = next n) ->
  chain h p q -> chain h' p q.
Proof.
  revert p. induction q as [|a q IH]; intros p Hext Hch; [exact Hch|].
  destruct Hch as (-> & n & Hn & Hch). split; [reflexivity|].
  destruct (Hext a n) as (n' & Hn' & Hnx); [apply elem_of_cons; auto|exact Hn|].
  exists n'. split; [exact Hn'|]. rewrite Hnx. apply IH; [|exact Hch].
  intros b m Hb. apply Hext, elem_of_cons. auto.
Qed.

Lemma chain_lookup h p q a : chain h p q -> a ∈ q -> is_Some (h !! a).
Proof.
  revert p. induction q as [|b q IH]; intros p Hch Ha.
  - apply elem_of_nil in Ha as [].
  - destruct Hch as (_ & n & Hn & Hch).
    apply elem_of_cons in Ha as [->|Ha]; [eauto|]. apply (IH _ Hch Ha).
Qed.

Lemma chain_head h w q : chain h (Some w) q -> ∃ q', q = w :: q'.
Proof.
  destruct q as [|a q']; simpl; [discriminate|].
  intros ([= <-] & _). eauto.
Qed.

(** What [enqueue] leaves of a node that was there before. *)
Lemma enqueue_lookup_old hd h a n :
  h !! a = Some n ->
  ∃ n', enqueue hd h !! a = Some n' ∧
        value n' = value n ∧ done n' = done n ∧ next n' = next n ∧
        (previous n' = previous n ∨
         hd = Some a ∧ previous n' = Some (length h)).
Proof.
  intros Hn. pose proof (lookup_lt_Some _ _ _ Hn) as Hlt.
  unfold enqueue. destruct hd as [b|].
  - destruct (decide (b = a)) as [->|Hne].
    + rewrite list_lookup_alter_eq, lookup_app_l, Hn by exact Hlt.
      simpl. eauto 10.
    + rewrite list_lookup_alter_ne, lookup_app_l, Hn by assumption. eauto 10.
  - rewrite lookup_app_l, Hn by exact Hlt. eauto 10.
Qed.

Lemma unlink_previous_lookup w h nw a n :
  h !! w = Some nw -> h !! a = Some n ->
  ∃ n', unlink_previous w h !! a = Some n' ∧
        value n' = value n ∧ done n' = done n ∧
        next n' = (if decide (previous nw = Some a) then next nw else next n) ∧
        previous n' = previous n.
Proof.
  intros Hw Hn. unfold unlink_previous. rewrite Hw.
  destruct (previous nw) as [pv|] eqn:Epv.
  - destruct (decide (pv = a)) as [->|Hne].
    + rewrite list_lookup_alter_eq, Hn. simpl. eexists. split; [reflexivity|].
      simpl. case_decide; [auto|congruence].
    + rewrite list_lookup_alter_ne, Hn by assumption. eexists.
      split; [reflexivity|]. case_decide; [congruence|auto].
  - exists n. split; [exact Hn|]. case_decide; [congruence|auto].
Qed.

Lemma unlink_next_lookup w h nw a n :
  h !! w = Some nw -> h !! a = Some n ->
  ∃ n', unlink_next w h !! a = Some n' ∧
        value n' = value n ∧ done n' = done n ∧
        next n' = next n ∧
        previous n' = (if decide (next nw = Some a) then previous nw
                       else previous n).
Proof.
  intros Hw Hn. unfold unlink_next. rewrite Hw.
  destruct (next nw) as [nx|] eqn:Enx.
  - destruct (decide (nx = a)) as [->|Hne].
    + rewrite list_lookup_alter_eq, Hn. simpl. eexists. split; [reflexivity|].
      simpl. case_decide; [auto|congruence].
    + rewrite list_lookup_alter_ne, Hn by assumption. eexists.
      split; [reflexivity|]. case_decide; [congruence|auto].
  - exists n. split; [exact Hn|]. case_decide; [congruence|auto].
Qed.

(** What [unlink] leaves of a node, when the waiter that leaves is not
    its own neighbour. *)
Lemma unlink_lookup w h nw a n :
  h !! w = Some nw -> previous nw ≠ Some w ->
  h !! a = Some n ->
  ∃ n', unlink w h !! a = Some n' ∧
        value n' = value n ∧ done n' = done n ∧
        next n' = (if decide (previous nw = Some a) then next nw else next n) ∧
        previous n' = (if decide (next nw = Some a) then previous nw
                       else previous n).
Proof.
  intros Hw Hpv Hn.
  destruct (unlink_previous_lookup w h nw a n Hw Hn)
    as (n1 & Hn1 & Hv1 & Hd1 & Hx1 & Hp1).
  destruct (unlink_previous_lookup w h nw w nw Hw Hw)
    as (nw1 & Hw1 & _ & _ & Hwx & Hwp).
  rewrite decide_False in Hwx by exact Hpv.
  destruct (unlink_next_lookup w (unlink_previous w h) nw1 a n1 Hw1 Hn1)
    as (n2 & Hn2 & Hv2 & Hd2 & Hx2 & Hp2).
  exists n2. unfold unlink. split; [exact Hn2|].
  rewrite Hv2, Hd2, Hx2, Hp2, Hv1, Hd1, Hx1, Hp1, Hwx, Hwp. auto.
Qed.

Lemma waiting_same σ σ' :
  (∀ a, a ∈ parked σ' ↔ a ∈ parked σ) -> heap σ' = heap σ ->
  ∀ a, waiting σ' a ↔ waiting σ a.
Proof. intros Hp Hh a. unfold waiting. rewrite Hp, Hh. reflexivity. Qed.

Lemma linked_same σ σ' q :
  (∀ a, a ∈ parked σ' ↔ a ∈ parked σ) -> heap σ' = heap σ ->
  waitList (pool σ') = waitList (pool σ) ->
  linked σ q -> linked σ' q.
Proof.
  intros Hp Hh Hwl (Hch & Hso & Hin & H3 & H2 & H1).
  unfold linked. rewrite Hh, Hwl. split_and!; try assumption.
  intros a. rewrite (waiting_same σ σ' Hp Hh). apply Hin.
Qed.

Lemma linked_New : linked New [].
Proof.
  unfold linked, New; simpl. split_and!; try done.
  intros a. split; [intros Ha; apply elem_of_nil in Ha as []|].
    intros [Ha _]. apply elem_of_nil in Ha as [].
Qed.

Lemma enqueue_lookup_inv hd h a n' :
  valid h hd -> enqueue hd h !! a = Some n' ->
  (a = length h ∧
   n' = {| value := 0; done := false; next := hd; previous := None |}) ∨
  ∃ n, h !! a = Some n ∧
       value n' = value n ∧ done n' = done n ∧ next n' = next n ∧
       (previous n' = previous n ∨
        hd = Some a ∧ previous n' = Some (length h)).
Proof.
  intros Hv Hn'. destruct (h !! a) as [n|] eqn:Hn.
  - right. exists n. split; [reflexivity|].
    destruct (enqueue_lookup_old hd h a n Hn) as (n'' & Hn'' & Hrest).
    rewrite Hn' in Hn''. injection Hn'' as <-. exact Hrest.
  - left. apply lookup_ge_None in Hn.
    pose proof (lookup_lt_Some _ _ _ Hn') as Hlt. rewrite enqueue_length in Hlt.
    assert (a = length h) as -> by lia. split; [reflexivity|].
    rewrite (enqueue_lookup_new hd h Hv) in Hn'. congruence.
Qed.

Lemma linked_park σ q :
  settled σ -> linked σ q -> linked (Reserve_parked σ) (length (heap σ) :: q).
Proof.
  intros (Hmu & (Hwl & Hc & Hp) & Hnd & Hmax) (Hch & Hso & Hin & H3 & H2 & H1).
  set (hd := waitList (pool σ)) in *. set (h := heap σ) in *.
  assert (∀ a, a ∈ q -> (a < length h)%nat) as Hq.
  { intros a Ha. apply lookup_lt_is_Some_1, (chain_lookup h hd q a Hch Ha). }
  assert (∀ a, a ∈ parked (Reserve_parked σ) ↔ a = length h ∨ a ∈ parked σ)
    as Hpk.
  { intros a. unfold parked. simpl. fold h.
    rewrite !elem_of_app, list_elem_of_singleton. tauto. }
  unfold linked. change (heap (Reserve_parked σ)) with (enqueue hd h).
  change (waitList (pool (Reserve_parked σ))) with (Some (length h)).
  split_and!.
  - split; [reflexivity|]. eexists. split; [apply enqueue_lookup_new, Hwl|].
    simpl. apply (chain_ext h); [|exact Hch].
    intros a n _ Hn. destruct (enqueue_lookup_old hd h a n Hn)
      as (n' & Hn' & _ & _ & Hx & _). eauto.
  - split; [|exact Hso]. apply Forall_forall. exact Hq.
  - intros a. unfold waiting. rewrite Hpk, elem_of_cons.
    change (heap (Reserve_parked σ)) with (enqueue hd h). split.
    + intros [->|Ha].
      * split; [auto|]. eexists. split; [apply enqueue_lookup_new, Hwl|].
        reflexivity.
      * apply Hin in Ha as (Hpa & n & Hn & Hd). split; [auto|].
        destruct (enqueue_lookup_old hd h a n Hn) as (n' & Hn' & _ & Hd' & _).
        exists n'. split; [exact Hn'|]. congruence.
    + intros ([->|Hpa] & n' & Hn' & Hd'); [auto|right].
      apply Hin. split; [exact Hpa|].
      apply (enqueue_lookup_inv _ _ _ _ Hwl) in Hn'
        as [[-> _]|(n & Hn & _ & Hd & _)].
      * specialize (Hp _ Hpa). fold h in Hp. lia.
      * exists n. split; [exact Hn|]. congruence.
  - intros a n' b Hn' Hb.
    apply (enqueue_lookup_inv _ _ _ _ Hwl) in Hn'
      as [[-> ->]|(n & Hn & _ & _ & Hx & _)].
    + simpl in Hb. apply Hwl, Hb.
    + apply (H3 a n b Hn). congruence.
  - intros a n' b Hn' Hb.
    apply (enqueue_lookup_inv _ _ _ _ Hwl) in Hn'
      as [[-> ->]|(n & Hn & _ & _ & _ & [Hpv|[_ Hpv]])].
    + discriminate.
    + apply (H2 a n b Hn). congruence.
    + rewrite Hpv in Hb. injection Hb as <-. eapply lookup_lt_Some, Hn.
  - intros a n' b Hn' Hd' Hb.
    apply (enqueue_lookup_inv _ _ _ _ Hwl) in Hn'
      as [[-> ->]|(n & Hn & _ & Hd & _ & [Hpv|[Hhd Hpv]])].
    + discriminate.
    + rewrite Hpv in Hb. rewrite Hd in Hd'.
      intros Hin'. apply elem_of_cons in Hin' as [->|Hin'].
      * destruct (Hc a n Hn) as [_ Hvp]. specialize (Hvp _ Hb). fold h in Hvp. lia.
      * apply (H1 a n b Hn Hd' Hb). exact Hin'.
    + assert (a ∈ q) as Ha.
      { rewrite Hhd in Hch. apply chain_head in Hch as [q' ->].
        apply elem_of_cons. auto. }
      apply Hin in Ha as (_ & m & Hm & Hdm). fold h in Hm.
      rewrite Hn in Hm. injection Hm as <-. congruence.
Qed.

Lemma descending_head a q b : descending (a :: q) -> b ∈ q -> (b < a)%nat.
Proof. intros [Hlt _] Hb. rewrite Forall_forall in Hlt. apply Hlt, Hb. Qed.

Lemma hand_lookup_inv id (w : nat) (h : list waiterNode) (a : nat) n' :
  alter (λ n, set_done true (set_value id n)) w h !! a = Some n' ->
  ∃ n, h !! a = Some n ∧ next n' = next n ∧ previous n' = previous n ∧
       (a = w ∧ done n' = true ∨ a ≠ w ∧ n' = n).
Proof.
  destruct (decide (w = a)) as [->|Hne].
  - rewrite list_lookup_alter_eq. destruct (h !! a) as [n|]; [|discriminate].
    simpl. intros [= <-]. exists n. simpl. auto 10.
  - rewrite list_lookup_alter_ne by exact Hne. intros Hn'.
    exists n'. auto 10.
Qed.

Lemma linked_hand σ id w q :
  settled σ -> waitList (pool σ) = Some w -> linked σ q ->
  linked (Release_handed id w σ) (tail q).
Proof.
  intros (Hmu & (Hwl & Hc & Hp) & Hnd & Hmax) Hhd
         (Hch & Hso & Hin & H3 & H2 & H1).
  rewrite Hhd in Hch. destruct (chain_head _ _ _ Hch) as [q' ->].
  destruct Hch as (_ & nw & Hw & Hch). simpl tail.
  set (h := heap σ) in *.
  set (h' := alter (λ n, set_done true (set_value id n)) w h).
  assert (∀ a, a ∈ parked (Release_handed id w σ) ↔ a ∈ parked σ) as Hpk.
  { intros a. unfold parked. simpl. rewrite !elem_of_app. tauto. }
  assert (∀ a, a ∈ q' -> a ≠ w) as Hqw.
  { intros a Ha ->. pose proof (descending_head _ _ _ Hso Ha). lia. }
  unfold linked. change (heap (Release_handed id w σ)) with h'.
  change (waitList (pool (Release_handed id w σ))) with (h !! w ≫= next).
  rewrite Hw. simpl. split_and!.
  - apply (chain_ext h); [|exact Hch]. intros a n Ha Hn.
    unfold h'. rewrite list_lookup_alter_ne by (intros ->; exact (Hqw _ Ha eq_refl)).
    eauto.
  - apply Hso.
  - intros a. unfold waiting. rewrite Hpk.
    change (heap (Release_handed id w σ)) with h'. split.
    + intros Ha. pose proof (Hqw a Ha) as Hne.
      assert (a ∈ w :: q') as Ha' by (apply elem_of_cons; auto).
      apply Hin in Ha' as (Hpa & n & Hn & Hd). split; [exact Hpa|].
      exists n. unfold h'. rewrite list_lookup_alter_ne by auto. auto.
    + intros (Hpa & n' & Hn' & Hd').
      apply hand_lookup_inv in Hn' as (n & Hn & _ & _ & [[-> Hd]|[Hne ->]]).
      * congruence.
      * assert (a ∈ w :: q') as Ha'; [|apply elem_of_cons in Ha' as [->|?]; done].
        apply Hin. split; [exact Hpa|]. eauto.
  - intros a n' b Hn' Hb.
    apply hand_lookup_inv in Hn' as (n & Hn & Hx & _). apply (H3 a n b Hn). congruence.
  - intros a n' b Hn' Hb.
    apply hand_lookup_inv in Hn' as (n & Hn & _ & Hpv & _).
    apply (H2 a n b Hn). congruence.
  - intros a n' b Hn' Hd' Hb Hbq.
    apply hand_lookup_inv in Hn' as (n & Hn & _ & Hpv & [[-> _]|[Hne ->]]).
    + rewrite Hpv in Hb. pose proof (H2 w n b Hn Hb).
      pose proof (descending_head _ _ _ Hso Hbq). lia.
    + apply (H1 a n b Hn Hd' Hb). apply elem_of_cons. auto.
Qed.

Lemma linked_returned σ w nw q :
  settled σ -> w ∈ runnable σ -> heap σ !! w = Some nw -> done nw = true ->
  linked σ q -> linked (Resume_returned w σ) q.
Proof.
  intros (Hmu & (Hwl & Hc & Hp) & Hnd & Hmax) Hr Hw Hdw
         (Hch & Hso & Hin & H3 & H2 & H1).
  set (h := heap σ) in *.
  assert (previous nw ≠ Some w) as Hself.
  { intros Hpv. pose proof (H2 w nw w Hw Hpv). lia. }
  assert (∀ a n', unlink w h !! a = Some n' ->
            ∃ n, h !! a = Some n ∧ done n' = done n ∧
                 next n' = (if decide (previous nw = Some a) then next nw
                            else next n) ∧
                 previous n' = (if decide (next nw = Some a) then previous nw
                                else previous n)) as Hinv.
  { intros a n' Hn'.
    destruct (relinked_unlink σ w Hc) as (_ & Hpay & _).
    pose proof (payload_length _ _ Hpay) as Hlen. simpl in Hlen. fold h in Hlen.
    apply lookup_lt_Some in Hn' as Hlt. rewrite Hlen in Hlt.
    destruct (lookup_lt_is_Some_2 _ _ Hlt) as [n Hn]. exists n.
    destruct (unlink_lookup w h nw a n Hw Hself Hn) as (n'' & Hn'' & _ & Hrest).
    rewrite Hn' in Hn''. injection Hn'' as <-. auto. }
  assert (∀ a, a ∈ parked (Resume_returned w σ) ↔ a ∈ parked σ ∧ a ≠ w) as Hpk.
  { intros a. unfold parked. simpl. rewrite !elem_of_app, list_elem_of_filter.
    split; [|tauto]. intros [Ha|[Hne Ha]]; [|tauto]. split; [auto|].
    intros ->. unfold parked in Hnd. apply NoDup_app in Hnd as (_ & Hdis & _).
    apply (Hdis w Ha Hr). }
  unfold linked. change (heap (Resume_returned w σ)) with (unlink w h).
  change (waitList (pool (Resume_returned w σ))) with (waitList (pool σ)).
  split_and!.
  - apply (chain_ext h); [|exact Hch]. intros a n Ha Hn.
    destruct (unlink_lookup w h nw a n Hw Hself Hn) as (n' & Hn' & _ & _ & Hx & _).
    exists n'. split; [exact Hn'|]. rewrite Hx. case_decide as Hpv; [|reflexivity].
    destruct (H1 w nw a Hw Hdw Hpv Ha).
  - exact Hso.
  - intros a. unfold waiting. rewrite Hpk.
    change (heap (Resume_returned w σ)) with (unlink w h). split.
    + intros Ha. apply Hin in Ha as (Hpa & n & Hn & Hd). split.
      * split; [exact Hpa|]. intros ->. fold h in Hn. congruence.
      * destruct (unlink_lookup w h nw a n Hw Hself Hn) as (n' & Hn' & _ & Hd' & _).
        exists n'. split; [exact Hn'|]. congruence.
    + intros ([Hpa _] & n' & Hn' & Hd'). apply Hin. split; [exact Hpa|].
      destruct (Hinv a n' Hn') as (n & Hn & Hd & _).
      exists n. split; [exact Hn|]. congruence.
  - intros a n' b Hn' Hb. destruct (Hinv a n' Hn') as (n & Hn & _ & Hx & _).
    rewrite Hx in Hb. case_decide as Hpv.
    + pose proof (H3 w nw b Hw Hb). pose proof (H2 w nw a Hw Hpv). lia.
    + apply (H3 a n b Hn Hb).
  - intros a n' b Hn' Hb. destruct (Hinv a n' Hn') as (n & Hn & _ & _ & Hpv).
    rewrite Hpv in Hb. case_decide as Hnx.
    + pose proof (H3 w nw a Hw Hnx). pose proof (H2 w nw b Hw Hb). lia.
    + apply (H2 a n b Hn Hb).
  - intros a n' b Hn' Hd' Hb. destruct (Hinv a n' Hn') as (n & Hn & Hd & _ & Hpv).
    rewrite Hpv in Hb. case_decide as Hnx.
    + apply (H1 w nw b Hw Hdw Hb).
    + apply (H1 a n b Hn); congruence.
Qed.

Lemma linked_path σ e σ' q :
  settled σ -> linked σ q -> path σ e σ' -> ∃ q', linked σ' q'.
Proof.
  intros Hset Hl Hpath.
  destruct Hpath as [σ id rest Hstk|σ Hstk Hlt|σ Hstk Hge|σ w n Hr Hw Hd
                    |σ w n Hr Hw Hd|σ b Hnil|σ b w Hhd].
  - exists q. apply (linked_same σ); try reflexivity; exact Hl.
  - exists q. apply (linked_same σ); try reflexivity; exact Hl.
  - eexists. apply linked_park; eassumption.
  - exists q. apply (linked_same σ); try reflexivity; [|exact Hl].
    intros a. destruct Hset as (_ & _ & Hnd & _).
    unfold parked at 1. simpl. rewrite (parked_repark σ w Hnd Hr). reflexivity.
  - exists q. eapply linked_returned; eassumption.
  - exists q. apply (linked_same σ); try reflexivity; exact Hl.
  - eexists. apply linked_hand; eassumption.
Qed.

Lemma reachable_linked σ : reachable σ -> ∃ q, linked σ q.
Proof.
  induction 1 as [|σ c e σ' Hre [q IH] Hex]; [exists []; apply linked_New|].
  pose proof (reachable_settled σ Hre) as Hset.
  apply (linked_path σ e σ' q Hset IH).
  apply (exec_path σ c); [apply Hset..|exact Hex].
Qed.

(** In every reachable state the head of the queue is a waiting
    goroutine, and the one that parked last among those that wait. *)
Lemma reachable_head_latest σ w :
  reachable σ -> waitList (pool σ) = Some w ->
  waiting σ w ∧ ∀ a, waiting σ a -> (a <= w)%nat.
Proof.
  intros Hre Hhd. destruct (reachable_linked σ Hre) as (q & Hch & Hso & Hin & _).
  rewrite Hhd in Hch. destruct (chain_head _ _ _ Hch) as [q' ->]. split.
  - apply Hin, elem_of_cons. auto.
  - intros a Ha. apply Hin in Ha. apply elem_of_cons in Ha as [->|Ha]; [lia|].
    pose proof (descending_head _ _ _ Hso Ha). lia.
Qed.

(** ** Reachability of the states of a run *)

Lemma reachable_run cs : ∀ σ es σ',
  reachable σ -> run cs σ = Ok es σ' -> reachable σ'.
Proof.
  induction cs as [|c cs IH]; intros σ es σ' Hre Hrun.
  - injection Hrun as _ <-. exact Hre.
  - apply run_cons_inv in Hrun as (e & σ1 & es' & Hex & Hrun & _).
    apply (IH σ1 es' σ'); [|exact Hrun].
    apply (reachable_step σ c e σ1 Hre Hex).
Qed.

Lemma reachable_minted (n : Z) :
  0 <= n <= MaxSimultaneousRequest -> reachable (minted n).
Proof.
  intros Hn. rewrite <- (Z2Nat.id n) by lia.
  eapply (reachable_run (replicate (Z.to_nat n) Call_Reserve) New);
    [apply reachable_New|].
  apply (run_mint (Z.to_nat n) New); simpl; try reflexivity; lia.
Qed.

(** ** Nothing is lost in a hand-over *)

Lemma bind_granted_hand_waiting id w h n (l : list nat) :
  NoDup l -> w ∈ l -> h !! w = Some n -> done n = false ->
  (l ≫= granted (alter (λ n, set_done true (set_value id n)) w h))
    ≡ₚ id :: (l ≫= granted h).
Proof.
  intros Hnd Hw Hn Hd. induction l as [|a l IH].
  - apply elem_of_nil in Hw as [].
  - apply NoDup_cons in Hnd as [Ha Hnd]. rewrite !bind_cons.
    destruct (decide (a = w)) as [->|Hne].
    + rewrite (bind_ext_in _ (granted h) l).
      * unfold granted at 1 3. rewrite list_lookup_alter_eq, Hn. simpl.
        rewrite Hd. reflexivity.
      * intros x Hx. apply granted_hand. intros ->. contradiction.
    + apply elem_of_cons in Hw as [->|Hw]; [contradiction|].
      rewrite granted_hand by exact Hne. rewrite (IH Hnd Hw).
      symmetry. apply Permutation_middle.
Qed.

Lemma pending_hand_waiting id w σ :
  NoDup (parked σ) -> waiting σ w ->
  pending (Release_handed id w σ) ≡ₚ id :: pending σ.
Proof.
  intros Hnd (Hw & n & Hn & Hd). unfold pending at 1, parked at 1. simpl.
  assert (runnable σ ++ cond (pool σ) ≡ₚ parked σ) as Hperm.
  { unfold parked. apply Permutation_app_comm. }
  rewrite Hperm. apply (bind_granted_hand_waiting id w _ n); assumption.
Qed.

(** * The specification *)

(** ** Wire codec *)

(** C8. Wire codec round-trip: a 16-bit identifier is encoded as exactly
    two bytes, the most significant one first, and decoding the encoding
    of any of the values 0..65535 gives the value back.  Both directions
    are total functions without state. *)
Theorem codec_round_trip (v : Z) :
  0 <= v <= 65535 ->
  GetBytesSlice (NewPacketID v) = [byte_of_Z (v / 256); byte_of_Z (v mod 256)] ∧
  byte_to_Z (fst (GetBytes (NewPacketID v))) = v / 256 ∧
  byte_to_Z (snd (GetBytes (NewPacketID v))) = v mod 256 ∧
  Value (NewPacketIDFromBytes (GetBytes (NewPacketID v))) = v.
Proof.
  intros Hv. unfold GetBytesSlice, GetBytes, NewPacketIDFromBytes, NewPacketID.
  simpl Value.
  assert (0 <= v / 256 < 256) as Hhi.
  { split; [apply Z.div_pos; lia|apply Z.div_lt_upper_bound; lia]. }
  split_and!.
  - unfold bytes.Split16BitWord. simpl.
    rewrite Z.shiftr_div_pow2 by lia. change (2 ^ 8) with 256.
    change 255 with (Z.ones 8). rewrite Z.land_ones by lia. reflexivity.
  - rewrite Split16BitWord_high. apply Z.mod_small, Hhi.
  - apply Split16BitWord_low.
  - apply Combine_Split, Hv.
Qed.

Lemma codec_round_trip_witness :
  GetBytesSlice (NewPacketID 51966)
  = [byte_of_Z (51966 / 256); byte_of_Z (51966 mod 256)] ∧
  byte_to_Z (fst (GetBytes (NewPacketID 51966))) = 51966 / 256 ∧
  byte_to_Z (snd (GetBytes (NewPacketID 51966))) = 51966 mod 256 ∧
  Value (NewPacketIDFromBytes (GetBytes (NewPacketID 51966))) = 51966.
Proof. apply (codec_round_trip 51966). lia. Defined.

(** ** Reuse from the free stack *)

(** C4. LIFO reuse: with a non-empty free stack [Reserve] pops and
    returns its top; a [Release] that finds no waiter puts its value on
    top, so the value released last is the one the next [Reserve]
    returns.  In particular, after [Reserve] returned 1, [Reserve]
    returned 2 and 1 was released, the next [Reserve] returns 1. *)
Theorem free_stack_reuse σ :
  mu (pool σ) = false ->
  (∀ id rest, stack (pool σ) = id :: rest ->
     ∃ σ', Reserve σ = Ok (Issued {| Value := id |}) σ' ∧
           stack (pool σ') = rest) ∧
  (∀ b, waitList (pool σ) = None ->
     ∃ σ', run [Call_Release b; Call_Reserve] σ
           = Ok [Ev_Release b; Ev_Reserve (Issued (NewPacketIDFromBytes b))] σ' ∧
           stack (pool σ') = stack (pool σ)) ∧
  run [Call_Reserve; Call_Reserve;
       Call_Release (GetBytes (NewPacketID 1)); Call_Reserve] New
  = Ok [Ev_Reserve (Issued (NewPacketID 1)); Ev_Reserve (Issued (NewPacketID 2));
        Ev_Release (GetBytes (NewPacketID 1)); Ev_Reserve (Issued (NewPacketID 1))]
       (minted 2).
Proof.
  intros Hmu. split_and!.
  - intros id rest Hstk. eexists.
    split; [apply (Reserve_pop σ id rest); assumption|]. reflexivity.
  - intros b Hwl. eexists. split.
    + eapply run_cons; [apply exec_Release, Release_push; assumption|].
      eapply run_cons; [|reflexivity].
      apply exec_Reserve. eapply Reserve_pop; [exact Hmu|reflexivity].
    + reflexivity.
  - vm_compute. reflexivity.
Qed.

Lemma free_stack_reuse_witness :
  ∃ σ', Reserve (on_pool (set_stack [7; 3]) New) = Ok (Issued {| Value := 7 |}) σ' ∧
        stack (pool σ') = [3].
Proof.
  exact (proj1 (free_stack_reuse (on_pool (set_stack [7; 3]) New) eq_refl)
           7 [3] eq_refl).
Defined.

(** ** Release *)

(** C6. [Release] is total and loses nothing: in every pool state and for
    every two bytes it succeeds, whether or not the value was ever
    reserved, and it delivers the decoded value to exactly one place: to
    the waiter at the head of the queue when there is one (the free stack
    is then left alone), and onto the free stack otherwise (no waiter is
    then written).  In a state reached from the fresh pool that head
    waiter is a goroutine still waiting, so that what the pool has to
    hand out grows by the released value and by nothing else. *)
Theorem Release_total σ b :
  mu (pool σ) = false -> closed σ ->
  ∃ σ', Release b σ = Ok () σ' ∧
        mu (pool σ') = false ∧
        match waitList (pool σ) with
        | Some w =>
            (∃ n, heap σ !! w = Some n ∧
                  heap σ' !! w
                  = Some (set_done true (set_value (bytes.CombineTwoBytes b) n))) ∧
            (∀ a, a ≠ w -> heap σ' !! a = heap σ !! a) ∧
            stack (pool σ') = stack (pool σ)
        | None =>
            stack (pool σ') = bytes.CombineTwoBytes b :: stack (pool σ) ∧
            heap σ' = heap σ
        end ∧
        (reachable σ ->
         stack (pool σ') ++ pending σ'
           ≡ₚ bytes.CombineTwoBytes b :: stack (pool σ) ++ pending σ).
Proof.
  intros Hmu (Hwl & _ & _). destruct (waitList (pool σ)) as [w|] eqn:Hhd.
  - specialize (Hwl w eq_refl).
    destruct (lookup_lt_is_Some_2 _ _ Hwl) as [n Hn].
    exists (Release_handed (bytes.CombineTwoBytes b) w σ).
    split; [apply Release_hand; assumption|]. split_and!; try reflexivity.
    + exists n. split; [exact Hn|]. simpl.
      rewrite list_lookup_alter_eq, Hn. reflexivity.
    + intros a Ha. apply list_lookup_alter_ne. auto.
    + intros Hre. destruct (reachable_head_latest σ w Hre Hhd) as [Hw _].
      destruct (reachable_settled σ Hre) as (_ & _ & Hnd & _).
      rewrite (pending_hand_waiting _ w σ Hnd Hw).
      change (stack (pool (Release_handed (bytes.CombineTwoBytes b) w σ)))
        with (stack (pool σ)).
      symmetry. apply Permutation_middle.
  - eexists. split; [apply Release_push; assumption|]. simpl.
    split_and!; try reflexivity. exact Hmu.
Qed.

Lemma Release_total_witness :
  ∃ σ', Release (x01, x02) New = Ok () σ' ∧
        mu (pool σ') = false ∧
        (stack (pool σ') = [258] ∧ heap σ' = []) ∧
        (reachable New -> stack (pool σ') ++ pending σ' ≡ₚ [258]).
Proof.
  exact (Release_total New (x01, x02) eq_refl (proj1 (proj2 settled_New))).
Defined.

(** ** The two structures *)

(** C5. Mutual exclusion of the structures: in every state that calls of
    [Reserve] and [Release] lead to from the fresh pool, the free stack
    and the waiter queue are not both non-empty.  A waiter is created
    only when the free stack is empty and the high-water mark is at its
    maximum, and [Release] pushes onto the free stack only when the
    waiter queue is empty. *)
Theorem stack_and_queue_exclusive σ :
  reachable σ ->
  (stack (pool σ) = [] ∨ waitList (pool σ) = None) ∧
  (∀ w σ', Reserve σ = Ok (Suspended w) σ' ->
     stack (pool σ) = [] ∧ maxIDReached (pool σ) = MaxSimultaneousRequest) ∧
  (∀ b σ', Release b σ = Ok () σ' ->
     stack (pool σ') ≠ stack (pool σ) -> waitList (pool σ) = None).
Proof.
  intros Hre. pose proof (reachable_settled σ Hre) as (Hmu & Hcl & Hnd & Hmax).
  split_and!.
  - apply reachable_exclusive, Hre.
  - intros w σ' Heq. apply exec_Reserve in Heq.
    apply exec_path in Heq; [|assumption..].
    inversion Heq; subst. split; [assumption|lia].
  - intros b σ' Heq Hne. apply exec_Release in Heq.
    apply exec_path in Heq; [|assumption..].
    inversion Heq; subst; [assumption|].
    destruct Hne. reflexivity.
Qed.

Lemma stack_and_queue_exclusive_witness :
  stack (pool (minted 1)) = [] ∨ waitList (pool (minted 1)) = None.
Proof.
  refine (proj1 (stack_and_queue_exclusive (minted 1) _)).
  apply (reachable_step New Call_Reserve (Ev_Reserve (Issued (NewPacketID 1)))).
  - apply reachable_New.
  - reflexivity.
Defined.

(** ** Uniqueness *)

(** C1. Uniqueness: in every interleaving of [Reserve] and [Release] whose
    callers release only identifiers they hold, each at most once, no
    identifier is held by two outstanding reservations: the identifiers
    outstanding at any instant are pairwise different. *)
Theorem Reserve_uniqueness σ held :
  wellbehaved σ held ->
  NoDup held ∧
  ∀ i j id, held !! i = Some id -> held !! j = Some id -> i = j.
Proof.
  intros Hwb. destruct (wellbehaved_accounted σ held Hwb) as [Hnd _].
  unfold circulating in Hnd. apply NoDup_app in Hnd as (Hheld & _ & _).
  split; [exact Hheld|]. intros i j id Hi Hj.
  apply (proj1 (NoDup_alt held) Hheld i j id); assumption.
Qed.

Lemma Reserve_uniqueness_witness :
  NoDup [1; 3; 2] ∧
  ∀ i j id, [1; 3; 2] !! i = Some id -> [1; 3; 2] !! j = Some id -> i = j.
Proof.
  apply (Reserve_uniqueness
           (on_pool (set_stackSize 0) (minted 3))).
  apply (wellbehaved_step
           (on_pool (λ p, set_stackSize 1 (set_stack [1] p)) (minted 3))
           [3; 2] Call_Reserve (Ev_Reserve (Issued (NewPacketID 1))));
    [|reflexivity|reflexivity].
  apply (wellbehaved_step (minted 3) [3; 2; 1]
           (Call_Release (x00, x01)) (Ev_Release (x00, x01)));
    [|reflexivity|exists [3; 2], []; split; reflexivity].
  apply (wellbehaved_step (minted 2) [2; 1]
           Call_Reserve (Ev_Reserve (Issued (NewPacketID 3))));
    [|reflexivity|reflexivity].
  apply (wellbehaved_step (minted 1) [1]
           Call_Reserve (Ev_Reserve (Issued (NewPacketID 2))));
    [|reflexivity|reflexivity].
  apply (wellbehaved_step New []
           Call_Reserve (Ev_Reserve (Issued (NewPacketID 1))));
    [|reflexivity|reflexivity].
  apply wellbehaved_New.
Defined.

(** The contract is needed: a value released twice is issued twice. *)
Lemma double_release_duplicates :
  run [Call_Reserve; Call_Release (x00, x01); Call_Release (x00, x01);
       Call_Reserve; Call_Reserve] New
  = Ok [Ev_Reserve (Issued (NewPacketID 1));
        Ev_Release (x00, x01); Ev_Release (x00, x01);
        Ev_Reserve (Issued (NewPacketID 1));
        Ev_Reserve (Issued (NewPacketID 1))] (minted 1).
Proof. vm_compute. reflexivity. Qed.

(** ** The range of the identifiers *)

(** C7, as the code has it.  A [Release] of bytes that decode to 0 puts 0
    on the free stack, and the next [Reserve] issues it. *)
Lemma Reserve_issues_zero :
  run [Call_Release (x00, x00); Call_Reserve] New
  = Ok [Ev_Release (x00, x00); Ev_Reserve (Issued {| Value := 0 |})] New.
Proof. vm_compute. reflexivity. Qed.

Lemma exec_call σ c e σ' :
  exec c σ = Ok e σ' ->
  match e with
  | Ev_Reserve _ => c = Call_Reserve
  | Ev_Resume w _ => c = Call_Resume w
  | Ev_Release b => c = Call_Release b
  end.
Proof.
  destruct c as [|w|b]; simpl; unfold bind.
  - destruct (Reserve σ); [|discriminate]. intros [= <- _]. reflexivity.
  - destruct (Resume w σ); [|discriminate]. intros [= <- _]. reflexivity.
  - destruct (Release b σ); [|discriminate]. intros [= <- _]. reflexivity.
Qed.

(** Without such a [Release] every value that the pool can hand out
    stays in range, whatever else the callers release. *)
Lemma genuine_path σ e σ' :
  settled σ -> genuine σ -> path σ e σ' ->
  (∀ b, e = Ev_Release b -> bytes.CombineTwoBytes b ≠ 0) ->
  genuine σ' ∧ ∀ id, issued e = Some id -> 1 <= id <= 65535.
Proof.
  intros (_ & (_ & Hc & _) & _ & Hmax) [Hstack Hheap] Hpath Hnz.
  unfold MaxSimultaneousRequest in Hmax.
  destruct Hpath as [σ id rest Hstk|σ Hstk Hlt|σ Hstk Hge|σ w n Hr Hw Hd
                    |σ w n Hr Hw Hd|σ b Hnil|σ b w Hhd];
    unfold genuine; simpl.
  - rewrite Hstk in Hstack. apply Forall_cons in Hstack as [Hid Hrest].
    split; [split; assumption|]. intros id' [= <-]. exact Hid.
  - unfold MaxSimultaneousRequest in Hlt. rewrite wrap16_small by lia.
    split; [split; assumption|]. intros id' [= <-]. lia.
  - split; [|discriminate]. split; [exact Hstack|].
    rewrite payload_enqueue. apply Forall_app. split; [exact Hheap|].
    apply Forall_singleton. discriminate.
  - split; [split; assumption|discriminate].
  - destruct (relinked_returned σ w Hc) as (_ & Hpay & _).
    simpl in Hpay. split; [split; [exact Hstack|]|].
    + change (heap (Resume_returned w σ)) with (unlink w (heap σ)) in Hpay.
      rewrite Hpay. exact Hheap.
    + intros id' [= <-].
      apply (proj1 (Forall_lookup _ _) Hheap w (value n, done n));
        [|exact Hd].
      unfold payload. rewrite list_lookup_fmap, Hw. reflexivity.
  - split; [|discriminate]. split; [|exact Hheap].
    apply Forall_cons. split; [|exact Hstack].
    pose proof (CombineTwoBytes_range b). specialize (Hnz b eq_refl). lia.
  - split; [|discriminate]. split; [exact Hstack|].
    unfold payload.
    rewrite (list_fmap_alter _ _ (λ _, (bytes.CombineTwoBytes b, true))).
    + apply Forall_alter; [exact Hheap|]. intros vd _ _ _. simpl.
      pose proof (CombineTwoBytes_range b). specialize (Hnz b eq_refl). lia.
    + apply Forall_forall. intros x _. reflexivity.
Qed.

Lemma genuine_run cs :
  ∀ σ es σ',
    settled σ -> genuine σ -> Forall releases_nonzero cs ->
    run cs σ = Ok es σ' ->
    ∀ e id, e ∈ es -> issued e = Some id -> 1 <= id <= 65535.
Proof.
  induction cs as [|c cs IH]; intros σ es σ' Hset Hgen Hcs Hrun e id He Hid.
  - injection Hrun as <- _. apply elem_of_nil in He. destruct He.
  - apply Forall_cons in Hcs as [Hc Hcs].
    apply run_cons_inv in Hrun as (e1 & σ1 & es' & Hex & Hrun & ->).
    pose proof (exec_path σ c e1 σ1 (proj1 Hset) (proj1 (proj2 Hset)) Hex)
      as Hpath.
    destruct (genuine_path σ e1 σ1 Hset Hgen Hpath) as [Hgen1 Hissued].
    { intros b ->. pose proof (exec_call σ c _ σ1 Hex) as Hcall. simpl in Hcall.
      subst c. exact Hc. }
    apply elem_of_cons in He as [->|He]; [apply Hissued, Hid|].
    apply (IH σ1 es' σ' (settled_path σ e1 σ1 Hset Hpath) Hgen1 Hcs Hrun e id He Hid).
Qed.

(** C7, amended.  Identifier range: in every run of calls on a fresh pool
    in which no [Release] is passed bytes that decode to 0, every
    identifier that [Reserve] issues lies in [1, 65535]; 0 is not issued.
    Nothing else is asked of the callers: they may release a value twice,
    or one that was never reserved. *)
Theorem issued_identifier_range cs es σ e id :
  Forall releases_nonzero cs -> run cs New = Ok es σ ->
  e ∈ es -> issued e = Some id ->
  1 <= id <= 65535.
Proof.
  intros Hcs Hrun He Hid.
  assert (genuine New) as Hgen by (split; apply Forall_nil_2).
  apply (genuine_run cs New es σ settled_New Hgen Hcs Hrun e id He Hid).
Qed.

Lemma issued_identifier_range_witness : 1 <= 257 <= 65535.
Proof.
  apply (issued_identifier_range
           [Call_Release (x01, x01); Call_Release (x01, x01); Call_Reserve]
           [Ev_Release (x01, x01); Ev_Release (x01, x01);
            Ev_Reserve (Issued (NewPacketID 257))]
           (on_pool (λ p, set_stackSize 1 (set_stack [257] p)) New)
           (Ev_Reserve (Issued (NewPacketID 257))) 257).
  - repeat apply Forall_cons_2; try apply Forall_nil_2; simpl; try exact I;
      vm_compute; discriminate.
  - vm_compute. reflexivity.
  - do 2 (apply elem_of_cons; right). apply elem_of_cons. left. reflexivity.
  - reflexivity.
Defined.

(** ** Minting *)

(** C3. Monotonic minting: a [Reserve] that finds the free stack empty and
    the high-water mark below 65535 increments the mark and returns the
    new value.  Hence, with no release, the first 65535 calls on a fresh
    pool return 1, 2, ..., 65535 in this order; the 65536th call parks
    as a waiter, and as long as nothing is released no call returns an
    identifier any more. *)
Theorem monotonic_minting (n : nat) :
  Z.of_nat n <= 65535 ->
  (∀ σ, mu (pool σ) = false -> stack (pool σ) = [] ->
        0 <= maxIDReached (pool σ) < MaxSimultaneousRequest ->
        Reserve σ
        = Ok (Issued {| Value := maxIDReached (pool σ) + 1 |})
             (on_pool (set_maxIDReached (maxIDReached (pool σ) + 1)) σ)) ∧
  run (replicate n Call_Reserve) New
  = Ok ((λ i, Ev_Reserve (Issued (NewPacketID i))) <$> seqZ 1 (Z.of_nat n))
       (minted (Z.of_nat n)) ∧
  Reserve (minted 65535) = Ok (Suspended 0%nat) (Reserve_parked (minted 65535)) ∧
  ∀ cs es σ',
    (∀ b, Call_Release b ∉ cs) ->
    run cs (Reserve_parked (minted 65535)) = Ok es σ' ->
    Forall (λ e, issued e = None) es.
Proof.
  intros Hn. split_and!.
  - apply Reserve_mint_next.
  - rewrite (run_mint n New); simpl; try reflexivity; try lia.
    unfold MaxSimultaneousRequest. lia.
  - apply (Reserve_park (minted 65535)).
    + reflexivity.
    + reflexivity.
    + unfold MaxSimultaneousRequest, minted. simpl. lia.
    + intros a [=].
  - intros cs es σ' Hrel Hrun.
    assert (settled (minted 65535)) as Hset.
    { apply settled_minted. unfold MaxSimultaneousRequest. lia. }
    assert (path (minted 65535) (Ev_Reserve (Suspended 0%nat))
              (Reserve_parked (minted 65535))) as Hpath.
    { apply (path_park (minted 65535)); [reflexivity|].
      unfold MaxSimultaneousRequest. simpl. lia. }
    apply (starved_run cs (Reserve_parked (minted 65535)) es σ');
      try assumption.
    + apply (settled_path _ _ _ Hset Hpath).
    + eapply (starved_path (minted 65535)); [|exact Hpath|discriminate].
      unfold starved, MaxSimultaneousRequest. simpl.
      split_and!; [reflexivity|lia|apply Forall_nil_2].
Qed.

Lemma monotonic_minting_witness :
  run (replicate 3 Call_Reserve) New
  = Ok ((λ i, Ev_Reserve (Issued (NewPacketID i))) <$> seqZ 1 (Z.of_nat 3))
       (minted (Z.of_nat 3)).
Proof.
  apply (monotonic_minting 3). lia.
Defined.

(** ** Lock discipline *)

(** C9, as the code has it.  [GetStackSize] and [GetWaitListSize] read
    their counters without taking the mutex. *)
Lemma accessors_read_unlocked :
  mu (pool New) = false ∧
  GetStackSize New = Ok 0 (on_unguarded S New) ∧
  GetWaitListSize New = Ok 0 (on_unguarded S New) ∧
  unguarded (on_unguarded S New) ≠ unguarded New.
Proof. split_and!; try reflexivity. discriminate. Qed.

(** C9, amended.  Lock discipline: [Reserve], both up to its first wait
    and when it resumes, and [Release] run to their end and read and
    write the pool's state (free stack, waiter queue and its nodes,
    high-water mark, size counters) only while they hold the pool's
    mutex, which they give back.  The accessors [GetStackSize] and
    [GetWaitListSize] are left out: they do not take it. *)
Theorem lock_discipline σ :
  mu (pool σ) = false -> closed σ ->
  (∃ o σ', Reserve σ = Ok o σ' ∧
           unguarded σ' = unguarded σ ∧ mu (pool σ') = false) ∧
  (∀ w, w ∈ runnable σ ->
     ∃ o σ', Resume w σ = Ok o σ' ∧
             unguarded σ' = unguarded σ ∧ mu (pool σ') = false) ∧
  (∀ b, ∃ σ', Release b σ = Ok () σ' ∧
              unguarded σ' = unguarded σ ∧ mu (pool σ') = false).
Proof.
  intros Hmu Hcl. split_and!.
  - destruct (exec_total σ Call_Reserve Hmu Hcl) as (e & σ' & Hex);
      [intros w [=]|].
    unfold exec, bind in Hex. destruct (Reserve σ) as [o σ1|] eqn:Heq;
      [|discriminate].
    exists o, σ1. split; [reflexivity|].
    destruct (wlp_Ok _ _ _ _ _ (lock_Reserve σ Hmu) Heq). auto.
  - intros w Hw.
    destruct (exec_total σ (Call_Resume w) Hmu Hcl) as (e & σ' & Hex);
      [intros w' [= <-]; exact Hw|].
    unfold exec, bind in Hex. destruct (Resume w σ) as [o σ1|] eqn:Heq;
      [|discriminate].
    exists o, σ1. split; [reflexivity|].
    destruct (wlp_Ok _ _ _ _ _ (lock_Resume w σ Hmu) Heq). auto.
  - intros b.
    destruct (exec_total σ (Call_Release b) Hmu Hcl) as (e & σ' & Hex);
      [intros w [=]|].
    unfold exec, bind in Hex. destruct (Release b σ) as [[] σ1|] eqn:Heq;
      [|discriminate].
    exists σ1. split; [reflexivity|].
    destruct (wlp_Ok _ _ _ _ _ (lock_Release b σ Hmu) Heq). auto.
Qed.

Lemma lock_discipline_witness :
  ∃ o σ', Reserve (minted 65535) = Ok o σ' ∧
          unguarded σ' = unguarded (minted 65535) ∧ mu (pool σ') = false.
Proof.
  apply (lock_discipline (minted 65535) eq_refl).
  apply (settled_minted 65535). vm_compute. split; discriminate.
Defined.

(** ** The high-water mark *)

(** C10. Frame: [Release] leaves the high-water mark [maxIDReached] as it
    is, and a [Reserve] served from the free stack leaves both the mark
    and the waiter queue as they are.  The mark changes on one path only,
    the one of [Reserve] that mints a fresh identifier. *)
Theorem high_water_mark_frame σ :
  mu (pool σ) = false -> closed σ ->
  (∀ b, ∃ σ', Release b σ = Ok () σ' ∧
              maxIDReached (pool σ') = maxIDReached (pool σ)) ∧
  (∀ id rest, stack (pool σ) = id :: rest ->
     ∃ σ', Reserve σ = Ok (Issued {| Value := id |}) σ' ∧
           maxIDReached (pool σ') = maxIDReached (pool σ) ∧
           waitList (pool σ') = waitList (pool σ) ∧
           waitListSize (pool σ') = waitListSize (pool σ) ∧
           heap σ' = heap σ ∧
           parked σ' = parked σ) ∧
  (∀ c e σ', exec c σ = Ok e σ' ->
     maxIDReached (pool σ') ≠ maxIDReached (pool σ) ->
     c = Call_Reserve ∧ stack (pool σ) = [] ∧
     maxIDReached (pool σ) < MaxSimultaneousRequest ∧
     maxIDReached (pool σ') = wrap16 (maxIDReached (pool σ) + 1)).
Proof.
  intros Hmu Hcl. split_and!.
  - intros b. destruct (exec_total σ (Call_Release b) Hmu Hcl) as (e & σ' & Hex).
    { intros w [=]. }
    pose proof (exec_call _ _ _ _ Hex) as Hc.
    pose proof (exec_path _ _ _ _ Hmu Hcl Hex) as Hpath.
    exists σ'. split.
    + unfold exec, bind in Hex. destruct (Release b σ) as [[] σ1|]; [|discriminate].
      injection Hex as _ <-. reflexivity.
    + destruct Hpath; try discriminate; reflexivity.
  - intros id rest Hstk. eexists.
    split; [apply (Reserve_pop σ id rest); assumption|].
    split_and!; reflexivity.
  - intros c e σ' Hex Hne.
    pose proof (exec_call _ _ _ _ Hex) as Hc.
    pose proof (exec_path _ _ _ _ Hmu Hcl Hex) as Hpath.
    destruct Hpath as [σ id rest Hstk|σ Hstk Hlt|σ Hstk Hge|σ w n Hr Hw Hd
                      |σ w n Hr Hw Hd|σ b Hnil|σ b w Hhd];
      try (destruct Hne; reflexivity).
    + split_and!; try assumption. reflexivity.

Qed.

Lemma high_water_mark_frame_witness :
  ∃ σ', Release (x00, x05) (minted 9) = Ok () σ' ∧
        maxIDReached (pool σ') = maxIDReached (pool (minted 9)).
Proof.
  apply (proj1 (high_water_mark_frame (minted 9) eq_refl
                  (proj1 (proj2 (settled_minted 9 ltac:(vm_compute; split; discriminate)))))).
Defined.

(** ** The order in which waiters are served *)

Lemma settled_exec σ c e σ' : settled σ -> exec c σ = Ok e σ' -> settled σ'.
Proof.
  intros Hset Hex. apply (settled_path σ e); [exact Hset|].
  apply (exec_path σ c); [apply Hset..|exact Hex].
Qed.

Lemma enqueue_lookup_head a h n :
  h !! a = Some n ->
  enqueue (Some a) h !! a = Some (set_previous (Some (length h)) n).
Proof.
  intros Ha. unfold enqueue. rewrite list_lookup_alter_eq.
  rewrite lookup_app_l by (eapply lookup_lt_Some; exact Ha).
  rewrite Ha. reflexivity.
Qed.

(** C2. Waiters are served last in, first out.  A [Reserve] that has to
    wait puts its waiter at the head of the queue, in front of the former
    head; [Release] serves the head of the queue and gives it the very
    value it was called with; in every state reached from the fresh pool
    that head is the caller that blocked last among those still waiting.
    So when the pool is exhausted and the free stack empty, and a call R1
    and then a call R2 have parked, one [Release] wakes both: R1 finds
    nothing for it and waits again, R2 returns the released identifier,
    and R1 is left in the queue. *)
Theorem waiters_served_last_in_first_out σ b :
  reachable σ ->
  (∀ w, waitList (pool σ) = Some w ->
     waiting σ w ∧ ∀ a, waiting σ a -> (a <= w)%nat) ∧
  (∀ w, waitList (pool σ) = Some w ->
     ∃ n, heap σ !! w = Some n ∧
          Release b σ = Ok () (Release_handed (bytes.CombineTwoBytes b) w σ) ∧
          heap (Release_handed (bytes.CombineTwoBytes b) w σ) !! w
          = Some (set_done true (set_value (bytes.CombineTwoBytes b) n)) ∧
          waitList (pool (Release_handed (bytes.CombineTwoBytes b) w σ)) = next n) ∧
  (stack (pool σ) = [] -> MaxSimultaneousRequest <= maxIDReached (pool σ) ->
   let w1 := length (heap σ) in
   let w2 := S (length (heap σ)) in
   (Reserve σ = Ok (Suspended w1) (Reserve_parked σ) ∧
    waitList (pool (Reserve_parked σ)) = Some w1 ∧
    heap (Reserve_parked σ) !! w1
    = Some {| value := 0; done := false;
              next := waitList (pool σ); previous := None |}) ∧
   ∃ σ', run [Call_Reserve; Call_Reserve; Call_Release b;
              Call_Resume w1; Call_Resume w2] σ
         = Ok [Ev_Reserve (Suspended w1); Ev_Reserve (Suspended w2);
               Ev_Release b; Ev_Resume w1 (Suspended w1);
               Ev_Resume w2 (Issued (NewPacketIDFromBytes b))] σ' ∧
         waitList (pool σ') = Some w1 ∧
         ∃ n1, heap σ' !! w1 = Some n1 ∧ done n1 = false).
Proof.
  intros Hre. pose proof (reachable_settled σ Hre) as Hset.
  pose proof Hset as (Hmu & (Hwl & Hc & Hp) & Hnd & Hmax).
  split; [intros w Hhd; apply (reachable_head_latest σ w Hre Hhd)|]. split.
  { intros w Hhd. specialize (Hwl w Hhd).
    destruct (lookup_lt_is_Some_2 _ _ Hwl) as [n Hn]. exists n.
    split_and!; [exact Hn|apply Release_hand; assumption| |].
    - simpl. rewrite list_lookup_alter_eq, Hn. reflexivity.
    - simpl. rewrite Hn. reflexivity. }
  intros Hstk Hsat w1 w2.
  set (id := bytes.CombineTwoBytes b).
  set (new1 := {| value := 0; done := false;
                  next := waitList (pool σ); previous := None |}).
  (* R1 parks *)
  pose proof (Reserve_park σ Hmu Hstk Hsat Hwl) as E1. fold w1 in E1.
  set (σ1 := Reserve_parked σ) in *.
  assert (heap σ1 !! w1 = Some new1) as H1w1.
  { apply enqueue_lookup_new, Hwl. }
  assert (length (heap σ1) = w2) as Hlen1.
  { apply enqueue_length. }
  pose proof (settled_exec _ _ _ _ Hset (exec_Reserve _ _ _ E1)) as Hset1.
  split; [split_and!; [exact E1|reflexivity|exact H1w1]|].
  (* R2 parks *)
  assert (Reserve σ1 = Ok (Suspended w2) (Reserve_parked σ1)) as E2.
  { rewrite <- Hlen1. apply Reserve_park; [apply Hset1|exact Hstk|exact Hsat|].
    apply Hset1. }
  set (σ2 := Reserve_parked σ1) in *.
  pose proof (settled_exec _ _ _ _ Hset1 (exec_Reserve _ _ _ E2)) as Hset2.
  assert (heap σ2 !! w2 = Some {| value := 0; done := false;
                                  next := Some w1; previous := None |}) as H2w2.
  { change (heap σ2) with (enqueue (Some w1) (heap σ1)). rewrite <- Hlen1.
    apply enqueue_lookup_new. intros a [= <-].
    eapply lookup_lt_Some. exact H1w1. }
  assert (heap σ2 !! w1 = Some (set_previous (Some w2) new1)) as H2w1.
  { change (heap σ2) with (enqueue (Some w1) (heap σ1)). rewrite <- Hlen1.
    apply enqueue_lookup_head, H1w1. }
  (* the release *)
  assert (Release b σ2 = Ok () (Release_handed id w2 σ2)) as E3.
  { apply Release_hand; [apply Hset2| |].
    { change (Some (length (heap σ1)) = Some w2). rewrite Hlen1. reflexivity. }
    eapply lookup_lt_Some. exact H2w2. }
  set (σ3 := Release_handed id w2 σ2) in *.
  pose proof (settled_exec _ _ _ _ Hset2 (exec_Release _ _ _ E3)) as Hset3.
  assert (w1 ≠ w2) as Hne by (unfold w1, w2; lia).
  assert (heap σ3 !! w1 = Some (set_previous (Some w2) new1)) as H3w1.
  { change (heap σ3)
      with (alter (λ n, set_done true (set_value id n)) w2 (heap σ2)).
    rewrite list_lookup_alter_ne by auto. exact H2w1. }
  assert (heap σ3 !! w2
          = Some {| value := id; done := true;
                    next := Some w1; previous := None |}) as H3w2.
  { change (heap σ3)
      with (alter (λ n, set_done true (set_value id n)) w2 (heap σ2)).
    rewrite list_lookup_alter_eq, H2w2. reflexivity. }
  assert (waitList (pool σ3) = Some w1) as H3hd.
  { change (waitList (pool σ3)) with (heap σ2 !! w2 ≫= next).
    rewrite H2w2. reflexivity. }
  assert (w1 ∈ runnable σ3 ∧ w2 ∈ runnable σ3) as [H3r1 H3r2].
  { change (runnable σ3)
      with (runnable σ ++ (cond (pool σ) ++ [w1]) ++ [length (heap σ1)]).
    rewrite Hlen1, !elem_of_app, !list_elem_of_singleton. auto. }
  (* R1 is woken and waits again *)
  pose proof (Resume_repark σ3 w1 _ (proj1 Hset3) H3r1 H3w1 eq_refl) as E4.
  set (σ4 := on_pool (λ p, set_cond (cond p ++ [w1]) p)
               (on_runnable (filter (λ a, a ≠ w1)) σ3)) in *.
  pose proof (settled_exec _ _ _ _ Hset3 (exec_Resume _ _ _ _ E4)) as Hset4.
  (* R2 is woken and returns *)
  assert (w2 ∈ runnable σ4) as H4r2.
  { change (runnable σ4) with (filter (λ a, a ≠ w1) (runnable σ3)).
    apply list_elem_of_filter. split; [auto|exact H3r2]. }
  pose proof (Resume_granted σ4 w2 _ (proj1 Hset4)
                (proj1 (proj2 (proj1 (proj2 Hset4)))) H4r2 H3w2 eq_refl) as E5.
  pose proof (relinked_returned σ4 w2 (proj1 (proj2 (proj1 (proj2 Hset4)))))
    as Hrel.
  set (σ5 := Resume_returned w2 σ4) in *.
  exists σ5. split_and!.
  - eapply run_cons; [apply exec_Reserve, E1|].
    eapply run_cons; [apply exec_Reserve, E2|].
    eapply run_cons; [apply exec_Release, E3|].
    eapply run_cons; [apply exec_Resume, E4|].
    eapply run_cons; [apply exec_Resume, E5|]. reflexivity.
  - exact H3hd.
  - destruct Hrel as (_ & Hpay & _). simpl in Hpay.
    destruct (payload_lookup _ _ _ _ Hpay H3w1) as (n1 & Hn1 & _ & Hd).
    exists n1. split; [exact Hn1|]. rewrite Hd. reflexivity.
Qed.

Lemma waiters_served_last_in_first_out_witness :
  ∃ σ', run [Call_Reserve; Call_Reserve; Call_Release (x01, x02);
             Call_Resume 0%nat; Call_Resume 1%nat] (minted 65535)
        = Ok [Ev_Reserve (Suspended 0%nat); Ev_Reserve (Suspended 1%nat);
              Ev_Release (x01, x02); Ev_Resume 0%nat (Suspended 0%nat);
              Ev_Resume 1%nat (Issued (NewPacketIDFromBytes (x01, x02)))] σ' ∧
        waitList (pool σ') = Some 0%nat ∧
        ∃ n1, heap σ' !! 0%nat = Some n1 ∧ done n1 = false.
Proof.
  apply (proj2 (proj2 (waiters_served_last_in_first_out
                         (minted 65535) (x01, x02)
                         (reachable_minted 65535
                            ltac:(vm_compute; split; discriminate))))
           eq_refl ltac:(vm_compute; discriminate)).
Defined.

(** * Further properties of the pool *)

(** ** The size counters *)

Lemma wrap64_small z :
  -9223372036854775808 <= z < 9223372036854775808 -> wrap64 z = z.
Proof. intros Hz. unfold wrap64. rewrite Z.mod_small by lia. lia. Qed.

Lemma wrap64_add z k : wrap64 (wrap64 z + k) = wrap64 (z + k).
Proof.
  unfold wrap64.
  replace ((z + 9223372036854775808) mod 18446744073709551616
           - 9223372036854775808 + k + 9223372036854775808)
    with ((z + 9223372036854775808) mod 18446744073709551616 + k) by lia.
  rewrite Z.add_mod_idemp_l by lia. f_equal. f_equal. lia.
Qed.

Lemma wrap64_sub z k : wrap64 (wrap64 z - k) = wrap64 (z - k).
Proof. rewrite <- !Z.add_opp_r. apply wrap64_add. Qed.

Lemma counted_path σ e σ' : settled σ -> counted σ -> path σ e σ' -> counted σ'.
Proof.
  intros (_ & _ & Hnd & _) [Hs Hw] Hpath. unfold counted.
  destruct Hpath as [σ id rest Hstk|σ Hstk Hlt|σ Hstk Hge|σ w n Hr Hw' Hd
                    |σ w n Hr Hw' Hd|σ b Hnil|σ b w Hhd]; simpl.
  - rewrite Hstk in Hs. simpl length in Hs. split; [|exact Hw].
    rewrite Hs, wrap64_sub. f_equal. lia.
  - split; assumption.
  - split; [exact Hs|]. unfold parked in *. simpl.
    rewrite Hw, wrap64_add. f_equal. rewrite !length_app. simpl. lia.
  - split; [exact Hs|]. unfold parked at 1. simpl.
    rewrite (parked_repark σ w Hnd Hr). exact Hw.
  - split; [exact Hs|]. unfold parked at 1. simpl.
    rewrite Hw, wrap64_sub. f_equal.
    rewrite (parked_granted σ w Hnd Hr). simpl. lia.
  - split; [|exact Hw]. rewrite Hs, wrap64_add. f_equal. simpl. lia.
  - split; [exact Hs|]. unfold parked in *. simpl.
    rewrite Hw. f_equal. rewrite !length_app. simpl. lia.
Qed.

Lemma reachable_counted σ : reachable σ -> counted σ.
Proof.
  induction 1 as [|σ c e σ' Hre IH Hex]; [split; reflexivity|].
  pose proof (reachable_settled σ Hre) as Hset.
  apply (counted_path σ e σ' Hset IH).
  apply (exec_path σ c); [apply Hset..|exact Hex].
Qed.

(** ** Conservation of the identifiers *)

Lemma wellbehaved_reachable σ held : wellbehaved σ held -> reachable σ.
Proof.
  induction 1 as [|σ held c e σ' held' _ IH Hex _]; [apply reachable_New|].
  apply (reachable_step σ c e σ' IH Hex).
Qed.

Lemma linked_head_waiting σ q w :
  linked σ q -> waitList (pool σ) = Some w -> waiting σ w.
Proof.
  intros (Hch & _ & Hin & _) Hhd. rewrite Hhd in Hch.
  destruct (chain_head _ _ _ Hch) as [q' ->]. apply Hin, elem_of_cons. auto.
Qed.

(** A step mints one identifier or moves one: nothing else gets into
    circulation and nothing gets out of it. *)
Lemma circulating_path σ q e σ' held held' :
  settled σ -> linked σ q -> path σ e σ' -> hands e held held' ->
  (maxIDReached (pool σ') = maxIDReached (pool σ) ∧
   circulating σ' held' ≡ₚ circulating σ held) ∨
  (maxIDReached (pool σ) < MaxSimultaneousRequest ∧
   maxIDReached (pool σ') = maxIDReached (pool σ) + 1 ∧
   circulating σ' held' ≡ₚ circulating σ held ++ [maxIDReached (pool σ) + 1]).
Proof.
  intros (Hmu & Hcl & Hpk & Hmax) Hl Hpath Hh. unfold circulating.
  destruct Hpath as [σ id rest Hstk|σ Hstk Hlt|σ Hstk Hge|σ w n Hr Hw Hd
                    |σ w n Hr Hw Hd|σ b Hnil|σ b w Hhd];
    simpl in Hh.
  - left. subst held'. split; [reflexivity|].
    rewrite Hstk. simpl. rewrite <- Permutation_middle. reflexivity.
  - right. subst held'. unfold MaxSimultaneousRequest in *. simpl.
    rewrite wrap16_small by lia. split_and!; [lia|reflexivity|].
    rewrite Hstk. apply Permutation_cons_append.
  - left. subst held'. split; [reflexivity|].
    rewrite (pending_park σ Hcl). reflexivity.
  - left. subst held'. split; [reflexivity|].
    unfold pending at 1, parked at 1. simpl.
    rewrite (parked_repark σ w Hpk Hr). reflexivity.
  - left. subst held'. split; [reflexivity|].
    pose proof (relinked_returned σ w (proj1 (proj2 Hcl))) as Hrel.
    rewrite (pending_relinked _ _ Hrel).
    unfold pending at 2. rewrite (parked_granted σ w Hpk Hr), bind_cons.
    assert (granted (heap σ) w = [value n]) as ->.
    { unfold granted. rewrite Hw, Hd. reflexivity. }
    unfold pending, parked. simpl.
    rewrite <- !Permutation_middle. reflexivity.
  - left. destruct Hh as (h1 & h2 & -> & ->). split; [reflexivity|].
    simpl. rewrite <- !app_assoc. simpl.
    rewrite <- !Permutation_middle. reflexivity.
  - left. destruct Hh as (h1 & h2 & -> & ->). split; [reflexivity|].
    rewrite (pending_hand_waiting _ w σ Hpk (linked_head_waiting σ q w Hl Hhd)).
    change (stack (pool (Release_handed (bytes.CombineTwoBytes b) w σ)))
      with (stack (pool σ)).
    rewrite <- !app_assoc. simpl.
    rewrite <- !Permutation_middle. reflexivity.
Qed.

Lemma wellbehaved_conserved σ held :
  wellbehaved σ held ->
  circulating σ held ≡ₚ seqZ 1 (maxIDReached (pool σ)).
Proof.
  induction 1 as [|σ held c e σ' held' Hwb IH Hex Hh]; [reflexivity|].
  pose proof (wellbehaved_settled _ _ Hwb) as Hset.
  destruct (reachable_linked σ (wellbehaved_reachable _ _ Hwb)) as [q Hl].
  pose proof (exec_path σ c e σ' (proj1 Hset) (proj1 (proj2 Hset)) Hex) as Hpath.
  destruct (circulating_path σ q e σ' held held' Hset Hl Hpath Hh)
    as [[Hm Hc]|(Hlt & Hm & Hc)].
  - rewrite Hc, Hm. exact IH.
  - rewrite Hc, Hm, IH. destruct Hset as (_ & _ & _ & H0 & _).
    rewrite seqZ_app by lia.
    replace (seqZ (1 + maxIDReached (pool σ)) 1)
      with [maxIDReached (pool σ) + 1]; [reflexivity|].
    unfold seqZ. simpl. f_equal. lia.
Qed.

(** ** Wake-ups *)

Lemma awake_path σ e σ' : settled σ -> awake σ -> path σ e σ' -> awake σ'.
Proof.
  intros (_ & (Hwl & Hc & Hp) & _) Haw Hpath. unfold awake.
  destruct Hpath as [σ id rest Hstk|σ Hstk Hlt|σ Hstk Hge|σ w n Hr Hw Hd
                    |σ w n Hr Hw Hd|σ b Hnil|σ b w Hhd]; simpl.
  - exact Haw.
  - exact Haw.
  - intros a n' Ha Hn'.
    apply (enqueue_lookup_inv _ _ _ _ Hwl) in Hn'
      as [[_ ->]|(n & Hn & _ & Hd & _)]; [reflexivity|].
    rewrite Hd. apply elem_of_app in Ha as [Ha|Ha].
    + apply (Haw a n Ha Hn).
    + apply list_elem_of_singleton in Ha as ->.
      apply lookup_lt_Some in Hn. lia.
  - intros a n' Ha Hn'. apply elem_of_app in Ha as [Ha|Ha].
    + apply (Haw a n' Ha Hn').
    + apply list_elem_of_singleton in Ha as ->. congruence.
  - intros a n' Ha Hn'.
    destruct (relinked_unlink σ w Hc) as (_ & Hpay & _). simpl in Hpay.
    apply lookup_lt_Some in Hn' as Hlt.
    rewrite (payload_length _ _ Hpay) in Hlt.
    destruct (lookup_lt_is_Some_2 _ _ Hlt) as [m Hm].
    destruct (payload_lookup _ _ _ _ Hpay Hm) as (m' & Hm' & _ & Hd').
    rewrite Hn' in Hm'. injection Hm' as <-. rewrite Hd'.
    apply (Haw a m Ha Hm).
  - exact Haw.
  - intros a n' Ha. apply elem_of_nil in Ha as [].
Qed.

Lemma reachable_awake σ : reachable σ -> awake σ.
Proof.
  induction 1 as [|σ c e σ' Hre IH Hex].
  - intros a n Ha. apply elem_of_nil in Ha as [].
  - pose proof (reachable_settled σ Hre) as Hset.
    apply (awake_path σ e σ' Hset IH).
    apply (exec_path σ c); [apply Hset..|exact Hex].
Qed.

(** ** Waiting only when exhausted *)

Lemma exhausted_path σ e σ' :
  settled σ -> exhausted_when_queued σ -> path σ e σ' ->
  exhausted_when_queued σ' ∧ maxIDReached (pool σ) <= maxIDReached (pool σ').
Proof.
  intros (_ & _ & _ & Hmax) Hex Hpath. unfold exhausted_when_queued in *.
  destruct Hpath as [σ id rest Hstk|σ Hstk Hlt|σ Hstk Hge|σ w n Hr Hw Hd
                    |σ w n Hr Hw Hd|σ b Hnil|σ b w Hhd]; simpl;
    unfold MaxSimultaneousRequest in *.
  - split; [exact Hex|lia].
  - rewrite wrap16_small by lia. split; [|lia].
    intros Hq. specialize (Hex Hq). lia.
  - split; [intros _; exact Hge|lia].
  - split; [exact Hex|lia].
  - split; [exact Hex|lia].
  - split; [exact Hex|lia].
  - split; [|lia]. intros _. apply Hex. congruence.
Qed.

Lemma reachable_exhausted σ : reachable σ -> exhausted_when_queued σ.
Proof.
  induction 1 as [|σ c e σ' Hre IH Hex]; [intros []; reflexivity|].
  pose proof (reachable_settled σ Hre) as Hset.
  apply (exhausted_path σ e σ' Hset IH).
  apply (exec_path σ c); [apply Hset..|exact Hex].
Qed.

Lemma run_monotone cs : ∀ σ es σ',
  settled σ -> run cs σ = Ok es σ' ->
  maxIDReached (pool σ) <= maxIDReached (pool σ').
Proof.
  induction cs as [|c cs IH]; intros σ es σ' Hset Hrun.
  - injection Hrun as _ <-. lia.
  - apply run_cons_inv in Hrun as (e & σ1 & es' & Hex & Hrun & _).
    pose proof (exec_path σ c e σ1 (proj1 Hset) (proj1 (proj2 Hset)) Hex) as Hp.
    assert (maxIDReached (pool σ) <= maxIDReached (pool σ1)) as H1.
    { destruct Hp; simpl; try lia.
      destruct Hset as (_ & _ & _ & Hmax). unfold MaxSimultaneousRequest in *.
      rewrite wrap16_small; lia. }
    specialize (IH σ1 es' σ' (settled_path σ e σ1 Hset Hp) Hrun). lia.
Qed.

Lemma wellbehaved_minted (n : Z) :
  0 <= n <= MaxSimultaneousRequest ->
  wellbehaved (minted n) (reverse (seqZ 1 n)).
Proof.
  intros Hn. rewrite <- (Z2Nat.id n) by lia.
  assert (Z.of_nat (Z.to_nat n) <= MaxSimultaneousRequest) as Hb by lia.
  clear Hn. induction (Z.to_nat n) as [|k IH]; [apply wellbehaved_New|].
  unfold MaxSimultaneousRequest in *.
  apply (wellbehaved_step (minted (Z.of_nat k)) (reverse (seqZ 1 (Z.of_nat k)))
           Call_Reserve
           (Ev_Reserve (Issued {| Value := Z.of_nat k + 1 |}))).
  - apply IH. lia.
  - apply exec_Reserve.
    rewrite (Reserve_mint_next (minted (Z.of_nat k)));
      [|reflexivity|reflexivity|unfold MaxSimultaneousRequest; simpl; lia].
    simpl. unfold minted, on_pool. simpl. rewrite Nat2Z.inj_succ.
    unfold Z.succ. reflexivity.
  - simpl. rewrite seqZ_S, reverse_app. simpl. f_equal. lia.
Qed.

Lemma reachable_first_waiter : reachable (Reserve_parked (minted 65535)).
Proof.
  apply (reachable_step (minted 65535) Call_Reserve
           (Ev_Reserve (Suspended 0%nat))).
  - apply reachable_minted. vm_compute. split; discriminate.
  - reflexivity.
Qed.

Lemma waiting_first_waiter : waiting (Reserve_parked (minted 65535)) 0%nat.
Proof.
  split; [apply elem_of_cons; auto|].
  eexists. split; reflexivity.
Qed.

(** ** The properties *)

(** X1. The size counters are exact.  In every state reached from the
    fresh pool [GetStackSize] returns the number of entries of the free
    stack and [GetWaitListSize] the number of [Reserve] calls that are
    suspended (whether or not they have been served yet), both as
    [int64], that is up to wrap-around at 2^63. *)
Theorem size_counters_exact σ :
  reachable σ ->
  GetStackSize σ
  = Ok (wrap64 (Z.of_nat (length (stack (pool σ))))) (on_unguarded S σ) ∧
  GetWaitListSize σ
  = Ok (wrap64 (Z.of_nat (length (parked σ)))) (on_unguarded S σ) ∧
  (Z.of_nat (length (stack (pool σ))) < 9223372036854775808 ->
   stackSize (pool σ) = Z.of_nat (length (stack (pool σ)))) ∧
  (Z.of_nat (length (parked σ)) < 9223372036854775808 ->
   waitListSize (pool σ) = Z.of_nat (length (parked σ))).
Proof.
  intros Hre. destruct (reachable_counted σ Hre) as [Hs Hw].
  destruct (reachable_settled σ Hre) as (Hmu & _).
  split_and!.
  - unfold GetStackSize, load, bind, access. rewrite Hmu, <- Hs. reflexivity.
  - unfold GetWaitListSize, load, bind, access. rewrite Hmu, <- Hw. reflexivity.
  - intros Hlt. rewrite Hs. apply wrap64_small. lia.
  - intros Hlt. rewrite Hw. apply wrap64_small. lia.
Qed.

Lemma size_counters_exact_witness :
  GetStackSize (Reserve_parked (minted 65535))
  = Ok (wrap64 (Z.of_nat (length (stack (pool (Reserve_parked (minted 65535)))))))
       (on_unguarded S (Reserve_parked (minted 65535))) ∧
  GetWaitListSize (Reserve_parked (minted 65535))
  = Ok (wrap64 (Z.of_nat (length (parked (Reserve_parked (minted 65535))))))
       (on_unguarded S (Reserve_parked (minted 65535))).
Proof.
  assert (reachable (Reserve_parked (minted 65535))) as Hre.
  { apply (reachable_step (minted 65535) Call_Reserve
             (Ev_Reserve (Suspended 0%nat))).
    - apply reachable_minted. vm_compute. split; discriminate.
    - reflexivity. }
  destruct (size_counters_exact _ Hre) as (H1 & H2 & _).
  split; [exact H1|exact H2].
Defined.

(** X2. The high-water mark only grows and never passes 65535: along
    every run of calls from a reachable state [maxIDReached] at the end
    is at least what it was at the start, and at most 65535. *)
Theorem high_water_mark_monotone σ cs es σ' :
  reachable σ -> run cs σ = Ok es σ' ->
  0 <= maxIDReached (pool σ) ∧
  maxIDReached (pool σ) <= maxIDReached (pool σ') ∧
  maxIDReached (pool σ') <= 65535.
Proof.
  intros Hre Hrun. pose proof (reachable_settled σ Hre) as Hset.
  pose proof (reachable_settled σ' (reachable_run cs σ es σ' Hre Hrun))
    as (_ & _ & _ & Hmax').
  destruct Hset as (Hmu & Hcl & Hnd & Hmax).
  unfold MaxSimultaneousRequest in *. split_and!; try lia.
  apply (run_monotone cs σ es σ'); [|exact Hrun].
  unfold settled, MaxSimultaneousRequest. auto.
Qed.

Lemma high_water_mark_monotone_witness :
  0 <= maxIDReached (pool New) ∧
  maxIDReached (pool New) <= maxIDReached (pool (minted 2)) ∧
  maxIDReached (pool (minted 2)) <= 65535.
Proof.
  apply (high_water_mark_monotone New
           [Call_Reserve; Call_Release (x00, x01); Call_Reserve; Call_Reserve]
           [Ev_Reserve (Issued (NewPacketID 1)); Ev_Release (x00, x01);
            Ev_Reserve (Issued (NewPacketID 1)); Ev_Reserve (Issued (NewPacketID 2))]).
  - apply reachable_New.
  - vm_compute. reflexivity.
Defined.

(** X3. No call panics.  In every state reached from the fresh pool the
    mutex is free and every pointer of the waiter queue is [nil] or
    leads to an allocated node, and [Reserve], [Release] and the
    resumption of any woken waiter run to their end: no [nil] is
    dereferenced, in the unlinking of lines 118-123 in particular, and
    no unlocked mutex is unlocked. *)
Theorem calls_never_panic σ :
  reachable σ ->
  mu (pool σ) = false ∧ closed σ ∧
  (∃ o σ', Reserve σ = Ok o σ') ∧
  (∀ b, ∃ σ', Release b σ = Ok () σ') ∧
  (∀ w, w ∈ runnable σ -> ∃ o σ', Resume w σ = Ok o σ').
Proof.
  intros Hre. destruct (reachable_settled σ Hre) as (Hmu & Hcl & _).
  split_and!; try assumption.
  - destruct (exec_total σ Call_Reserve Hmu Hcl) as (e & σ' & Hex);
      [intros w [=]|].
    unfold exec, bind in Hex. destruct (Reserve σ) as [o σ1|]; [eauto|discriminate].
  - intros b.
    destruct (exec_total σ (Call_Release b) Hmu Hcl) as (e & σ' & Hex);
      [intros w [=]|].
    unfold exec, bind in Hex.
    destruct (Release b σ) as [[] σ1|]; [eauto|discriminate].
  - intros w Hw.
    destruct (exec_total σ (Call_Resume w) Hmu Hcl) as (e & σ' & Hex);
      [intros w' [= <-]; exact Hw|].
    unfold exec, bind in Hex.
    destruct (Resume w σ) as [o σ1|]; [eauto|discriminate].
Qed.

Lemma calls_never_panic_witness :
  ∃ o σ', Reserve (Reserve_parked (minted 65535)) = Ok o σ'.
Proof.
  refine (proj1 (proj2 (proj2 (calls_never_panic (Reserve_parked (minted 65535)) _)))).
  apply (reachable_step (minted 65535) Call_Reserve
           (Ev_Reserve (Suspended 0%nat))).
  - apply reachable_minted. vm_compute. split; discriminate.
  - reflexivity.
Defined.

(** X4. Conservation.  As long as callers release only identifiers they
    hold, each at most once, the identifiers held by callers, those on
    the free stack and those given to waiters that have yet to return
    are together exactly 1, 2, ..., [maxIDReached], each once: no minted
    identifier is lost and none is in two places. *)
Theorem identifiers_conserved σ held :
  wellbehaved σ held ->
  held ++ stack (pool σ) ++ pending σ ≡ₚ seqZ 1 (maxIDReached (pool σ)) ∧
  Z.of_nat (length held + length (stack (pool σ)) + length (pending σ))
  = maxIDReached (pool σ).
Proof.
  intros Hwb. pose proof (wellbehaved_conserved σ held Hwb) as Hperm.
  unfold circulating in Hperm. split; [exact Hperm|].
  destruct (wellbehaved_settled σ held Hwb) as (_ & _ & _ & H0 & _).
  apply Permutation_length in Hperm.
  rewrite !length_app, length_seqZ in Hperm. lia.
Qed.

Lemma identifiers_conserved_witness :
  [3; 2] ++ stack (pool (on_pool (λ p, set_stackSize 1 (set_stack [1] p)) (minted 3)))
    ++ pending (on_pool (λ p, set_stackSize 1 (set_stack [1] p)) (minted 3))
    ≡ₚ seqZ 1 3.
Proof.
  refine (proj1 (identifiers_conserved
                   (on_pool (λ p, set_stackSize 1 (set_stack [1] p)) (minted 3))
                   [3; 2] _)).
  apply (wellbehaved_step (minted 3) [3; 2; 1]
           (Call_Release (x00, x01)) (Ev_Release (x00, x01)));
    [|reflexivity|exists [3; 2], []; split; reflexivity].
  apply (wellbehaved_minted 3). vm_compute. split; discriminate.
Defined.

(** X5. [Reserve] makes its caller wait only when all 65535 identifiers
    are in flight: if callers keep to the contract and a [Reserve] call
    parks, then the identifiers held by callers together with those
    given to waiters that have yet to return are exactly 1..65535. *)
Theorem Reserve_waits_only_when_all_in_flight σ held w σ' :
  wellbehaved σ held -> Reserve σ = Ok (Suspended w) σ' ->
  held ++ pending σ ≡ₚ seqZ 1 65535 ∧
  Z.of_nat (length held + length (pending σ)) = 65535.
Proof.
  intros Hwb Heq.
  destruct (wellbehaved_settled σ held Hwb) as (Hmu & Hcl & _ & _ & Hmax).
  apply exec_Reserve, (exec_path σ _ _ _ Hmu Hcl) in Heq.
  inversion Heq as [| |? Hstk Hge| | | |]; subst.
  unfold MaxSimultaneousRequest in *.
  destruct (identifiers_conserved σ held Hwb) as [Hperm Hlen].
  rewrite Hstk in Hperm, Hlen. simpl in Hperm, Hlen.
  assert (maxIDReached (pool σ) = 65535) as Hm by lia.
  rewrite Hm in Hperm, Hlen. split; [exact Hperm|lia].
Qed.

Lemma Reserve_waits_only_when_all_in_flight_witness :
  reverse (seqZ 1 65535) ++ pending (minted 65535) ≡ₚ seqZ 1 65535.
Proof.
  refine (proj1 (Reserve_waits_only_when_all_in_flight
                   (minted 65535) (reverse (seqZ 1 65535)) 0%nat
                   (Reserve_parked (minted 65535)) _ _)).
  - apply (wellbehaved_minted 65535). vm_compute. split; discriminate.
  - apply (Reserve_park (minted 65535)).
    + reflexivity.
    + reflexivity.
    + vm_compute. discriminate.
    + intros a [=].
Defined.

(** X6. Quiescent accounting.  When callers have kept to the contract,
    hold nothing any more and no [Reserve] call is suspended, the free
    stack holds exactly the identifiers 1..[maxIDReached], each once,
    and its size counter equals [maxIDReached]. *)
Theorem quiescent_accounting σ :
  wellbehaved σ [] -> parked σ = [] ->
  stack (pool σ) ≡ₚ seqZ 1 (maxIDReached (pool σ)) ∧
  stackSize (pool σ) = maxIDReached (pool σ).
Proof.
  intros Hwb Hpk. destruct (identifiers_conserved σ [] Hwb) as [Hperm Hlen].
  assert (pending σ = []) as Hpe by (unfold pending; rewrite Hpk; reflexivity).
  rewrite Hpe in Hperm, Hlen. rewrite app_nil_r in Hperm. simpl in Hperm, Hlen.
  split; [exact Hperm|].
  destruct (reachable_counted σ (wellbehaved_reachable σ [] Hwb)) as [Hs _].
  destruct (wellbehaved_settled σ [] Hwb) as (_ & _ & _ & H0 & Hmax).
  unfold MaxSimultaneousRequest in Hmax.
  rewrite Hs. rewrite wrap64_small; lia.
Qed.

Lemma quiescent_accounting_witness :
  stack (pool (on_pool (λ p, set_stackSize 2 (set_stack [1; 2] p)) (minted 2)))
    ≡ₚ seqZ 1 2 ∧
  stackSize (pool (on_pool (λ p, set_stackSize 2 (set_stack [1; 2] p)) (minted 2)))
  = 2.
Proof.
  apply (quiescent_accounting
           (on_pool (λ p, set_stackSize 2 (set_stack [1; 2] p)) (minted 2)));
    [|reflexivity].
  apply (wellbehaved_step
           (on_pool (λ p, set_stackSize 1 (set_stack [2] p)) (minted 2)) [1]
           (Call_Release (x00, x01)) (Ev_Release (x00, x01)));
    [|reflexivity|exists [], []; split; reflexivity].
  apply (wellbehaved_step (minted 2) [2; 1]
           (Call_Release (x00, x02)) (Ev_Release (x00, x02)));
    [|reflexivity|exists [], [1]; split; reflexivity].
  apply (wellbehaved_minted 2). vm_compute. split; discriminate.
Defined.

(** X7. No wake-up is lost.  In every state reached from the fresh pool a
    suspended [Reserve] whose waiter has been served has been woken by
    the [Broadcast] of that [Release], and when it runs it returns the
    value it was given. *)
Theorem served_waiter_returns σ a n :
  reachable σ -> a ∈ parked σ -> heap σ !! a = Some n -> done n = true ->
  a ∈ runnable σ ∧
  Resume a σ = Ok (Issued {| Value := value n |}) (Resume_returned a σ).
Proof.
  intros Hre Ha Hn Hd.
  destruct (reachable_settled σ Hre) as (Hmu & (_ & Hc & _) & _).
  assert (a ∈ runnable σ) as Hr.
  { apply elem_of_app in Ha as [Ha|Ha]; [|exact Ha].
    pose proof (reachable_awake σ Hre a n Ha Hn). congruence. }
  split; [exact Hr|]. apply Resume_granted; assumption.
Qed.

Lemma served_waiter_returns_witness :
  0%nat ∈ runnable (Release_handed 258 0%nat (Reserve_parked (minted 65535))) ∧
  Resume 0%nat (Release_handed 258 0%nat (Reserve_parked (minted 65535)))
  = Ok (Issued {| Value := 258 |})
       (Resume_returned 0%nat
          (Release_handed 258 0%nat (Reserve_parked (minted 65535)))).
Proof.
  apply (served_waiter_returns
           (Release_handed 258 0%nat (Reserve_parked (minted 65535))) 0%nat
           {| value := 258; done := true; next := None; previous := None |}).
  - apply (reachable_step (Reserve_parked (minted 65535))
             (Call_Release (x01, x02)) (Ev_Release (x01, x02)));
      [apply reachable_first_waiter|reflexivity].
  - apply elem_of_cons. auto.
  - reflexivity.
  - reflexivity.
Defined.

(** X8. A release unblocks the head waiter with the released value.  In
    every state reached from the fresh pool in which a waiter is queued,
    [Release] followed by the resumption of the waiter at the head makes
    that [Reserve] return exactly the released value, while every other
    caller still waiting, woken by the same [Broadcast], goes back to
    waiting. *)
Theorem release_unblocks_head_waiter σ b w :
  reachable σ -> waitList (pool σ) = Some w ->
  (∃ σ', run [Call_Release b; Call_Resume w] σ
         = Ok [Ev_Release b; Ev_Resume w (Issued (NewPacketIDFromBytes b))] σ') ∧
  (∀ a, waiting σ a -> a ≠ w ->
     ∃ σ', run [Call_Release b; Call_Resume a] σ
           = Ok [Ev_Release b; Ev_Resume a (Suspended a)] σ').
Proof.
  intros Hre Hhd. pose proof (reachable_settled σ Hre) as Hset.
  destruct Hset as (Hmu & (Hwl & Hc & Hp) & Hnd & Hmax).
  destruct (reachable_head_latest σ w Hre Hhd) as [(Hw & n & Hn & Hd) _].
  set (id := bytes.CombineTwoBytes b).
  assert (Release b σ = Ok () (Release_handed id w σ)) as E1.
  { apply Release_hand; [exact Hmu|exact Hhd|apply Hwl, Hhd]. }
  pose proof (reachable_step σ _ _ _ Hre (exec_Release _ _ _ E1)) as Hre1.
  destruct (reachable_settled _ Hre1) as (Hmu1 & (_ & Hc1 & _) & _).
  assert (∀ a, a ∈ parked σ -> a ∈ runnable (Release_handed id w σ)) as Hrun.
  { intros a Ha. simpl. unfold parked in Ha. rewrite elem_of_app in *. tauto. }
  split.
  - eexists. eapply run_cons; [apply exec_Release, E1|].
    eapply run_cons; [|reflexivity]. apply exec_Resume.
    apply (Resume_granted _ w (set_done true (set_value id n)));
      [exact Hmu1|exact Hc1|apply Hrun, Hw| |reflexivity].
    simpl. rewrite list_lookup_alter_eq, Hn. reflexivity.
  - intros a (Ha & m & Hm & Hdm) Hne.
    eexists. eapply run_cons; [apply exec_Release, E1|].
    eapply run_cons; [|reflexivity]. apply exec_Resume.
    apply (Resume_repark _ a m); [exact Hmu1|apply Hrun, Ha| |exact Hdm].
    simpl. rewrite list_lookup_alter_ne by auto. exact Hm.
Qed.

Lemma release_unblocks_head_waiter_witness :
  ∃ σ', run [Call_Release (x01, x02); Call_Resume 0%nat]
          (Reserve_parked (minted 65535))
        = Ok [Ev_Release (x01, x02);
              Ev_Resume 0%nat (Issued (NewPacketIDFromBytes (x01, x02)))] σ'.
Proof.
  apply (proj1 (release_unblocks_head_waiter (Reserve_parked (minted 65535))
                  (x01, x02) 0%nat reachable_first_waiter eq_refl)).
Defined.

(** X9. Nobody waits while an identifier is to be had: in every state
    reached from the fresh pool, if some suspended [Reserve] has not been
    served, the free stack is empty and all 65535 identifiers have been
    minted. *)
Theorem waiting_only_when_exhausted σ a :
  reachable σ -> waiting σ a ->
  stack (pool σ) = [] ∧ maxIDReached (pool σ) = 65535.
Proof.
  intros Hre Ha. destruct (reachable_linked σ Hre) as (q & Hch & _ & Hin & _).
  apply Hin in Ha.
  assert (waitList (pool σ) ≠ None) as Hq.
  { destruct q as [|x q]; [apply elem_of_nil in Ha as []|].
    destruct Hch as (-> & _). discriminate. }
  split.
  - destruct (reachable_exclusive σ Hre) as [Hs|Hn]; [exact Hs|contradiction].
  - pose proof (reachable_exhausted σ Hre Hq) as Hge.
    destruct (reachable_settled σ Hre) as (_ & _ & _ & _ & Hle).
    unfold MaxSimultaneousRequest in *. lia.
Qed.

Lemma waiting_only_when_exhausted_witness :
  stack (pool (Reserve_parked (minted 65535))) = [] ∧
  maxIDReached (pool (Reserve_parked (minted 65535))) = 65535.
Proof.
  apply (waiting_only_when_exhausted (Reserve_parked (minted 65535)) 0%nat).
  - apply reachable_first_waiter.
  - apply waiting_first_waiter.
Defined.

(** X10. The queue stays whole.  In every state reached from the fresh
    pool, following [next] from [p.waitList] leads through exactly the
    suspended [Reserve] calls that have not been served, each once, the
    latest arrival first, and ends in [nil]; the self-unlinking of the
    served waiters (lines 118-123) never cuts a waiting caller off. *)
Theorem queue_stays_whole σ :
  reachable σ ->
  ∃ q, chain (heap σ) (waitList (pool σ)) q ∧
       descending q ∧ NoDup q ∧
       ∀ a, a ∈ q ↔ waiting σ a.
Proof.
  intros Hre. destruct (reachable_linked σ Hre) as (q & Hch & Hso & Hin & _).
  exists q. split_and!; try assumption.
  clear Hch Hin. induction q as [|a q IH]; [apply NoDup_nil_2|].
  destruct Hso as [Hlt Hso]. apply NoDup_cons. split; [|apply IH, Hso].
  intros Ha. rewrite Forall_forall in Hlt. specialize (Hlt a Ha). lia.
Qed.

Lemma queue_stays_whole_witness :
  ∃ q, chain (heap (Reserve_parked (minted 65535)))
         (waitList (pool (Reserve_parked (minted 65535)))) q ∧
       descending q ∧ NoDup q ∧
       ∀ a, a ∈ q ↔ waiting (Reserve_parked (minted 65535)) a.
Proof.
  apply (queue_stays_whole (Reserve_parked (minted 65535))).
  apply reachable_first_waiter.
Defined.

(** * The response broadcaster *)

Lemma session_state_eta s :
  {| session.r := {| session.locked := session.locked (session.r s);
                     session.listeners := session.listeners (session.r s) |};
     session.nodes := session.nodes s;
     session.closed_chans := session.closed_chans s |} = s.
Proof. destruct s as [[] ? ?]. reflexivity. Qed.

Lemma session_unlock_lock s :
  session.locked (session.r s) = false ->
  session.set_locked false (session.set_locked true s) = s.
Proof.
  intros Hl. unfold session.set_locked. simpl. rewrite <- Hl.
  apply session_state_eta.
Qed.

Lemma AddListener_fresh s id c :
  session.locked (session.r s) = false ->
  session.listeners (session.r s) !! id = None ->
  session.AddListener id c s
  = session.Ok None
      (session.set_listeners
         (<[id := length (session.nodes s)]> (session.listeners (session.r s)))
         (session.set_nodes
            (session.nodes s
             ++ [{| session.node_locked := false; session.ch := c;
                    session.closed := false |}]) s)).
Proof.
  intros Hl Hid. unfold session.AddListener, session.bind, session.r_Lock.
  rewrite Hl. simpl. rewrite Hid. simpl.
  unfold session.set_listeners, session.set_nodes. simpl.
  rewrite <- Hl. destruct s as [[] ? ?]. reflexivity.
Qed.

Lemma AddListener_taken s id c a :
  session.locked (session.r s) = false ->
  session.listeners (session.r s) !! id = Some a ->
  session.AddListener id c s
  = session.Ok (Some (session.AlreadyHasListener id)) (session.set_locked true s).
Proof.
  intros Hl Hid. unfold session.AddListener, session.bind, session.r_Lock.
  rewrite Hl. simpl. rewrite Hid. reflexivity.
Qed.

Lemma GetListener_unlocked s id :
  session.locked (session.r s) = false ->
  session.GetListener id s
  = session.Ok (session.listeners (session.r s) !! id,
                bool_decide (is_Some (session.listeners (session.r s) !! id))) s.
Proof.
  intros Hl. unfold session.GetListener, session.bind, session.r_Lock.
  rewrite Hl. simpl. unfold session.ret.
  rewrite (session_unlock_lock s Hl). reflexivity.
Qed.

Lemma calls_blocked s :
  session.locked (session.r s) = true ->
  (∀ id c, session.AddListener id c s = session.Blocked) ∧
  (∀ id, session.GetListener id s = session.Blocked) ∧
  (∀ id c, session.RemoveAndCloseListener id c s = session.Blocked).
Proof.
  intros Hl. split_and!; intros;
    unfold session.AddListener, session.GetListener,
      session.RemoveAndCloseListener, session.bind, session.r_Lock;
    rewrite Hl; reflexivity.
Qed.

Lemma RemoveAndCloseListener_unregistered s id k :
  session.locked (session.r s) = false ->
  session.listeners (session.r s) !! id = None ->
  k ∉ session.closed_chans s ->
  session.RemoveAndCloseListener id (Some k) s
  = session.Ok ()
      (session.set_closed_chans (k :: session.closed_chans s)
         (session.set_listeners (delete id (session.listeners (session.r s))) s)).
Proof.
  intros Hl Hid Hk.
  unfold session.RemoveAndCloseListener, session.bind, session.r_Lock.
  rewrite Hl. simpl. rewrite Hid. simpl.
  destruct (decide (k ∈ session.closed_chans s)) as [|_]; [contradiction|].
  unfold session.set_closed_chans, session.set_listeners. simpl.
  rewrite <- Hl. reflexivity.
Qed.

Lemma RemoveAndCloseListener_registered s id k a n :
  session.locked (session.r s) = false ->
  session.listeners (session.r s) !! id = Some a ->
  session.nodes s !! a = Some n -> session.node_locked n = false ->
  k ∉ session.closed_chans s ->
  session.RemoveAndCloseListener id (Some k) s
  = session.Ok ()
      (session.set_nodes
         (<[a := {| session.node_locked := false; session.ch := session.ch n;
                    session.closed := true |}]> (session.nodes s))
         (session.set_closed_chans (k :: session.closed_chans s)
            (session.set_listeners
               (delete id (session.listeners (session.r s))) s))).
Proof.
  intros Hl Hid Hn Hnl Hk. pose proof (lookup_lt_Some _ _ _ Hn) as Hlt.
  unfold session.RemoveAndCloseListener, session.bind, session.r_Lock.
  rewrite Hl. simpl. rewrite Hid. simpl.
  unfold session.node_Lock. simpl. rewrite Hn, Hnl. simpl.
  unfold session.node_set_closed. simpl.
  rewrite list_lookup_insert_eq by exact Hlt. simpl.
  destruct (decide (k ∈ session.closed_chans s)) as [|_]; [contradiction|].
  unfold session.node_Unlock. simpl.
  rewrite list_lookup_insert_eq by (rewrite length_insert; exact Hlt). simpl.
  rewrite !list_insert_insert_eq.
  unfold session.set_nodes, session.set_closed_chans, session.set_listeners.
  simpl. rewrite <- Hl. reflexivity.
Qed.

Lemma RemoveAndCloseListener_closed_channel s id k :
  session.wf s -> session.locked (session.r s) = false ->
  k ∈ session.closed_chans s ->
  session.RemoveAndCloseListener id (Some k) s
  = session.Panic session.CloseOfClosedChannel.
Proof.
  intros [Hp Hnl] Hl Hk.
  unfold session.RemoveAndCloseListener, session.bind, session.r_Lock.
  rewrite Hl. simpl.
  destruct (session.listeners (session.r s) !! id) as [a|] eqn:Hid; simpl.
  - specialize (Hp id a Hid).
    destruct (lookup_lt_is_Some_2 _ _ Hp) as [n Hn].
    rewrite Forall_lookup in Hnl. specialize (Hnl a n Hn). simpl in Hnl.
    unfold session.node_Lock. simpl. rewrite Hn, Hnl. simpl.
    unfold session.node_set_closed. simpl.
    rewrite list_lookup_insert_eq by exact Hp. simpl.
    destruct (decide (k ∈ session.closed_chans s)); [reflexivity|contradiction].
  - destruct (decide (k ∈ session.closed_chans s)); [reflexivity|contradiction].
Qed.

Lemma RemoveAndCloseListener_nil_channel s id :
  session.wf s -> session.locked (session.r s) = false ->
  session.RemoveAndCloseListener id None s
  = session.Panic session.CloseOfNilChannel.
Proof.
  intros [Hp Hnl] Hl.
  unfold session.RemoveAndCloseListener, session.bind, session.r_Lock.
  rewrite Hl. simpl.
  destruct (session.listeners (session.r s) !! id) as [a|] eqn:Hid; simpl;
    [|reflexivity].
  specialize (Hp id a Hid).
  destruct (lookup_lt_is_Some_2 _ _ Hp) as [n Hn].
  rewrite Forall_lookup in Hnl. specialize (Hnl a n Hn). simpl in Hnl.
  unfold session.node_Lock. simpl. rewrite Hn, Hnl. simpl.
  unfold session.node_set_closed. simpl.
  rewrite list_lookup_insert_eq by exact Hp. reflexivity.
Qed.

Lemma session_wf_New : session.wf session.NewResponseBroadcaster.
Proof.
  split; [|apply Forall_nil_2]. intros id a Hid. simpl in Hid.
  rewrite lookup_empty in Hid. discriminate.
Qed.

Lemma session_returns_wf s c s' :
  session.wf s -> session.returns c s s' -> session.wf s'.
Proof.
  intros Hwf Hret. pose proof Hwf as [Hp Hnl].
  destruct (session.locked (session.r s)) eqn:Hl.
  { destruct (calls_blocked s Hl) as (HA & HG & HR).
    destruct c as [id c|id|id c]; simpl in Hret.
    - destruct Hret as [e He]. rewrite HA in He. discriminate.
    - destruct Hret as [v Hv]. rewrite HG in Hv. discriminate.
    - rewrite HR in Hret. discriminate. }
  destruct c as [id c|id|id c]; simpl in Hret.
  - destruct Hret as [e He].
    destruct (session.listeners (session.r s) !! id) as [a|] eqn:Hid.
    + rewrite (AddListener_taken s id c a Hl Hid) in He.
      injection He as _ <-. exact Hwf.
    + rewrite (AddListener_fresh s id c Hl Hid) in He. injection He as _ <-.
      split; simpl.
      * intros id' a Ha. rewrite length_app. simpl.
        destruct (decide (id = id')) as [->|Hne].
        -- rewrite lookup_insert_eq in Ha. injection Ha as <-. lia.
        -- rewrite lookup_insert_ne in Ha by exact Hne.
           specialize (Hp id' a Ha). lia.
      * apply Forall_app. split; [exact Hnl|].
        apply Forall_singleton. reflexivity.
  - destruct Hret as [v Hv]. rewrite (GetListener_unlocked s id Hl) in Hv.
    injection Hv as _ <-. exact Hwf.
  - destruct c as [k|];
      [|rewrite (RemoveAndCloseListener_nil_channel s id Hwf Hl) in Hret;
        discriminate].
    destruct (decide (k ∈ session.closed_chans s)) as [Hk|Hk];
      [rewrite (RemoveAndCloseListener_closed_channel s id k Hwf Hl Hk) in Hret;
       discriminate|].
    destruct (session.listeners (session.r s) !! id) as [a|] eqn:Hid.
    + pose proof (Hp id a Hid) as Hlt.
      destruct (lookup_lt_is_Some_2 _ _ Hlt) as [n Hn].
      pose proof (proj1 (Forall_lookup _ _) Hnl a n Hn) as Hn0. simpl in Hn0.
      rewrite (RemoveAndCloseListener_registered s id k a n Hl Hid Hn Hn0 Hk)
        in Hret.
      injection Hret as <-. split; simpl.
      * intros id' a' Ha'. rewrite length_insert.
        apply lookup_delete_Some in Ha' as [_ Ha']. apply (Hp id' a' Ha').
      * apply Forall_insert; [exact Hnl|reflexivity].
    + rewrite (RemoveAndCloseListener_unregistered s id k Hl Hid Hk) in Hret.
      injection Hret as <-. split; simpl; [|exact Hnl].
      intros id' a' Ha'. apply lookup_delete_Some in Ha' as [_ Ha'].
      apply (Hp id' a' Ha').
Qed.

Lemma session_reachable_wf s : session.reachable s -> session.wf s.
Proof.
  induction 1 as [|s c s' _ IH Hret]; [apply session_wf_New|].
  apply (session_returns_wf s c s' IH Hret).
Qed.



(** X12. A second listener for the same identifier jams the broadcaster.
    [AddListener] for an identifier that already has a listener returns
    the error and changes neither the map nor any node, but it returns
    through line 28 with the mutex still locked: from then on every
    call of [AddListener], [GetListener] and [RemoveAndCloseListener]
    stops at its [Lock]. *)
Theorem AddListener_duplicate_keeps_the_lock s id c a :
  session.locked (session.r s) = false ->
  session.listeners (session.r s) !! id = Some a ->
  session.AddListener id c s
  = session.Ok (Some (session.AlreadyHasListener id)) (session.set_locked true s) ∧
  (∀ id' c', session.AddListener id' c' (session.set_locked true s)
             = session.Blocked) ∧
  (∀ id', session.GetListener id' (session.set_locked true s) = session.Blocked) ∧
  (∀ id' c', session.RemoveAndCloseListener id' c' (session.set_locked true s)
             = session.Blocked).
Proof.
  intros Hl Hid. split; [apply (AddListener_taken s id c a Hl Hid)|].
  apply calls_blocked. reflexivity.
Qed.


(** X14. Closing twice panics.  In a state reached by the package's
    calls, with the broadcaster unlocked, [RemoveAndCloseListener]
    panics when the channel passed in is [nil] or already closed,
    whether or not the identifier has a listener; so after one
    [RemoveAndCloseListener] with a channel every further one with the
    same channel panics. *)
Theorem RemoveAndCloseListener_twice_panics s id k :
  session.reachable s -> session.locked (session.r s) = false ->
  (∀ id', session.RemoveAndCloseListener id' None s
          = session.Panic session.CloseOfNilChannel) ∧
  (k ∈ session.closed_chans s ->
   ∀ id', session.RemoveAndCloseListener id' (Some k) s
          = session.Panic session.CloseOfClosedChannel) ∧
  (k ∉ session.closed_chans s ->
   ∃ s', session.RemoveAndCloseListener id (Some k) s = session.Ok () s' ∧
         ∀ id', session.RemoveAndCloseListener id' (Some k) s'
                = session.Panic session.CloseOfClosedChannel).
Proof.
  intros Hre Hl. pose proof (session_reachable_wf s Hre) as Hwf. split_and!.
  - intros id'. apply RemoveAndCloseListener_nil_channel; assumption.
  - intros Hk id'. apply RemoveAndCloseListener_closed_channel; assumption.
  - intros Hk.
    destruct (session.RemoveAndCloseListener id (Some k) s) as [[] s'| |] eqn:Heq.
    + exists s'. split; [reflexivity|]. intros id'.
      assert (session.returns (session.Call_Remove id (Some k)) s s') as Hret
        by exact Heq.
      pose proof (session_returns_wf s _ s' Hwf Hret) as Hwf'.
      destruct Hwf as [Hp Hnl].
      assert (session.locked (session.r s') = false
              ∧ k ∈ session.closed_chans s') as [Hl' Hk'].
      { destruct (session.listeners (session.r s) !! id) as [a|] eqn:Hid.
        - pose proof (Hp id a Hid) as Hlt.
          destruct (lookup_lt_is_Some_2 _ _ Hlt) as [n Hn].
          pose proof (proj1 (Forall_lookup _ _) Hnl a n Hn) as Hn0.
          simpl in Hn0.
          rewrite (RemoveAndCloseListener_registered s id k a n Hl Hid Hn Hn0 Hk)
            in Heq.
          injection Heq as <-. simpl. split; [exact Hl|apply elem_of_cons; auto].
        - rewrite (RemoveAndCloseListener_unregistered s id k Hl Hid Hk) in Heq.
          injection Heq as <-. simpl. split; [exact Hl|apply elem_of_cons; auto]. }
      apply RemoveAndCloseListener_closed_channel; assumption.
    + exfalso. destruct Hwf as [Hp Hnl].
      destruct (session.listeners (session.r s) !! id) as [a|] eqn:Hid.
      * pose proof (Hp id a Hid) as Hlt.
        destruct (lookup_lt_is_Some_2 _ _ Hlt) as [n Hn].
        pose proof (proj1 (Forall_lookup _ _) Hnl a n Hn) as Hn0. simpl in Hn0.
        rewrite (RemoveAndCloseListener_registered s id k a n Hl Hid Hn Hn0 Hk)
          in Heq. discriminate.
      * rewrite (RemoveAndCloseListener_unregistered s id k Hl Hid Hk) in Heq.
        discriminate.
    + exfalso. destruct Hwf as [Hp Hnl].
      destruct (session.listeners (session.r s) !! id) as [a|] eqn:Hid.
      * pose proof (Hp id a Hid) as Hlt.
        destruct (lookup_lt_is_Some_2 _ _ Hlt) as [n Hn].
        pose proof (proj1 (Forall_lookup _ _) Hnl a n Hn) as Hn0. simpl in Hn0.
        rewrite (RemoveAndCloseListener_registered s id k a n Hl Hid Hn Hn0 Hk)
          in Heq. discriminate.
      * rewrite (RemoveAndCloseListener_unregistered s id k Hl Hid Hk) in Heq.
        discriminate.
Qed.

Lemma AddListener_duplicate_keeps_the_lock_witness :
  let s := {| session.r := {| session.locked := false;
                              session.listeners := {[7 := 0%nat]} |};
              session.nodes := [{| session.node_locked := false;
                                   session.ch := Some 0%nat;
                                   session.closed := false |}];
              session.closed_chans := [] |} in
  session.AddListener 7 (Some 1%nat) s
  = session.Ok (Some (session.AlreadyHasListener 7)) (session.set_locked true s) ∧
  session.GetListener 7 (session.set_locked true s) = session.Blocked.
Proof.
  intros s.
  destruct (AddListener_duplicate_keeps_the_lock s 7 (Some 1%nat) 0%nat
              eq_refl (lookup_singleton_eq 7 0%nat))
    as (HA & _ & HG & _).
  split; [exact HA|exact (HG 7)].
Defined.


Lemma RemoveAndCloseListener_twice_panics_witness :
  ∃ s', session.RemoveAndCloseListener 7 (Some 0%nat)
          session.NewResponseBroadcaster = session.Ok () s' ∧
        session.RemoveAndCloseListener 7 (Some 0%nat) s'
        = session.Panic session.CloseOfClosedChannel.
Proof.
  destruct (RemoveAndCloseListener_twice_panics
              session.NewResponseBroadcaster 7 0%nat
              session.reachable_New eq_refl)
    as (_ & _ & Hopen).
  destruct (Hopen (not_elem_of_nil 0%nat)) as (s' & HR & Hp).
  exists s'. split; [exact HR|exact (Hp 7)].
Defined.

(** * The subscription trie *)

Lemma trie_eta (s : trie.Trie) :
  {| trie.root := trie.root s; trie.heap := trie.heap s |} = s.
Proof. destruct s; reflexivity. Qed.

Lemma trie_findLetterInNode letter children :
  trie.findLetterInNode letter children = trie.index children letter.
Proof.
  unfold trie.findLetterInNode. destruct (trie.index children letter); reflexivity.
Qed.

Lemma trie_len_index m c : trie.len m = 0%nat -> trie.index m c = None.
Proof.
  destruct m as [m|]; simpl; [|reflexivity].
  intros Hm. apply map_size_empty_inv in Hm. rewrite Hm. apply lookup_empty.
Qed.

Lemma trie_walk_app h a p q :
  trie.walk h a (p ++ q) = trie.walk h a p ≫= λ b, trie.walk h b q.
Proof.
  revert a. induction p as [|c p IH]; intros a; simpl; [reflexivity|].
  destruct (h !! a) as [n|]; simpl; [|reflexivity].
  destruct (trie.index (trie.Children n) c) as [b|]; simpl;
    [apply IH|reflexivity].
Qed.

Lemma trie_walk_snoc h a p c :
  trie.walk h a (p ++ [c])
  = trie.walk h a p ≫= λ b, h !! b ≫= λ n, trie.index (trie.Children n) c.
Proof.
  rewrite trie_walk_app. destruct (trie.walk h a p) as [b|]; simpl;
    [|reflexivity].
  destruct (h !! b) as [n|]; simpl; [|reflexivity].
  destruct (trie.index (trie.Children n) c); reflexivity.
Qed.

Lemma trie_walk_allocated s p a :
  trie.wf s -> trie.walk (trie.heap s) (trie.root s) p = Some a ->
  is_Some (trie.heap s !! a).
Proof.
  intros [(nr & Hr & _) Hw] Hp. destruct p as [|c p] using rev_ind.
  - injection Hp as <-. eauto.
  - rewrite trie_walk_snoc in Hp.
    apply bind_Some in Hp as (a0 & Ha0 & Hp).
    apply bind_Some in Hp as (n0 & Hn0 & Hp).
    destruct (Hw _ _ _ _ _ Ha0 Hn0 Hp) as (nb & Hb & _). eauto.
Qed.

Lemma trie_walk_inj s p q a :
  trie.wf s -> trie.walk (trie.heap s) (trie.root s) p = Some a ->
  trie.walk (trie.heap s) (trie.root s) q = Some a -> p = q.
Proof.
  intros [(nr & Hr & Hrp & _) Hw]. revert q a.
  induction p as [|c p IH] using rev_ind; intros q a Hp Hq.
  - injection Hp as <-. destruct q as [|d q _] using rev_ind; [reflexivity|].
    rewrite trie_walk_snoc in Hq.
    apply bind_Some in Hq as (a0 & Ha0 & Hq).
    apply bind_Some in Hq as (n0 & Hn0 & Hq).
    destruct (Hw _ _ _ _ _ Ha0 Hn0 Hq) as (nb & Hb & Hprev & _).
    congruence.
  - rewrite trie_walk_snoc in Hp.
    apply bind_Some in Hp as (a1 & Ha1 & Hp).
    apply bind_Some in Hp as (n1 & Hn1 & Hp).
    destruct (Hw _ _ _ _ _ Ha1 Hn1 Hp) as (nb & Hb & Hprev & Hlet).
    destruct q as [|d q _] using rev_ind.
    + injection Hq as <-. congruence.
    + rewrite trie_walk_snoc in Hq.
      apply bind_Some in Hq as (a2 & Ha2 & Hq).
      apply bind_Some in Hq as (n2 & Hn2 & Hq).
      destruct (Hw _ _ _ _ _ Ha2 Hn2 Hq) as (nb' & Hb' & Hprev' & Hlet').
      assert (a1 = a2) as -> by congruence.
      rewrite (IH q a2 Ha1 Ha2). f_equal. congruence.
Qed.

(** Changing one reachable node leaves every path that does not go
    through a changed entry of its [Children] where it was. *)
Lemma trie_walk_change s h' p a n n' (ok : Z -> Prop) :
  trie.wf s -> trie.walk (trie.heap s) (trie.root s) p = Some a ->
  trie.heap s !! a = Some n -> h' !! a = Some n' ->
  (∀ x nx, x ≠ a -> trie.heap s !! x = Some nx -> h' !! x = Some nx) ->
  (∀ c, ok c -> trie.index (trie.Children n') c = trie.index (trie.Children n) c) ->
  ∀ r, (∀ c, (p ++ [c]) `prefix_of` r -> ok c) ->
       trie.walk h' (trie.root s) r = trie.walk (trie.heap s) (trie.root s) r.
Proof.
  intros Hwf Hp Hn Hn' Hsame Hok r.
  induction r as [|c0 r IH] using rev_ind; intros Hr; [reflexivity|].
  rewrite !trie_walk_snoc. rewrite IH.
  2:{ intros c Hc. apply Hr. apply prefix_app_r. exact Hc. }
  destruct (trie.walk (trie.heap s) (trie.root s) r) as [x|] eqn:Hx; simpl;
    [|reflexivity].
  destruct (trie_walk_allocated s r x Hwf Hx) as [nx Hnx].
  destruct (decide (x = a)) as [->|Hne].
  - rewrite Hn, Hn'. simpl. apply Hok. apply Hr.
    rewrite (trie_walk_inj s r p a Hwf Hx Hp). reflexivity.
  - rewrite (Hsame x nx Hne Hnx), Hnx. reflexivity.
Qed.

Lemma trie_getTopicNode_loop s q :
  trie.wf s ->
  ∀ p a, trie.walk (trie.heap s) (trie.root s) p = Some a ->
         trie.getTopicNode_loop q a s = trie.Ok (trie.walk (trie.heap s) a q) s.
Proof.
  intros Hwf. induction q as [|c q IH]; intros p a Hp; [reflexivity|].
  destruct (trie_walk_allocated s p a Hwf Hp) as [n Hn].
  simpl. unfold trie.bind, trie.load. rewrite Hn. simpl.
  rewrite trie_findLetterInNode.
  destruct (trie.index (trie.Children n) c) as [b|] eqn:Hb; simpl;
    [|reflexivity].
  apply (IH (p ++ [c])). rewrite trie_walk_snoc, Hp. simpl. rewrite Hn.
  exact Hb.
Qed.

Lemma trie_getTopicNode s name :
  trie.wf s ->
  trie.getTopicNode name s
  = trie.Ok (trie.walk (trie.heap s) (trie.root s) name) s.
Proof.
  intros Hwf. unfold trie.getTopicNode, trie.bind, trie.get_root.
  apply (trie_getTopicNode_loop s name Hwf []). reflexivity.
Qed.

Lemma trie_Get s name :
  trie.wf s -> trie.Get name s = trie.Ok (trie.subscribers s name) s.
Proof.
  intros Hwf. unfold trie.Get, trie.bind. rewrite trie_getTopicNode by exact Hwf.
  unfold trie.subscribers, trie.node_at.
  destruct (trie.walk (trie.heap s) (trie.root s) name) as [a|] eqn:Ha; simpl;
    [|reflexivity].
  destruct (trie_walk_allocated s name a Hwf Ha) as [n Hn].
  unfold trie.load. rewrite Hn. reflexivity.
Qed.

(** ** Updates of one reachable node *)

Lemma trie_index_adopt c l n c' :
  trie.index (trie.Children (trie.adopt c l n)) c'
  = if decide (c' = c) then Some l else trie.index (trie.Children n) c'.
Proof.
  unfold trie.adopt. simpl. case_decide as Hc.
  - subst. apply lookup_insert_eq.
  - rewrite lookup_insert_ne by auto.
    destruct (trie.Children n); simpl; [reflexivity|apply lookup_empty].
Qed.

Lemma trie_index_disown c n c' :
  trie.index (trie.Children (trie.disown c n)) c'
  = if decide (c' = c) then None else trie.index (trie.Children n) c'.
Proof.
  unfold trie.disown. simpl. destruct (trie.Children n) as [m|]; simpl.
  - destruct (Nat.eqb_spec (size (delete c m)) 0) as [He|He]; simpl.
    + apply map_size_empty_inv in He. case_decide as Hc; [reflexivity|].
      rewrite <- (lookup_delete_ne m c c') by auto. rewrite He.
      symmetry. apply lookup_empty.
    + case_decide as Hc; [subst; apply lookup_delete_eq|].
      apply lookup_delete_ne. auto.
  - case_decide; reflexivity.
Qed.

(** An update of the node at [p] that adds no child keeps the tree. *)
Lemma trie_update s h' p a n n' :
  trie.wf s -> trie.walk (trie.heap s) (trie.root s) p = Some a ->
  trie.heap s !! a = Some n -> h' !! a = Some n' ->
  (∀ x nx, x ≠ a -> trie.heap s !! x = Some nx -> h' !! x = Some nx) ->
  trie.Previous n' = trie.Previous n -> trie.Letter n' = trie.Letter n ->
  (p = [] -> trie.UserIDs n' = ∅) ->
  (∀ c b, trie.index (trie.Children n') c = Some b ->
          trie.index (trie.Children n) c = Some b) ->
  (∀ r x, trie.walk h' (trie.root s) r = Some x ->
          trie.walk (trie.heap s) (trie.root s) r = Some x) ∧
  trie.wf {| trie.root := trie.root s; trie.heap := h' |}.
Proof.
  intros Hwf Hp Hn Hn' Hsame Hprev Hlet Hroot Hsub.
  assert (∀ x nx, trie.heap s !! x = Some nx ->
            ∃ nx', h' !! x = Some nx' ∧ trie.Previous nx' = trie.Previous nx ∧
                   trie.Letter nx' = trie.Letter nx) as Hkeep.
  { intros x nx Hx. destruct (decide (x = a)) as [->|Hne].
    - exists n'. assert (nx = n) as -> by congruence. auto.
    - exists nx. auto. }
  assert (∀ r x, trie.walk h' (trie.root s) r = Some x ->
            trie.walk (trie.heap s) (trie.root s) r = Some x) as Hback.
  { induction r as [|c0 r IH] using rev_ind; intros x Hx; [exact Hx|].
    rewrite trie_walk_snoc in Hx. rewrite trie_walk_snoc.
    apply bind_Some in Hx as (y & Hy & Hx).
    apply bind_Some in Hx as (ny' & Hny' & Hx).
    specialize (IH y Hy). rewrite IH. simpl.
    destruct (trie_walk_allocated s r y Hwf IH) as [ny Hny].
    destruct (decide (y = a)) as [->|Hne].
    - rewrite Hn. simpl. apply Hsub. congruence.
    - rewrite Hny. simpl. rewrite (Hsame y ny Hne Hny) in Hny'. congruence. }
  split; [exact Hback|]. pose proof Hwf as [(nr & Hr & Hrp & Hru) Hw].
  split; simpl.
  - destruct (decide (trie.root s = a)) as [Hra|Hra].
    + exists n'. rewrite Hra. split; [exact Hn'|].
      assert (nr = n) as -> by congruence.
      split; [congruence|]. apply Hroot.
      apply (trie_walk_inj s p [] a Hwf Hp). simpl. congruence.
    + exists nr. split; [apply (Hsame _ _ Hra Hr)|]. auto.
  - intros r x nx' letter b Hx Hnx' Hb.
    specialize (Hback r x Hx).
    destruct (trie_walk_allocated s r x Hwf Hback) as [nx Hnx].
    assert (trie.index (trie.Children nx) letter = Some b) as Hb0.
    { destruct (decide (x = a)) as [->|Hne].
      - assert (nx = n) as -> by congruence. apply Hsub. congruence.
      - rewrite (Hsame x nx Hne Hnx) in Hnx'. congruence. }
    destruct (Hw r x nx letter b Hback Hnx Hb0) as (nb & Hnb & Hbp & Hbl).
    destruct (Hkeep b nb Hnb) as (nb' & Hnb' & Hp' & Hl').
    exists nb'. split; [exact Hnb'|]. split; congruence.
Qed.

(** *** Writing the users of a node *)

Lemma trie_with_users s p a n u :
  trie.wf s -> trie.walk (trie.heap s) (trie.root s) p = Some a ->
  trie.heap s !! a = Some n -> (p = [] -> u = ∅) ->
  trie.wf (trie.with_users a n u s) ∧
  (∀ r, trie.walk (trie.heap (trie.with_users a n u s)) (trie.root s) r
        = trie.walk (trie.heap s) (trie.root s) r) ∧
  (∀ r, trie.node_at (trie.with_users a n u s) r
        = if decide (r = p) then Some (trie.set_UserIDs u n)
          else trie.node_at s r).
Proof.
  intros Hwf Hp Hn Hu.
  assert (a < length (trie.heap s))%nat as Hlt by (eapply lookup_lt_Some, Hn).
  assert (∀ r, trie.walk (trie.heap (trie.with_users a n u s)) (trie.root s) r
               = trie.walk (trie.heap s) (trie.root s) r) as Hwalk.
  { intros r.
    apply (trie_walk_change s _ p a n (trie.set_UserIDs u n) (λ _, True) Hwf Hp Hn).
    - simpl. apply list_lookup_insert_eq, Hlt.
    - intros x nx Hne Hx. simpl. rewrite list_lookup_insert_ne by auto. exact Hx.
    - reflexivity.
    - auto. }
  split_and!.
  - apply (trie_update s _ p a n (trie.set_UserIDs u n) Hwf Hp Hn); try reflexivity.
    + simpl. apply list_lookup_insert_eq, Hlt.
    + intros x nx Hne Hx. simpl. rewrite list_lookup_insert_ne by auto. exact Hx.
    + exact Hu.
    + auto.
  - exact Hwalk.
  - intros r. unfold trie.node_at. change (trie.root (trie.with_users a n u s))
      with (trie.root s). rewrite Hwalk. case_decide as Hr.
    + subst r. rewrite Hp. simpl. apply list_lookup_insert_eq, Hlt.
    + destruct (trie.walk (trie.heap s) (trie.root s) r) as [x|] eqn:Hx; simpl;
        [|reflexivity].
      apply list_lookup_insert_ne. intros <-.
      apply Hr. apply (trie_walk_inj s r p a Hwf Hx Hp).
Qed.

(** *** Taking a dead leaf out of its parent *)

Ltac trie_step := cbn [mbind option_bind trie.walk].

Lemma trie_cut s p a n c b nb :
  trie.wf s -> trie.walk (trie.heap s) (trie.root s) p = Some a ->
  trie.heap s !! a = Some n -> trie.index (trie.Children n) c = Some b ->
  trie.heap s !! b = Some nb -> trie.len (trie.Children nb) = 0%nat ->
  trie.wf (trie.cut a n c s) ∧
  trie.walk (trie.heap (trie.cut a n c s)) (trie.root s) p = Some a ∧
  (∀ r, trie.node_at (trie.cut a n c s) r
        = if decide (r = p ++ [c]) then None
          else if decide (r = p) then Some (trie.disown c n)
          else trie.node_at s r).
Proof.
  intros Hwf Hp Hn Hb Hnb Hlen.
  assert (a < length (trie.heap s))%nat as Hlt by (eapply lookup_lt_Some, Hn).
  assert (trie.heap (trie.cut a n c s) !! a = Some (trie.disown c n)) as Ha'
    by (unfold trie.cut; simpl; apply list_lookup_insert_eq, Hlt).
  assert (∀ x nx, x ≠ a -> trie.heap s !! x = Some nx ->
                  trie.heap (trie.cut a n c s) !! x = Some nx) as Hsame.
  { intros x nx Hne Hx. unfold trie.cut. simpl.
    rewrite list_lookup_insert_ne by auto. exact Hx. }
  assert (∀ r, ¬ (p ++ [c]) `prefix_of` r ->
               trie.walk (trie.heap (trie.cut a n c s)) (trie.root s) r
               = trie.walk (trie.heap s) (trie.root s) r) as Hwalk.
  { intros r Hr.
    apply (trie_walk_change s _ p a n (trie.disown c n) (λ c', c' ≠ c)
             Hwf Hp Hn Ha' Hsame).
    - intros c' Hc'. rewrite trie_index_disown. rewrite decide_False by exact Hc'.
      reflexivity.
    - intros c' Hpre <-. exact (Hr Hpre). }
  assert (¬ (p ++ [c]) `prefix_of` p) as Hpp.
  { intros Hpre. apply prefix_length in Hpre. rewrite length_app in Hpre.
    simpl in Hpre. lia. }
  split_and!.
  - apply (trie_update s _ p a n (trie.disown c n) Hwf Hp Hn Ha' Hsame);
      try reflexivity.
    + intros ->. destruct Hwf as [(nr & Hr & _ & Hu) _].
      injection Hp as <-. unfold trie.disown. simpl. congruence.
    + intros c' b'. rewrite trie_index_disown. case_decide; [discriminate|auto].
  - rewrite (Hwalk p Hpp). exact Hp.
  - intros r. unfold trie.node_at.
    change (trie.root (trie.cut a n c s)) with (trie.root s).
    destruct (decide ((p ++ [c]) `prefix_of` r)) as [[r' ->]|Hpre].
    + rewrite !(trie_walk_app _ _ (p ++ [c]) r'), !trie_walk_snoc.
      rewrite (Hwalk p Hpp), Hp. trie_step. rewrite Ha', Hn. trie_step.
      rewrite trie_index_disown, decide_True by reflexivity. trie_step.
      case_decide as H1; [reflexivity|].
      rewrite decide_False.
      2:{ intros Heq. apply (f_equal length) in Heq.
          rewrite !length_app in Heq. simpl in Heq. lia. }
      rewrite Hb. trie_step. destruct r' as [|c1 r'].
      * exfalso. apply H1. rewrite app_nil_r. reflexivity.
      * trie_step. rewrite Hnb. trie_step.
        rewrite (trie_len_index _ c1 Hlen). reflexivity.
    + rewrite decide_False.
      2:{ intros ->. apply Hpre. reflexivity. }
      rewrite (Hwalk r Hpre). case_decide as Hr.
      * subst r. rewrite Hp. trie_step. exact Ha'.
      * destruct (trie.walk (trie.heap s) (trie.root s) r) as [x|] eqn:Hx; trie_step;
          [|reflexivity].
        destruct (trie_walk_allocated s r x Hwf Hx) as [nx Hnx].
        rewrite Hnx. apply Hsame; [|exact Hnx]. intros ->.
        apply Hr. apply (trie_walk_inj s r p a Hwf Hx Hp).
Qed.

(** *** Allocating a leaf under a reachable node *)

Lemma trie_grow s p a n c :
  trie.wf s -> trie.walk (trie.heap s) (trie.root s) p = Some a ->
  trie.heap s !! a = Some n -> trie.index (trie.Children n) c = None ->
  trie.wf (trie.grow a n c s) ∧
  trie.walk (trie.heap (trie.grow a n c s)) (trie.root s) (p ++ [c])
  = Some (length (trie.heap s)) ∧
  (∀ r, trie.node_at (trie.grow a n c s) r
        = if decide (r = p ++ [c]) then Some (trie.leaf a c)
          else if decide (r = p)
               then Some (trie.adopt c (length (trie.heap s)) n)
               else trie.node_at s r).
Proof.
  intros Hwf Hp Hn Hc. set (l := length (trie.heap s)).
  assert (a < l)%nat as Hlt by (eapply lookup_lt_Some, Hn).
  assert (trie.heap (trie.grow a n c s) !! a = Some (trie.adopt c l n)) as Ha'.
  { unfold trie.grow. simpl. apply list_lookup_insert_eq.
    rewrite length_app. simpl. fold l. lia. }
  assert (trie.heap (trie.grow a n c s) !! l = Some (trie.leaf a c)) as Hl'.
  { unfold trie.grow. simpl. rewrite list_lookup_insert_ne by lia.
    apply (list_lookup_middle _ [] _ l). reflexivity. }
  assert (∀ x nx, x ≠ a -> trie.heap s !! x = Some nx ->
                  trie.heap (trie.grow a n c s) !! x = Some nx) as Hsame.
  { intros x nx Hne Hx. unfold trie.grow. simpl.
    rewrite list_lookup_insert_ne by auto. apply lookup_app_l_Some. exact Hx. }
  assert (∀ x nx, trie.heap s !! x = Some nx ->
            ∃ nx', trie.heap (trie.grow a n c s) !! x = Some nx' ∧
                   trie.Previous nx' = trie.Previous nx ∧
                   trie.Letter nx' = trie.Letter nx ∧
                   trie.UserIDs nx' = trie.UserIDs nx) as Hkeep.
  { intros x nx Hx. destruct (decide (x = a)) as [->|Hne].
    - exists (trie.adopt c l n). assert (nx = n) as -> by congruence. auto.
    - exists nx. auto. }
  assert (∀ r, ¬ (p ++ [c]) `prefix_of` r ->
               trie.walk (trie.heap (trie.grow a n c s)) (trie.root s) r
               = trie.walk (trie.heap s) (trie.root s) r) as Hwalk.
  { intros r Hr.
    apply (trie_walk_change s _ p a n (trie.adopt c l n) (λ c', c' ≠ c)
             Hwf Hp Hn Ha' Hsame).
    - intros c' Hc'. rewrite trie_index_adopt. rewrite decide_False by exact Hc'.
      reflexivity.
    - intros c' Hpre <-. exact (Hr Hpre). }
  assert (¬ (p ++ [c]) `prefix_of` p) as Hpp.
  { intros Hpre. apply prefix_length in Hpre. rewrite length_app in Hpre.
    simpl in Hpre. lia. }
  assert (trie.walk (trie.heap (trie.grow a n c s)) (trie.root s) (p ++ [c])
          = Some l) as Hnew.
  { rewrite trie_walk_snoc, (Hwalk p Hpp), Hp. trie_step. rewrite Ha'.
    trie_step. rewrite trie_index_adopt, decide_True by reflexivity.
    reflexivity. }
  assert (∀ r', r' ≠ [] ->
            trie.walk (trie.heap (trie.grow a n c s)) (trie.root s)
              ((p ++ [c]) ++ r') = None) as Hbelow.
  { intros r' Hr'. rewrite trie_walk_app, Hnew. trie_step.
    destruct r' as [|c1 r']; [congruence|]. trie_step. rewrite Hl'.
    reflexivity. }
  split_and!.
  - pose proof Hwf as [(nr & Hr & Hrp & Hru) Hw]. split.
    + change (trie.root (trie.grow a n c s)) with (trie.root s).
      destruct (Hkeep _ _ Hr) as (nr' & Hr' & Hp' & _ & Hu').
      exists nr'. split; [exact Hr'|]. split; congruence.
    + change (trie.root (trie.grow a n c s)) with (trie.root s).
      intros r x nx' letter b Hx Hnx' Hb.
      destruct (decide ((p ++ [c]) `prefix_of` r)) as [[r' ->]|Hpre].
      * destruct r' as [|c1 r'].
        -- rewrite app_nil_r, Hnew in Hx. injection Hx as <-.
           rewrite Hl' in Hnx'. injection Hnx' as <-. discriminate.
        -- rewrite Hbelow in Hx by discriminate. discriminate.
      * rewrite (Hwalk r Hpre) in Hx.
        destruct (trie_walk_allocated s r x Hwf Hx) as [nx Hnx].
        destruct (decide (x = a)) as [->|Hne].
        -- rewrite Ha' in Hnx'. injection Hnx' as <-.
           rewrite trie_index_adopt in Hb. case_decide as Hlc.
           ++ injection Hb as <-. exists (trie.leaf a c). subst letter. auto.
           ++ assert (nx = n) as -> by congruence.
              destruct (Hw r a n letter b Hx Hnx Hb) as (nb & Hnb & Hbp & Hbl).
              destruct (Hkeep b nb Hnb) as (nb' & Hnb' & Hp' & Hl'' & _).
              exists nb'. split; [exact Hnb'|]. split; congruence.
        -- rewrite (Hsame x nx Hne Hnx) in Hnx'. injection Hnx' as <-.
           destruct (Hw r x nx letter b Hx Hnx Hb) as (nb & Hnb & Hbp & Hbl).
           destruct (Hkeep b nb Hnb) as (nb' & Hnb' & Hp' & Hl'' & _).
           exists nb'. split; [exact Hnb'|]. split; congruence.
  - exact Hnew.
  - intros r. unfold trie.node_at.
    change (trie.root (trie.grow a n c s)) with (trie.root s).
    destruct (decide ((p ++ [c]) `prefix_of` r)) as [[r' ->]|Hpre].
    + destruct r' as [|c1 r'].
      * rewrite app_nil_r, Hnew, decide_True by reflexivity. trie_step. exact Hl'.
      * rewrite Hbelow by discriminate. rewrite decide_False.
        2:{ intros Heq. apply (f_equal length) in Heq.
            rewrite !length_app in Heq. simpl in Heq. lia. }
        rewrite decide_False.
        2:{ intros Heq. apply (f_equal length) in Heq.
            rewrite !length_app in Heq. simpl in Heq. lia. }
        rewrite trie_walk_app, trie_walk_snoc, Hp. trie_step. rewrite Hn. trie_step.
        rewrite Hc. reflexivity.
    + rewrite decide_False.
      2:{ intros ->. apply Hpre. reflexivity. }
      rewrite (Hwalk r Hpre). case_decide as Hr.
      * subst r. rewrite Hp. trie_step. exact Ha'.
      * destruct (trie.walk (trie.heap s) (trie.root s) r) as [x|] eqn:Hx; trie_step;
          [|reflexivity].
        destruct (trie_walk_allocated s r x Hwf Hx) as [nx Hnx].
        rewrite Hnx. apply Hsame; [|exact Hnx]. intros ->.
        apply Hr. apply (trie_walk_inj s r p a Hwf Hx Hp).
Qed.

(** ** [Add] *)

Lemma trie_grown_refl path s : trie.grown path s s.
Proof. intros x. left. reflexivity. Qed.

Lemma trie_grown_trans path s1 s2 s3 :
  trie.grown path s1 s2 -> trie.grown path s2 s3 -> trie.grown path s1 s3.
Proof.
  intros H12 H23 x. destruct (H12 x) as [E1|(P1 & N1 & E1)];
    destruct (H23 x) as [E2|(P2 & N2 & E2)].
  - left. congruence.
  - right. split; [exact P2|]. split; congruence.
  - right. split; [exact P1|]. split; congruence.
  - congruence.
Qed.

Lemma trie_used_child n c b :
  trie.index (trie.Children n) c = Some b -> trie.used n.
Proof.
  intros Hb. left. intros Hlen.
  rewrite (trie_len_index _ c Hlen) in Hb. discriminate.
Qed.

Lemma trie_Add_loop_found s p a n c b q :
  trie.wf s -> trie.walk (trie.heap s) (trie.root s) p = Some a ->
  trie.heap s !! a = Some n -> trie.index (trie.Children n) c = Some b ->
  trie.Add_loop (c :: q) (Some a) s = trie.Add_loop q (Some b) s.
Proof.
  intros Hwf Hp Hn Hb.
  destruct (proj2 Hwf p a n c b Hp Hn Hb) as (nb & Hnb & Hprev & Hlet).
  simpl. unfold trie.bind at 1. unfold trie.createLetterNode, trie.bind at 1.
  unfold trie.load at 1. rewrite Hn. rewrite Hb. unfold trie.ret at 1.
  unfold trie.bind at 1. unfold trie.store. rewrite Hnb.
  assert (trie.set_Previous (Some a) nb = nb) as ->.
  { destruct nb; simpl in *. subst. reflexivity. }
  rewrite list_insert_id by exact Hnb. rewrite trie_eta.
  unfold trie.bind at 1. unfold trie.addLetterToNodeChildren.
  unfold trie.bind at 1. unfold trie.load at 1. rewrite Hn.
  destruct (trie.Children n) as [m|] eqn:Hm; [|discriminate].
  unfold trie.bind at 1. unfold trie.load at 1. rewrite Hnb.
  rewrite trie_findLetterInNode, Hlet, Hb. reflexivity.
Qed.

Lemma trie_Add_loop_new s a n c q :
  trie.heap s !! a = Some n -> trie.index (trie.Children n) c = None ->
  trie.Add_loop (c :: q) (Some a) s
  = trie.Add_loop q (Some (length (trie.heap s))) (trie.grow a n c s).
Proof.
  intros Hn Hc.
  assert (a < length (trie.heap s))%nat as Hlt by (eapply lookup_lt_Some, Hn).
  simpl. unfold trie.bind at 1. unfold trie.createLetterNode, trie.bind at 1.
  unfold trie.load at 1. rewrite Hn. rewrite Hc. unfold trie.alloc.
  unfold trie.bind at 1. unfold trie.store at 1. simpl.
  rewrite (list_lookup_middle (trie.heap s) [] _ (length (trie.heap s)))
    by reflexivity.
  rewrite insert_app_r_alt by lia. rewrite Nat.sub_diag. simpl.
  unfold trie.bind at 1. unfold trie.addLetterToNodeChildren.
  unfold trie.bind at 1. unfold trie.load at 1. simpl.
  rewrite (lookup_app_l_Some _ _ _ _ Hn).
  unfold trie.grow, trie.adopt, trie.leaf.
  destruct (trie.Children n) as [m|] eqn:Hm.
  - unfold trie.bind at 1. unfold trie.load at 1. simpl.
    rewrite (list_lookup_middle (trie.heap s) [] _ (length (trie.heap s)))
      by reflexivity.
    simpl. simpl in Hc. rewrite trie_findLetterInNode. simpl. rewrite Hc.
    unfold trie.bind at 1.
    unfold trie.store at 1. simpl.
    rewrite (lookup_app_l_Some _ _ _ _ Hn). reflexivity.
  - unfold trie.bind at 1. unfold trie.load at 1. simpl.
    rewrite (list_lookup_middle (trie.heap s) [] _ (length (trie.heap s)))
      by reflexivity.
    simpl. unfold trie.bind at 1.
    unfold trie.store at 1. simpl.
    rewrite (lookup_app_l_Some _ _ _ _ Hn). rewrite insert_empty. reflexivity.
Qed.

Lemma trie_subscribers_grow s p a n c :
  trie.wf s -> trie.walk (trie.heap s) (trie.root s) p = Some a ->
  trie.heap s !! a = Some n -> trie.index (trie.Children n) c = None ->
  ∀ path, (p ++ [c]) `prefix_of` path ->
          trie.grown path s (trie.grow a n c s).
Proof.
  intros Hwf Hp Hn Hc path Hpath x.
  destruct (trie_grow s p a n c Hwf Hp Hn Hc) as (_ & _ & Hat).
  unfold trie.subscribers. rewrite Hat. case_decide as Hx.
  - right. subst x. split; [exact Hpath|]. split; [|reflexivity].
    unfold trie.node_at. rewrite trie_walk_snoc, Hp. simpl. rewrite Hn. simpl.
    rewrite Hc. reflexivity.
  - left. case_decide as Hx'; [|reflexivity].
    subst x. unfold trie.node_at. rewrite Hp. simpl. rewrite Hn. reflexivity.
Qed.

Lemma trie_extend q :
  ∀ p a s,
    trie.wf s -> trie.walk (trie.heap s) (trie.root s) p = Some a ->
    trie.pruned_except p s ->
    trie.Add_loop q (Some a) s
    = trie.Ok (Some (trie.extend q a s).1) (trie.extend q a s).2 ∧
    trie.wf (trie.extend q a s).2 ∧
    trie.root (trie.extend q a s).2 = trie.root s ∧
    trie.walk (trie.heap (trie.extend q a s).2) (trie.root s) (p ++ q)
    = Some (trie.extend q a s).1 ∧
    trie.pruned_except (p ++ q) (trie.extend q a s).2 ∧
    trie.grown (p ++ q) s (trie.extend q a s).2.
Proof.
  induction q as [|c q IH]; intros p a s Hwf Hp Hpr.
  - simpl. rewrite app_nil_r. split_and!; auto. apply trie_grown_refl.
  - destruct (trie_walk_allocated s p a Hwf Hp) as [n Hn].
    simpl trie.extend. rewrite Hn.
    replace (p ++ c :: q) with ((p ++ [c]) ++ q) by (rewrite <- app_assoc; reflexivity).
    destruct (trie.index (trie.Children n) c) as [b|] eqn:Hc.
    + rewrite (trie_Add_loop_found s p a n c b q Hwf Hp Hn Hc).
      apply IH; [exact Hwf| |].
      * rewrite trie_walk_snoc, Hp. simpl. rewrite Hn. exact Hc.
      * intros x nx Hx0 Hx1 Hx. destruct (decide (x = p)) as [->|Hne].
        -- unfold trie.node_at in Hx. rewrite Hp in Hx. simpl in Hx.
           assert (nx = n) as -> by congruence.
           apply (trie_used_child n c b Hc).
        -- apply (Hpr x nx Hx0 Hne Hx).
    + rewrite (trie_Add_loop_new s a n c q Hn Hc).
      destruct (trie_grow s p a n c Hwf Hp Hn Hc) as (Hwf' & Hnew & Hat).
      destruct (IH (p ++ [c]) (length (trie.heap s)) (trie.grow a n c s) Hwf' Hnew)
        as (HA & HW & HR & HP & HU & HG).
      { intros x nx Hx0 Hx1 Hx. rewrite Hat in Hx.
        rewrite decide_False in Hx by exact Hx1.
        case_decide as Hxp.
        - injection Hx as <-. left. unfold trie.adopt. simpl.
          intros Hsz. apply map_size_empty_inv in Hsz.
          apply (f_equal (λ m, m !! c)) in Hsz.
          rewrite lookup_insert_eq, lookup_empty in Hsz. discriminate.
        - apply (Hpr x nx Hx0 Hxp Hx). }
      split_and!; auto.
      apply (trie_grown_trans _ s (trie.grow a n c s)); [|exact HG].
      apply (trie_subscribers_grow s p a n c Hwf Hp Hn Hc).
      apply prefix_app_r. reflexivity.
Qed.

Lemma trie_Add s name userID d :
  trie.wf s -> trie.pruned s -> name ≠ [] ->
  ∃ s', trie.Add name userID d s = trie.Ok () s' ∧
        trie.wf s' ∧ trie.pruned s' ∧
        trie.subscribers s' name
        = Some (<[userID := d]> (default ∅ (trie.subscribers s name))) ∧
        (∀ x, x `prefix_of` name -> is_Some (trie.subscribers s' x)) ∧
        (∀ x, x ≠ name ->
           trie.subscribers s' x = trie.subscribers s x ∨
           (x `prefix_of` name ∧ trie.subscribers s x = None ∧
            trie.subscribers s' x = Some ∅)).
Proof.
  intros Hwf Hpr Hname.
  destruct (trie_extend name [] (trie.root s) s Hwf eq_refl)
    as (HA & HW & HR & HP & HU & HG).
  { intros x nx Hx _ Hat. apply (Hpr x nx Hx Hat). }
  simpl in HP, HU, HG.
  destruct (trie.extend name (trie.root s) s) as [b s1] eqn:Hext.
  simpl in *. rewrite <- HR in HP.
  destruct (trie_walk_allocated s1 name b HW HP) as [nb Hnb].
  destruct (trie_with_users s1 name b nb (<[userID := d]> (trie.UserIDs nb))
              HW HP Hnb) as (Hwf' & Hwalk & Hat); [congruence|].
  exists (trie.with_users b nb (<[userID := d]> (trie.UserIDs nb)) s1).
  assert (trie.subscribers s1 name = Some (trie.UserIDs nb)) as Hsub1.
  { unfold trie.subscribers, trie.node_at. rewrite HP. simpl. rewrite Hnb.
    reflexivity. }
  split_and!.
  - unfold trie.Add. destruct name as [|c q]; [congruence|].
    unfold trie.bind, trie.get_root. rewrite HA. unfold trie.store.
    rewrite Hnb. reflexivity.
  - exact Hwf'.
  - intros x nx Hx. rewrite Hat. case_decide as Hxn.
    + intros [= <-]. right. simpl. apply insert_non_empty.
    + intros Hnx. apply (HU x nx Hx Hxn Hnx).
  - assert (trie.UserIDs nb = default ∅ (trie.subscribers s name)) as Hdef.
    { destruct (HG name) as [E|(_ & N & E)].
      - rewrite <- E, Hsub1. reflexivity.
      - rewrite N. simpl. congruence. }
    rewrite <- Hdef. unfold trie.subscribers.
    rewrite Hat, decide_True by reflexivity. reflexivity.
  - intros x [k Hk]. unfold trie.subscribers. rewrite Hat.
    case_decide; [eauto|].
    rewrite Hk, trie_walk_app in HP. apply bind_Some in HP as (y & Hy & _).
    destruct (trie_walk_allocated s1 x y HW Hy) as [ny Hny].
    unfold trie.node_at. rewrite Hy. simpl. rewrite Hny. eauto.
  - intros x Hx. unfold trie.subscribers at 1 4. rewrite Hat.
    rewrite decide_False by exact Hx. apply (HG x).
Qed.

(** ** [Remove] *)

Lemma trie_nodeStillUsed n :
  negb (trie.len (trie.Children n) =? 0)%nat
  || negb (size (trie.UserIDs n) =? 0)%nat = true ↔ trie.used n.
Proof.
  unfold trie.used. rewrite orb_true_iff, !negb_true_iff, !Nat.eqb_neq.
  rewrite map_size_empty_iff. reflexivity.
Qed.

Lemma trie_grown_weaken p1 p2 s s' :
  p1 `prefix_of` p2 -> trie.grown p1 s s' -> trie.grown p2 s s'.
Proof.
  intros Hp H x. destruct (H x) as [E|(P & N & E)]; [left; exact E|].
  right. split; [|auto]. transitivity p1; assumption.
Qed.

Lemma trie_clean p :
  ∀ b s,
    trie.wf s -> trie.walk (trie.heap s) (trie.root s) p = Some b ->
    trie.pruned_except p s ->
    ∃ s', (∀ fuel, (length p < fuel)%nat ->
                   trie.cleanTopicPath fuel b s = trie.Ok () s') ∧
          trie.wf s' ∧ trie.pruned s' ∧ trie.grown p s' s.
Proof.
  induction p as [|c p IH] using rev_ind; intros b s Hwf Hp Hpr.
  - exists s. split_and!; auto.
    + intros [|fuel] Hf; [simpl in Hf; lia|].
      injection Hp as <-. destruct Hwf as [(nr & Hr & Hrp & _) _].
      simpl. unfold trie.bind, trie.load. rewrite Hr. simpl.
      destruct (negb (trie.len (trie.Children nr) =? 0)%nat
                || negb (size (trie.UserIDs nr) =? 0)%nat); [reflexivity|].
      rewrite Hr, Hrp. reflexivity.
    + intros x nx Hx Hat. apply (Hpr x nx Hx Hx Hat).
    + apply trie_grown_refl.
  - pose proof Hp as Hp0. rewrite trie_walk_snoc in Hp0.
    apply bind_Some in Hp0 as (a & Ha & Hp0).
    apply bind_Some in Hp0 as (na & Hna & Hc).
    destruct (proj2 Hwf p a na c b Ha Hna Hc) as (nb & Hnb & Hprev & Hlet).
    destruct (negb (trie.len (trie.Children nb) =? 0)%nat
              || negb (size (trie.UserIDs nb) =? 0)%nat) eqn:Hused.
    + exists s. split_and!; auto.
      * intros [|fuel] Hf; [simpl in Hf; lia|].
        simpl. unfold trie.bind, trie.load. rewrite Hnb. simpl.
        rewrite Hused. reflexivity.
      * intros x nx Hx Hat. destruct (decide (x = p ++ [c])) as [->|Hne].
        -- unfold trie.node_at in Hat. rewrite Hp in Hat. simpl in Hat.
           assert (nx = nb) as -> by congruence.
           apply trie_nodeStillUsed. exact Hused.
        -- apply (Hpr x nx Hx Hne Hat).
      * apply trie_grown_refl.
    + assert (trie.len (trie.Children nb) = 0%nat ∧ trie.UserIDs nb = ∅)
        as [Hlen Hempty].
      { apply orb_false_iff in Hused as [H1 H2].
        apply negb_false_iff, Nat.eqb_eq in H1, H2.
        split; [exact H1|apply map_size_empty_inv, H2]. }
      destruct (trie_cut s p a na c b nb Hwf Ha Hna Hc Hnb Hlen)
        as (Hwf' & Ha' & Hat).
      destruct (IH a (trie.cut a na c s) Hwf' Ha') as (s' & Hrun & HW & HP & HG).
      { intros x nx Hx Hxp. rewrite Hat. case_decide as H1; [discriminate|].
        rewrite decide_False by exact Hxp. apply (Hpr x nx Hx H1). }
      exists s'. split_and!; auto.
      * intros [|fuel] Hf; [lia|].
        rewrite length_app in Hf. simpl in Hf.
        rewrite <- (Hrun fuel) by lia.
        simpl. unfold trie.bind, trie.load, trie.ret, trie.store.
        rewrite Hnb. cbv beta iota. rewrite Hused. cbv beta iota.
        rewrite Hnb. cbv beta iota. rewrite Hprev, Hna. cbv beta iota.
        rewrite Hlet, Hc. cbv beta iota. rewrite Hna. reflexivity.
      * apply (trie_grown_trans _ s' (trie.cut a na c s)).
        -- apply (trie_grown_weaken p); [apply prefix_app_r; reflexivity|exact HG].
        -- intros x. unfold trie.subscribers. rewrite Hat.
           case_decide as H1.
           ++ right. subst x. split; [reflexivity|]. split; [reflexivity|].
              unfold trie.node_at. rewrite Hp. simpl. rewrite Hnb. simpl.
              congruence.
           ++ left. case_decide as H2; [|reflexivity].
              subst x. unfold trie.node_at. rewrite Ha. simpl. rewrite Hna.
              reflexivity.
Qed.

Lemma trie_subscription_root s u :
  trie.wf s -> trie.subscription s [] u = None.
Proof.
  intros [(nr & Hr & _ & Hu) _]. unfold trie.subscription, trie.subscribers,
    trie.node_at. simpl. rewrite Hr. simpl. rewrite Hu. apply lookup_empty.
Qed.

Lemma trie_Remove s name userID :
  trie.wf s -> trie.pruned s ->
  ∃ s', (∀ fuel, (length name < fuel)%nat ->
           trie.Remove fuel name userID s
           = trie.Ok (default None (trie.subscription s name userID)) s') ∧
        trie.wf s' ∧ trie.pruned s' ∧
        (∀ x u, trie.subscription s' x u
                = if decide (x = name ∧ u = userID) then None
                  else trie.subscription s x u) ∧
        (∀ x, trie.subscribers s' x = None ∨
              trie.subscribers s' x
              = (if decide (x = name) then delete userID else id)
                  <$> trie.subscribers s x).
Proof.
  intros Hwf Hpr. destruct (decide (name = [])) as [->|Hname].
  { exists s. split_and!; auto.
    - intros fuel _. simpl. rewrite trie_subscription_root by exact Hwf.
      reflexivity.
    - intros x u. case_decide as Hxu; [|reflexivity].
      destruct Hxu as [-> ->]. apply trie_subscription_root, Hwf.
    - intros x. right. case_decide as Hx; [|symmetry; apply option_fmap_id].
      subst x. destruct Hwf as [(nr & Hr & _ & Hu) _].
      unfold trie.subscribers, trie.node_at. simpl. rewrite Hr. simpl.
      rewrite Hu, delete_empty. reflexivity. }
  destruct (trie.walk (trie.heap s) (trie.root s) name) as [c|] eqn:Hc.
  2:{ assert (∀ u, trie.subscription s name u = None) as Hnone.
      { intros u. unfold trie.subscription, trie.subscribers, trie.node_at.
        rewrite Hc. reflexivity. }
      exists s. split_and!; auto.
      - intros fuel _. unfold trie.Remove. destruct name; [congruence|].
        unfold trie.bind. rewrite trie_getTopicNode by exact Hwf.
        rewrite Hc, Hnone. reflexivity.
      - intros x u. case_decide as Hxu; [|reflexivity].
        destruct Hxu as [-> ->]. apply Hnone.
      - intros x. right. case_decide as Hx; [|symmetry; apply option_fmap_id].
        subst x. unfold trie.subscribers, trie.node_at. rewrite Hc.
        reflexivity. }
  destruct (trie_walk_allocated s name c Hwf Hc) as [nd Hnd].
  assert (∀ u, trie.subscription s name u = trie.UserIDs nd !! u) as Hsub.
  { intros u. unfold trie.subscription, trie.subscribers, trie.node_at.
    rewrite Hc. simpl. rewrite Hnd. reflexivity. }
  destruct (trie_with_users s name c nd (delete userID (trie.UserIDs nd))
              Hwf Hc Hnd) as (Hwf1 & Hwalk1 & Hat1); [congruence|].
  destruct (trie_clean name c
              (trie.with_users c nd (delete userID (trie.UserIDs nd)) s) Hwf1)
    as (s' & Hrun & HW & HP & HG).
  { change (trie.root (trie.with_users c nd (delete userID (trie.UserIDs nd)) s))
      with (trie.root s). rewrite Hwalk1. exact Hc. }
  { intros x nx Hx Hxn. rewrite Hat1, decide_False by exact Hxn.
    apply (Hpr x nx Hx). }
  exists s'. split_and!; auto.
  - intros fuel Hf. specialize (Hrun fuel Hf). unfold trie.with_users in Hrun.
    rewrite Hsub. unfold trie.Remove. destruct name as [|l q]; [congruence|].
    unfold trie.bind. rewrite trie_getTopicNode by exact Hwf.
    rewrite Hc. unfold trie.load, trie.store. rewrite Hnd. cbv beta iota.
    rewrite Hnd. cbv beta iota. rewrite Hrun. reflexivity.
  - intros x u.
    transitivity (trie.subscription
                    (trie.with_users c nd (delete userID (trie.UserIDs nd)) s)
                    x u).
    + unfold trie.subscription. destruct (HG x) as [E|(_ & N & E)].
      * rewrite E. reflexivity.
      * rewrite N, E. simpl. symmetry. apply lookup_empty.
    + unfold trie.subscription at 1. unfold trie.subscribers. rewrite Hat1.
      destruct (decide (x = name)) as [->|Hx].
      * simpl. destruct (decide (u = userID)) as [->|Hu].
        -- rewrite decide_True by auto. apply lookup_delete_eq.
        -- rewrite decide_False by (intros [_ ?]; auto).
           rewrite lookup_delete_ne by auto. symmetry. apply Hsub.
      * rewrite decide_False by (intros [? _]; auto). reflexivity.
  - intros x. destruct (HG x) as [E|(_ & N & E)]; [right|left; exact N].
    rewrite <- E. unfold trie.subscribers. rewrite Hat1.
    case_decide as Hx.
    + subst x. unfold trie.node_at. rewrite Hc. simpl. rewrite Hnd. reflexivity.
    + symmetry. apply option_fmap_id.
Qed.

(** ** The states the package reaches *)

Lemma trie_wf_New : trie.wf trie.New ∧ trie.pruned trie.New.
Proof.
  assert (∀ name, name ≠ [] ->
            trie.walk (trie.heap trie.New) (trie.root trie.New) name = None)
    as Hnone.
  { intros [|c q] Hq; [congruence|]. reflexivity. }
  split; [split|].
  - eexists. split; [reflexivity|]. auto.
  - intros name a n letter b Ha Hn Hb. destruct name as [|c q].
    + injection Ha as <-. injection Hn as <-. discriminate.
    + rewrite Hnone in Ha by discriminate. discriminate.
  - intros name n Hname Hat. unfold trie.node_at in Hat.
    rewrite Hnone in Hat by exact Hname. discriminate.
Qed.

Lemma trie_reachable_wf s : trie.reachable s -> trie.wf s ∧ trie.pruned s.
Proof.
  induction 1 as [|s c s' _ [Hwf Hpr] Hret]; [apply trie_wf_New|].
  destruct c as [name userID d|name userID]; simpl in Hret.
  - destruct (decide (name = [])) as [->|Hname].
    + injection Hret as <-. auto.
    + destruct (trie_Add s name userID d Hwf Hpr Hname)
        as (s1 & HA & HW & HP & _).
      rewrite HA in Hret. injection Hret as <-. auto.
  - destruct Hret as [v Hv].
    destruct (trie_Remove s name userID Hwf Hpr) as (s1 & HR & HW & HP & _).
    rewrite (HR (S (length name))) in Hv by lia. injection Hv as _ <-. auto.
Qed.

(** ** Names as strings *)

Lemma trie_range_nil (name : string) : trie.range name = [] ↔ name = "".
Proof.
  split; [|intros ->; reflexivity].
  destruct name as [|c0 s1]; [reflexivity|]. cbn [trie.range].
  repeat case_match; discriminate.
Qed.

(** ** Properties of the package *)

(** X15. [Get] only reads.  In every state reached from the new trie by
    [Add] and [Remove], [Get] runs without a [nil] dereference, leaves
    the trie as it is and returns the users of the node the letters of
    the name lead to, [nil] when a letter is missing; for the empty
    name it returns the map of the root, which is always empty. *)
Theorem Get_only_reads s name :
  trie.reachable s ->
  trie.Get name s = trie.Ok (trie.subscribers s name) s ∧
  trie.Get [] s = trie.Ok (Some ∅) s.
Proof.
  intros Hre. destruct (trie_reachable_wf s Hre) as [Hwf _].
  split; [apply trie_Get, Hwf|]. rewrite trie_Get by exact Hwf.
  destruct Hwf as [(nr & Hr & _ & Hu) _].
  unfold trie.subscribers, trie.node_at. simpl. rewrite Hr. simpl.
  rewrite Hu. reflexivity.
Qed.

Lemma Get_only_reads_witness :
  trie.Get [97; 98] trie.New = trie.Ok None trie.New ∧
  trie.Get [] trie.New = trie.Ok (Some ∅) trie.New.
Proof.
  exact (Get_only_reads trie.New [97; 98] trie.reachable_New).
Defined.

(** X16. [Add] then [Get].  In every reachable state [Add] with a name
    that is not the empty string returns; afterwards [Get] of that name
    shows the users it had before together with the new one, and [Get]
    of every string whose runes are a prefix of the name's runes is not
    [nil].  The subscription of a user under a string is what it was,
    unless the user is the one added and the string has the same runes
    as the name: strings are told apart by their runes only, so that
    after [Add] of the one byte [0xFF] the user is also found under the
    one byte [0xFE], both reading as [U+FFFD]. *)
Theorem Add_then_Get s (name : string) userID d :
  trie.reachable s -> name ≠ "" ->
  ∃ s', trie.Add (trie.range name) userID d s = trie.Ok () s' ∧
        trie.Get (trie.range name) s'
        = trie.Ok (Some (<[userID := d]>
                           (default ∅ (trie.subscribers s (trie.range name)))))
            s' ∧
        (∀ x : string, trie.range x `prefix_of` trie.range name ->
           ∃ m, trie.Get (trie.range x) s' = trie.Ok (Some m) s') ∧
        (∀ (x : string) u,
           trie.subscription s' (trie.range x) u
           = if decide (trie.range x = trie.range name ∧ u = userID)
             then Some d
             else trie.subscription s (trie.range x) u).
Proof.
  intros Hre Hname. destruct (trie_reachable_wf s Hre) as [Hwf Hpr].
  assert (trie.range name ≠ []) as Hrunes
    by (intros H; apply Hname, trie_range_nil, H).
  destruct (trie_Add s (trie.range name) userID d Hwf Hpr Hrunes)
    as (s' & HA & HW & HP & Hsub & Hpre & Hoth).
  exists s'. split_and!; auto.
  - rewrite trie_Get by exact HW. rewrite Hsub. reflexivity.
  - intros x Hx. destruct (Hpre (trie.range x) Hx) as [m Hm]. exists m.
    rewrite trie_Get by exact HW. rewrite Hm. reflexivity.
  - intros x u. unfold trie.subscription.
    destruct (decide (trie.range x = trie.range name)) as [Hx|Hx].
    + rewrite Hx, Hsub. simpl. destruct (decide (u = userID)) as [->|Hu].
      * rewrite decide_True by auto. apply lookup_insert_eq.
      * rewrite decide_False by (intros [_ ?]; auto).
        rewrite lookup_insert_ne by auto.
        destruct (trie.subscribers s (trie.range name)); simpl;
          [reflexivity|apply lookup_empty].
    + rewrite decide_False by (intros [? _]; auto).
      destruct (Hoth (trie.range x) Hx) as [E|(_ & N & E)].
      * rewrite E. reflexivity.
      * rewrite N, E. simpl. apply lookup_empty.
Qed.

Lemma Add_then_Get_witness :
  ∃ s', trie.Add (trie.range (String (Ascii.ascii_of_nat 255) "")) "u"
          (Some 1%nat) trie.New = trie.Ok () s' ∧
        trie.subscription s' (trie.range (String (Ascii.ascii_of_nat 254) ""))
          "u" = Some (Some 1%nat).
Proof.
  destruct (Add_then_Get trie.New (String (Ascii.ascii_of_nat 255) "") "u"
              (Some 1%nat) trie.reachable_New ltac:(discriminate))
    as (s' & HA & _ & _ & Hsub).
  exists s'. split; [exact HA|].
  rewrite (Hsub (String (Ascii.ascii_of_nat 254) "") "u").
  reflexivity.
Defined.

(** X17. [Remove] returns what was stored and erases exactly that.  In
    every reachable state, [Remove] returns as soon as [cleanTopicPath]
    may make one call more than the name has runes; it returns the
    pointer stored for the user under the name, [nil] when there is
    none (no such topic, no such user, the empty string).  Afterwards
    the subscription of a user under a string is what it was, unless
    the user is the one removed and the string has the same runes as
    the name, in which case it is gone: strings are told apart by their
    runes only, so that [Remove] of the one byte [0xFE] takes away what
    was added under the one byte [0xFF]. *)
Theorem Remove_returns_and_erases s (name : string) userID :
  trie.reachable s ->
  ∃ s', (∀ fuel, (length (trie.range name) < fuel)%nat ->
           trie.Remove fuel (trie.range name) userID s
           = trie.Ok (default None
                        (trie.subscription s (trie.range name) userID)) s') ∧
        (∀ (x : string) u,
           trie.subscription s' (trie.range x) u
           = if decide (trie.range x = trie.range name ∧ u = userID)
             then None
             else trie.subscription s (trie.range x) u) ∧
        (trie.Get (trie.range name) s' = trie.Ok None s' ∨
         trie.Get (trie.range name) s'
         = trie.Ok (delete userID <$> trie.subscribers s (trie.range name)) s').
Proof.
  intros Hre. destruct (trie_reachable_wf s Hre) as [Hwf Hpr].
  destruct (trie_Remove s (trie.range name) userID Hwf Hpr)
    as (s' & HR & HW & HP & Hsub & Hget).
  exists s'. split_and!; auto.
  rewrite trie_Get by exact HW.
  destruct (Hget (trie.range name)) as [E|E]; rewrite E;
    [left; reflexivity|right].
  rewrite decide_True by reflexivity. reflexivity.
Qed.

Lemma Remove_returns_and_erases_witness :
  ∃ s, trie.Add (trie.range (String (Ascii.ascii_of_nat 255) "")) "u"
         (Some 1%nat) trie.New = trie.Ok () s ∧
       ∃ s', trie.Remove 2 (trie.range (String (Ascii.ascii_of_nat 254) ""))
               "u" s = trie.Ok (Some 1%nat) s' ∧
             trie.subscription s'
               (trie.range (String (Ascii.ascii_of_nat 255) "")) "u" = None.
Proof.
  eexists. split; [vm_compute; reflexivity|].
  lazymatch goal with
  | |- ∃ s', trie.Remove _ _ _ ?S = _ ∧ _ =>
      destruct (Remove_returns_and_erases S
                  (String (Ascii.ascii_of_nat 254) "") "u")
        as (s' & HR & Hsub & _)
  end.
  - apply (trie.reachable_call trie.New
             (trie.Call_Add (trie.range (String (Ascii.ascii_of_nat 255) ""))
                "u" (Some 1%nat)));
      [apply trie.reachable_New|vm_compute; reflexivity].
  - exists s'. split.
    + rewrite (HR 2%nat) by (vm_compute; lia). reflexivity.
    + rewrite (Hsub (String (Ascii.ascii_of_nat 255) "") "u"). reflexivity.
Defined.

(** X18. No dead branch is left.  In every reachable state a node other
    than the root has a user or a child: when [Get] of a name that is
    not empty returns an empty map, [Get] of that name followed by some
    further letter is not [nil]. *)
Theorem no_dead_branch s name :
  trie.reachable s -> name ≠ [] ->
  trie.Get name s = trie.Ok (Some ∅) s ->
  ∃ c m, trie.Get (name ++ [c]) s = trie.Ok (Some m) s.
Proof.
  intros Hre Hname HG. destruct (trie_reachable_wf s Hre) as [Hwf Hpr].
  rewrite trie_Get in HG by exact Hwf. injection HG as HG.
  unfold trie.subscribers in HG.
  destruct (trie.node_at s name) as [n|] eqn:Hat; [|discriminate].
  injection HG as Hu. destruct (Hpr name n Hname Hat) as [Hlen|]; [|congruence].
  destruct (trie.Children n) as [m|] eqn:Hm; [|simpl in Hlen; congruence].
  simpl in Hlen. rewrite map_size_ne_0_lookup in Hlen.
  destruct Hlen as (c & b & Hb). unfold trie.node_at in Hat.
  apply bind_Some in Hat as (a & Ha & Hn).
  destruct (proj2 Hwf name a n c b Ha Hn) as (nb & Hnb & _).
  { rewrite Hm. exact Hb. }
  exists c, (trie.UserIDs nb). rewrite trie_Get by exact Hwf.
  unfold trie.subscribers, trie.node_at. rewrite trie_walk_snoc, Ha. simpl.
  rewrite Hn. simpl. rewrite Hm. simpl. rewrite Hb. simpl. rewrite Hnb.
  reflexivity.
Qed.

Lemma no_dead_branch_witness :
  ∃ s, trie.Add [97; 98] "u" (Some 1%nat) trie.New = trie.Ok () s ∧
       ∃ c m, trie.Get ([97] ++ [c]) s = trie.Ok (Some m) s.
Proof.
  eexists. split; [vm_compute; reflexivity|].
  apply no_dead_branch.
  - apply (trie.reachable_call trie.New
             (trie.Call_Add [97; 98] "u" (Some 1%nat)));
      [apply trie.reachable_New|vm_compute; reflexivity].
  - discriminate.
  - vm_compute. reflexivity.
Defined.

(** X19. [Add] undone by [Remove].  In every reachable state [Add]
    followed by [Remove] of the same name and user returns the pointer
    that was added.  Afterwards the subscription of a user under a
    string is what it was before the [Add], unless the user is that
    user and the string has the same runes as the name, in which case
    there is none, whether or not there was one before: a subscription
    of the user made earlier under the one byte [0xFE] does not
    outlive [Add] and [Remove] of the one byte [0xFF]. *)
Theorem Add_then_Remove s (name : string) userID d :
  trie.reachable s -> name ≠ "" ->
  ∃ s' s'', trie.Add (trie.range name) userID d s = trie.Ok () s' ∧
            (∀ fuel, (length (trie.range name) < fuel)%nat ->
               trie.Remove fuel (trie.range name) userID s'
               = trie.Ok d s'') ∧
            (∀ (x : string) u,
               trie.subscription s'' (trie.range x) u
               = if decide (trie.range x = trie.range name ∧ u = userID)
                 then None
                 else trie.subscription s (trie.range x) u).
Proof.
  intros Hre Hname. destruct (trie_reachable_wf s Hre) as [Hwf Hpr].
  assert (trie.range name ≠ []) as Hrunes
    by (intros H; apply Hname, trie_range_nil, H).
  destruct (trie_Add s (trie.range name) userID d Hwf Hpr Hrunes)
    as (s' & HA & HW & HP & Hsub & _ & Hoth).
  destruct (trie_Remove s' (trie.range name) userID HW HP)
    as (s'' & HR & _ & _ & Hsub' & _).
  exists s', s''. split_and!; auto.
  - intros fuel Hf. rewrite (HR fuel Hf). unfold trie.subscription.
    rewrite Hsub. simpl. rewrite lookup_insert_eq. reflexivity.
  - intros x u. rewrite Hsub'. case_decide as Hxu; [reflexivity|].
    unfold trie.subscription.
    destruct (decide (trie.range x = trie.range name)) as [Hx|Hx].
    + rewrite Hx, Hsub. simpl.
      rewrite lookup_insert_ne by (intros <-; auto).
      destruct (trie.subscribers s (trie.range name)); simpl;
        [reflexivity|apply lookup_empty].
    + destruct (Hoth (trie.range x) Hx) as [E|(_ & N & E)].
      * rewrite E. reflexivity.
      * rewrite N, E. simpl. apply lookup_empty.
Qed.

Lemma Add_then_Remove_witness :
  ∃ s, trie.Add (trie.range (String (Ascii.ascii_of_nat 254) "")) "u"
         (Some 1%nat) trie.New = trie.Ok () s ∧
       ∃ s' s'',
         trie.Add (trie.range (String (Ascii.ascii_of_nat 255) "")) "u"
           (Some 2%nat) s = trie.Ok () s' ∧
         trie.Remove 2 (trie.range (String (Ascii.ascii_of_nat 255) "")) "u" s'
         = trie.Ok (Some 2%nat) s'' ∧
         trie.subscription s''
           (trie.range (String (Ascii.ascii_of_nat 254) "")) "u" = None.
Proof.
  eexists. split; [vm_compute; reflexivity|].
  lazymatch goal with
  | |- ∃ s' s'', trie.Add _ _ _ ?S = _ ∧ _ =>
      destruct (Add_then_Remove S (String (Ascii.ascii_of_nat 255) "") "u"
                  (Some 2%nat))
        as (s' & s'' & HA & HR & Hsub)
  end.
  - apply (trie.reachable_call trie.New
             (trie.Call_Add (trie.range (String (Ascii.ascii_of_nat 254) ""))
                "u" (Some 1%nat)));
      [apply trie.reachable_New|vm_compute; reflexivity].
  - discriminate.
  - exists s', s''. split_and!.
    + exact HA.
    + apply (HR 2%nat). vm_compute. lia.
    + rewrite (Hsub (String (Ascii.ascii_of_nat 254) "") "u"). reflexivity.
Defined.

(** X20. Runes and nodes correspond one to one.  In every reachable
    state [getTopicNode] runs without a [nil] dereference and leaves the
    trie as it is; two strings that it leads to a node reach the same
    node exactly when [range] yields the same runes for them, which
    strings of different bytes can do (the one byte [0xFF] and the three
    bytes of [U+FFFD]); and the node of a name points back, through
    [Previous], to the node of its runes without the last and carries
    that last rune. *)
Theorem names_and_nodes s (p q : string) a :
  trie.reachable s ->
  trie.getTopicNode (trie.range p) s = trie.Ok (Some a) s ->
  (trie.getTopicNode (trie.range q) s = trie.Ok (Some a) s
   ↔ trie.range p = trie.range q) ∧
  (∀ p' c, trie.range p = p' ++ [c] ->
     ∃ n a', trie.heap s !! a = Some n ∧ trie.Letter n = c ∧
             trie.Previous n = Some a' ∧
             trie.getTopicNode p' s = trie.Ok (Some a') s).
Proof.
  intros Hre Hp0. destruct (trie_reachable_wf s Hre) as [Hwf _].
  pose proof Hp0 as Hp.
  rewrite trie_getTopicNode in Hp by exact Hwf. injection Hp as Hp. split.
  - split.
    + intros Hq. rewrite trie_getTopicNode in Hq by exact Hwf.
      injection Hq as Hq.
      apply (trie_walk_inj s (trie.range p) (trie.range q) a Hwf Hp Hq).
    + intros <-. exact Hp0.
  - intros p' c Heq. rewrite Heq, trie_walk_snoc in Hp.
    apply bind_Some in Hp as (a' & Ha' & Hp).
    apply bind_Some in Hp as (n' & Hn' & Hc).
    destruct (proj2 Hwf p' a' n' c a Ha' Hn' Hc) as (n & Hn & Hprev & Hlet).
    exists n, a'. rewrite trie_getTopicNode by exact Hwf. rewrite Ha'. auto.
Qed.

Lemma names_and_nodes_witness :
  ∃ s, trie.Add (trie.range (String (Ascii.ascii_of_nat 255) "")) "u"
         (Some 1%nat) trie.New = trie.Ok () s ∧
       trie.getTopicNode (trie.range "�") s = trie.Ok (Some 1%nat) s.
Proof.
  eexists. split; [vm_compute; reflexivity|].
  refine (proj2 (proj1 (names_and_nodes _ (String (Ascii.ascii_of_nat 255) "")
                          "�" 1%nat _ _)) eq_refl).
  - apply (trie.reachable_call trie.New
             (trie.Call_Add (trie.range (String (Ascii.ascii_of_nat 255) ""))
                "u" (Some 1%nat)));
      [apply trie.reachable_New|vm_compute; reflexivity].
  - vm_compute. reflexivity.
Defined.
